(** * Grouping and rolling-median kernels of pandas' Cython sources

    A shallow embedding of the group-by helpers ([group_labels],
    [groupsort_indexer], [group_add], [group_mean], [group_var],
    [duplicated]) and of the sandbox module ([PyObjectHashTable],
    [_check_minp], [roll_median]), with the properties their
    specification states about them; and of the functions around them
    ([arrmap], [groupby_func], [groupby_indices_naive], [groupby_indices],
    [is_lexsorted], [group_labels2], [reduce_mean], [count_level_1d],
    [count_level_2d], [ts_upsample_generic], and the [set_item],
    [map_locations] and [unique] methods of the hash table), with
    properties read off their code.

    Conventions.
    - An [int32] cell holds a [Z]; every store into one goes through
      [wrap32], the two's-complement truncation the C store performs.
    - A [float64] is Rocq's primitive binary64 [float]; [val == val] is
      [PrimFloat.eqb val val], so NaN, infinities and signed zeros behave as
      in C.
    - An ndarray is a [list]; reads and writes that the source performs
      with bounds checking go through [get] and [set], which fail with
      [IndexError].
    - [np.empty] yields memory of unspecified contents: it is modelled by
      [np_empty junk n], where [junk] gives the content of each cell.
    - A parameter declared as a C [int] receives its Python integer
      through [as_int], which fails with [OverflowError] outside
      [-2^31, 2^31). *)

From Stdlib Require Import ZArith Floats Lia.
From stdpp Require Import gmap list strings sorting.

Local Open Scope Z_scope.

(** ** Errors and the error monad *)

Inductive error : Type :=
  | ValueError   (* raise ValueError(...), np.zeros of a negative size *)
  | KeyError     (* raise KeyError(key) *)
  | IndexError   (* a bounds-checked buffer access out of range *)
  | OverflowError (* a Python integer that does not fit its C type *)
  | OutOfRange.  (* a skip-list select past its size *)

Inductive res (A : Type) : Type :=
  | Ok (a : A)
  | Err (e : error).
Arguments Ok {A} a.
Arguments Err {A} e.

#[global] Instance res_ret : MRet res := fun A a => Ok a.
#[global] Instance res_bind : MBind res := fun A B f m =>
  match m with
  | Ok a => f a
  | Err e => Err e
  end.

(** ** Machine integers *)

Definition wrap32 (z : Z) : Z := (z + 2 ^ 31) `mod` 2 ^ 32 - 2 ^ 31.

Definition int32_max : Z := 2 ^ 31 - 1.

(** The conversion of a Python integer to a C [int], as for an argument
    declared [int] or an assignment to a C [int] variable: outside
    [-2^31, 2^31) it raises [OverflowError]. *)
Definition as_int (z : Z) : res Z :=
  if (- 2 ^ 31 <=? z) && (z <? 2 ^ 31) then Ok z else Err OverflowError.

(** ** Arrays *)

(** [np.zeros(n, dtype='i4')]; a negative size is a [ValueError]. *)
Definition np_zeros (n : Z) : res (list Z) :=
  if n <? 0 then Err ValueError else Ok (replicate (Z.to_nat n) 0).

(** [np.empty(n)]: [n] cells of unspecified content. *)
Definition np_empty {A} (junk : nat → A) (n : nat) : list A := junk <$> seq 0 n.

(** A bounds-checked read [arr[i]]. *)
Definition get {A} (arr : list A) (i : Z) : res A :=
  if i <? 0 then Err IndexError
  else match arr !! Z.to_nat i with
       | Some x => Ok x
       | None => Err IndexError
       end.

(** A bounds-checked write [arr[i] = x]. *)
Definition set {A} (arr : list A) (i : Z) (x : A) : res (list A) :=
  if (i <? 0) || (Z.of_nat (length arr) <=? i) then Err IndexError
  else Ok (<[Z.to_nat i := x]> arr).

(** ** groupsort_indexer *)

(** First loop: [counts[index[i] + 1] += 1] for every [i]. *)
Fixpoint count_groups (index : list Z) (counts : list Z) : res (list Z) :=
  match index with
  | [] => Ok counts
  | lab :: rest =>
      c ← get counts (lab + 1);
      counts' ← set counts (lab + 1) (wrap32 (c + 1));
      count_groups rest counts'
  end.

(** Second loop: [for i from 1 <= i < ngroups + 1:
    where[i] = where[i - 1] + counts[i - 1]]; [k] iterations starting
    at [i]. *)
Fixpoint mark_starts (k : nat) (i : Z) (counts where_ : list Z) : res (list Z) :=
  match k with
  | O => Ok where_
  | S k' =>
      w ← get where_ (i - 1);
      c ← get counts (i - 1);
      where' ← set where_ i (wrap32 (w + c));
      mark_starts k' (i + 1) counts where'
  end.

(** Third loop: [label = index[i] + 1; result[where[label]] = i;
    where[label] += 1]. *)
Fixpoint place_indices (index : list Z) (i : Z) (where_ result : list Z)
  : res (list Z) :=
  match index with
  | [] => Ok result
  | lab :: rest =>
      let label := lab + 1 in
      w ← get where_ label;
      result' ← set result w (wrap32 i);
      w' ← get where_ label;
      where' ← set where_ label (wrap32 (w' + 1));
      place_indices rest (i + 1) where' result'
  end.

Definition groupsort_indexer (index : list Z) (ngroups : Z) : res (list Z) :=
  counts ← np_zeros (ngroups + 1);
  let n := Z.of_nat (length index) in
  counts ← count_groups index counts;
  where_ ← np_zeros (ngroups + 1);
  where_ ← mark_starts (Z.to_nat ngroups) 1 counts where_;
  result ← np_zeros n;
  place_indices index 0 where_ result.

(** [labels.take(indexer)]: the labels read in the order the indexer gives. *)
Definition take_by (index : list Z) (indexer : list Z) : list Z :=
  (λ r, default 0 (index !! Z.to_nat r)) <$> indexer.

(** Notions the statements about [groupsort_indexer] use: the number of
    labels below [l], the number of labels equal to [l], and the slot of
    position [j] -- after all smaller labels and after the earlier
    positions with the same label. *)
Definition smaller (l : Z) (index : list Z) : nat :=
  length (filter (λ x, x < l) index).

Definition equal_to (l : Z) (index : list Z) : nat :=
  length (filter (λ x, x = l) index).

Definition slot (index : list Z) (j : nat) : nat :=
  match index !! j with
  | Some l => smaller l index + equal_to l (take j index)
  | None => 0
  end.

(** ** Object keys

    The keys of [group_labels], [duplicated] and [PyObjectHashTable] are
    Python objects.  A dict or hash table identifies two keys when they
    hash alike and compare equal; the key type [K] carries that
    identification as its (decidable) equality.  The rich comparison
    [a != b] is a separate operation [py_ne]: a float NaN is a key like any
    other, yet [py_ne nan nan] holds. *)

Section object_keys.
Context {K : Type} `{Countable K}.
Variable py_ne : K → K → bool.

(** *** group_labels *)

Record gl_state : Type := GlState {
  gl_labels : list Z;      (* ndarray[int32_t] labels *)
  gl_counts : list Z;      (* ndarray[int32_t] counts *)
  gl_ids : gmap K Z;       (* dict ids *)
  gl_reverse : gmap Z K;   (* dict reverse *)
  gl_count : Z             (* int32_t count *)
}.

(** The body of the loop, at position [i] holding [val]. *)
Definition group_labels_body (i : nat) (val : K) (st : gl_state) : gl_state :=
  if py_ne val val then
    GlState (<[i := -1]> (gl_labels st)) (gl_counts st)
            (gl_ids st) (gl_reverse st) (gl_count st)
  else
    match gl_ids st !! val with
    | Some idx =>
        GlState (<[i := idx]> (gl_labels st))
                (<[Z.to_nat idx := wrap32 (gl_counts st !!! Z.to_nat idx + 1)]>
                   (gl_counts st))
                (gl_ids st) (gl_reverse st) (gl_count st)
    | None =>
        let count := gl_count st in
        GlState (<[i := count]> (gl_labels st))
                (<[Z.to_nat count := 1]> (gl_counts st))
                (<[val := count]> (gl_ids st))
                (<[count := val]> (gl_reverse st))
                (wrap32 (count + 1))
    end.

Fixpoint group_labels_loop (values : list K) (i : nat) (st : gl_state)
  : gl_state :=
  match values with
  | [] => st
  | val :: rest => group_labels_loop rest (S i) (group_labels_body i val st)
  end.

(** [group_labels(values)] returns [reverse, labels, counts[:count]]. *)
Definition group_labels (junk_l junk_c : nat → Z) (values : list K)
  : gmap Z K * list Z * list Z :=
  let n := length values in
  let st := group_labels_loop values 0
              (GlState (np_empty junk_l n) (np_empty junk_c n) ∅ ∅ 0) in
  (gl_reverse st, gl_labels st, take (Z.to_nat (gl_count st)) (gl_counts st)).

(** The distinct non-missing keys of a sequence, in the order of their
    first occurrence, and the number of occurrences of a key: notions the
    statements about factorization use.  [miss] is the test for a missing
    key. *)
Definition first_seen_step (miss : K → bool) (u : list K) (k : K) : list K :=
  if miss k then u else if decide (k ∈ u) then u else u ++ [k].

Definition first_seen (miss : K → bool) (l : list K) : list K :=
  foldl (first_seen_step miss) [] l.

Definition occurrences (k : K) (l : list K) : nat :=
  length (filter (λ x, x = k) l).

(** The state of [group_labels] after the keys [pre], in arrays of
    length [n]: the groups are the first-seen keys in their order, [ids]
    and [reverse] map between a key and its position there, [counts] holds
    the occurrences of each group, and [labels] is filled up to
    [length pre]. *)
Record gl_inv (n : nat) (pre : list K) (st : gl_state) : Prop := GlInv {
  gl_inv_labels : length (gl_labels st) = n;
  gl_inv_counts : length (gl_counts st) = n;
  gl_inv_count :
    gl_count st = Z.of_nat (length (first_seen (λ v, py_ne v v) pre));
  gl_inv_ids : ∀ k g,
    gl_ids st !! k = Some g ↔
    ∃ g' : nat, g = Z.of_nat g' ∧ first_seen (λ v, py_ne v v) pre !! g' = Some k;
  gl_inv_reverse : ∀ g k,
    gl_reverse st !! g = Some k ↔
    ∃ g' : nat, g = Z.of_nat g' ∧ first_seen (λ v, py_ne v v) pre !! g' = Some k;
  gl_inv_occ : ∀ (g' : nat) k,
    first_seen (λ v, py_ne v v) pre !! g' = Some k →
    gl_counts st !! g' = Some (Z.of_nat (occurrences k pre));
  gl_inv_missing : ∀ (j : nat) k,
    pre !! j = Some k → py_ne k k = true → gl_labels st !! j = Some (-1);
  gl_inv_label : ∀ (j : nat) k,
    pre !! j = Some k → py_ne k k = false →
    ∃ g' : nat, gl_labels st !! j = Some (Z.of_nat g') ∧
                first_seen (λ v, py_ne v v) pre !! g' = Some k;
  gl_inv_new : ∀ (j : nat) k,
    pre !! j = Some k → py_ne k k = false → k ∉ take j pre →
    gl_labels st !! j =
      Some (Z.of_nat (length (first_seen (λ v, py_ne v v) (take j pre))))
}.

(** *** duplicated *)

Definition duplicated_body (values : list K) (i : nat)
    (st : gmap K () * list bool) : gmap K () * list bool :=
  match values !! i with
  | Some row =>
      match st.1 !! row with
      | Some _ => (st.1, <[i := true]> st.2)
      | None => (<[row := ()]> st.1, <[i := false]> st.2)
      end
  | None => st
  end.

(** [take_last] selects the loop [for i from n > i >= 0], otherwise
    [for i from 0 <= i < n]. *)
Definition duplicated (values : list K) (take_last : bool) : list bool :=
  let n := length values in
  let result := replicate n false in
  let order := if take_last then reverse (seq 0 n) else seq 0 n in
  (foldl (λ st i, duplicated_body values i st) (∅, result) order).2.

(** *** PyObjectHashTable *)

(** Modelled from the spec: khash_python.h, which implements the table
    behind [kh_pymap_t], is not part of the sources.  The specification
    gives [get(key) -> Option<payload>] (the payload stored for [key], or
    not found, which the C interface signals by returning [n_buckets]) and
    [put(key, payload)], after which [get(key)] returns [payload] and no
    other key is affected.  The table is therefore a finite map from keys
    to [size_t] payloads; [kh_put_pymap] followed by the store
    [table.vals[k] = v] is [kh_put]. *)
Definition kh_get (table : gmap K Z) (key : K) : option Z := table !! key.
Definition kh_put (table : gmap K Z) (key : K) (payload : Z) : gmap K Z :=
  <[key := payload]> table.

(** The methods take the table [self.table] and return it with their
    result. *)
Definition get_item (val : K) (table : gmap K Z) : res Z * gmap K Z :=
  match kh_get table val with
  | Some v => (Ok v, table)
  | None => (Err KeyError, table)
  end.

Definition lookup_locations_body (table : gmap K Z) (i : nat) (val : K)
    (locs : list Z) : list Z :=
  match kh_get table val with
  | Some v => <[i := wrap32 v]> locs
  | None => <[i := -1]> locs
  end.

Fixpoint lookup_locations_loop (table : gmap K Z) (values : list K) (i : nat)
    (locs : list Z) : list Z :=
  match values with
  | [] => locs
  | val :: rest =>
      lookup_locations_loop table rest (S i)
        (lookup_locations_body table i val locs)
  end.

Definition lookup_locations (junk : nat → Z) (values : list K)
    (table : gmap K Z) : list Z * gmap K Z :=
  (lookup_locations_loop table values 0 (np_empty junk (length values)), table).

(** The location of a key: its payload as an int32, or the sentinel [-1]. *)
Definition location_of (table : gmap K Z) (key : K) : Z :=
  match table !! key with
  | Some v => wrap32 v
  | None => -1
  end.

Record ht_state : Type := HtState {
  ht_table : gmap K Z;     (* self.table *)
  ht_labels : list Z;      (* ndarray[int32_t] labels *)
  ht_counts : list Z;      (* ndarray[int32_t] counts *)
  ht_reverse : gmap Z K;   (* dict reverse *)
  ht_count : Z             (* Py_ssize_t count *)
}.

Definition factorize_body (i : nat) (val : K) (st : ht_state) : ht_state :=
  match kh_get (ht_table st) val with
  | Some idx =>
      HtState (ht_table st)
              (<[i := wrap32 idx]> (ht_labels st))
              (<[Z.to_nat idx := wrap32 (ht_counts st !!! Z.to_nat idx + 1)]>
                 (ht_counts st))
              (ht_reverse st) (ht_count st)
  | None =>
      let count := ht_count st in
      HtState (kh_put (ht_table st) val count)
              (<[i := wrap32 count]> (ht_labels st))
              (<[Z.to_nat count := 1]> (ht_counts st))
              (<[count := val]> (ht_reverse st))
              (count + 1)
  end.

Fixpoint factorize_loop (values : list K) (i : nat) (st : ht_state)
  : ht_state :=
  match values with
  | [] => st
  | val :: rest => factorize_loop rest (S i) (factorize_body i val st)
  end.

(** [PyObjectHashTable.factorize(values)] on the table [table]: returns
    [reverse, labels, counts[:count]] and leaves the keys in the table. *)
Definition factorize (junk_l junk_c : nat → Z) (values : list K)
    (table : gmap K Z) : (gmap Z K * list Z * list Z) * gmap K Z :=
  let n := length values in
  let st := factorize_loop values 0
              (HtState table (np_empty junk_l n) (np_empty junk_c n) ∅ 0) in
  ((ht_reverse st, ht_labels st,
    take (Z.to_nat (ht_count st)) (ht_counts st)),
   ht_table st).
(** The state of [PyObjectHashTable.factorize] read as a state of
    [group_labels], the table in the place of [ids]. *)
Definition ht_as_gl (st : ht_state) : gl_state :=
  GlState (ht_labels st) (ht_counts st) (ht_table st) (ht_reverse st)
          (ht_count st).

(** The components of a factorization result [reverse, labels, counts]. *)
Definition fact_reverse (r : gmap Z K * list Z * list Z) : gmap Z K := r.1.1.
Definition fact_labels (r : gmap Z K * list Z * list Z) : list Z := r.1.2.
Definition fact_counts (r : gmap Z K * list Z * list Z) : list Z := r.2.

End object_keys.

(** A small universe of Python objects for concrete runs: strings, integers
    and the float NaN. *)
Inductive pyobj : Type :=
  | PyStr (s : string)
  | PyInt (n : Z)
  | PyNaN.

#[global] Instance pyobj_eq_dec : EqDecision pyobj.
Proof. solve_decision. Defined.

#[global] Instance pyobj_countable : Countable pyobj.
Proof.
  refine (inj_countable'
    (λ o, match o with
          | PyStr s => inl s
          | PyInt n => inr (Some n)
          | PyNaN => inr None
          end)
    (λ c, match c with
          | inl s => PyStr s
          | inr (Some n) => PyInt n
          | inr None => PyNaN
          end) _).
  intros []; reflexivity.
Defined.

(** [a != b] on [pyobj]: NaN differs from everything, itself included. *)
Definition pyobj_ne (a b : pyobj) : bool :=
  match a, b with
  | PyNaN, _ | _, PyNaN => true
  | _, _ => negb (bool_decide (a = b))
  end.

(** ** Group aggregation: group_add, group_mean, group_var *)

(** [val == val] on float64. *)
Definition not_nan (val : float) : bool := PrimFloat.eqb val val.

(** [np.zeros_like(out)] for a float64 array. *)
Definition zeros_like (out : list float) : list float :=
  replicate (length out) 0%float.

(** The accumulators of [group_add] and [group_mean]. *)
Record sums : Type := Sums {
  s_counts : list Z;       (* ndarray[int32_t] counts, the caller's array *)
  s_nobs : list float;     (* ndarray[float64_t] nobs *)
  s_sumx : list float      (* ndarray[float64_t] sumx *)
}.

(** The accumulators of [group_var]. *)
Record moments : Type := Moments {
  m_counts : list Z;
  m_nobs : list float;
  m_sumx : list float;
  m_sumxx : list float
}.

(** [arr[lab] += x] on a float64 array. *)
Definition add_at (arr : list float) (lab : Z) (x : float) : res (list float) :=
  a ← get arr lab; set arr lab (a + x)%float.

(** [counts[lab] += 1] on an int32 array. *)
Definition incr_at (arr : list Z) (lab : Z) : res (list Z) :=
  c ← get arr lab; set arr lab (wrap32 (c + 1)).

Definition group_add_body (labels : list Z) (i : Z) (val : float) (st : sums)
  : res sums :=
  lab ← get labels i;
  if lab <? 0 then Ok st
  else
    counts ← incr_at (s_counts st) lab;
    if not_nan val then
      nobs ← add_at (s_nobs st) lab 1;
      sumx ← add_at (s_sumx st) lab val;
      Ok (Sums counts nobs sumx)
    else Ok (Sums counts (s_nobs st) (s_sumx st)).

(** [group_mean] reads [val = values[i]] before it increments
    [counts[lab]]; the loop hands [val] to the body, so the two statements
    read as in [group_add]. *)
Definition group_mean_body (labels : list Z) (i : Z) (val : float) (st : sums)
  : res sums :=
  lab ← get labels i;
  if lab <? 0 then Ok st
  else
    counts ← incr_at (s_counts st) lab;
    if not_nan val then
      nobs ← add_at (s_nobs st) lab 1;
      sumx ← add_at (s_sumx st) lab val;
      Ok (Sums counts nobs sumx)
    else Ok (Sums counts (s_nobs st) (s_sumx st)).

Definition group_var_body (labels : list Z) (i : Z) (val : float) (st : moments)
  : res moments :=
  lab ← get labels i;
  if lab <? 0 then Ok st
  else
    counts ← incr_at (m_counts st) lab;
    if not_nan val then
      nobs ← add_at (m_nobs st) lab 1;
      sumx ← add_at (m_sumx st) lab val;
      sumxx ← add_at (m_sumxx st) lab (val * val);
      Ok (Moments counts nobs sumx sumxx)
    else Ok (Moments counts (m_nobs st) (m_sumx st) (m_sumxx st)).

(** [for i in range(len(values))], with [values[i]] at hand. *)
Fixpoint pass {St} (body : Z → float → St → res St) (values : list float)
    (i : Z) (st : St) : res St :=
  match values with
  | [] => Ok st
  | val :: rest => st' ← body i val st; pass body rest (i + 1) st'
  end.

(** [for i in range(len(counts))]: [k] iterations from [i], each storing
    [fin i] into [out[i]]. *)
Fixpoint finalize (fin : Z → res float) (k : nat) (i : Z) (out : list float)
  : res (list float) :=
  match k with
  | O => Ok out
  | S k' => x ← fin i; out' ← set out i x; finalize fin k' (i + 1) out'
  end.

Definition group_add_fin (st : sums) (i : Z) : res float :=
  n ← get (s_nobs st) i;
  if PrimFloat.eqb n 0 then Ok nan else get (s_sumx st) i.

Definition group_mean_fin (st : sums) (i : Z) : res float :=
  count ← get (s_nobs st) i;
  if PrimFloat.eqb count 0 then Ok nan
  else sx ← get (s_sumx st) i; Ok (sx / count)%float.

Definition group_var_fin (st : moments) (i : Z) : res float :=
  ct ← get (m_nobs st) i;
  if PrimFloat.ltb ct 2 then Ok nan
  else
    sxx ← get (m_sumxx st) i;
    sx ← get (m_sumx st) i;
    Ok ((ct * sxx - sx * sx) / (ct * ct - ct))%float.

(** The functions write [out] and [counts] in place; the model returns
    both. *)
Definition group_add (out : list float) (counts : list Z)
    (values : list float) (labels : list Z) : res (list float * list Z) :=
  st ← pass (group_add_body labels) values 0
         (Sums counts (zeros_like out) (zeros_like out));
  out' ← finalize (group_add_fin st) (length (s_counts st)) 0 out;
  Ok (out', s_counts st).

Definition group_mean (out : list float) (counts : list Z)
    (values : list float) (labels : list Z) : res (list float * list Z) :=
  st ← pass (group_mean_body labels) values 0
         (Sums counts (zeros_like out) (zeros_like out));
  out' ← finalize (group_mean_fin st) (length (s_counts st)) 0 out;
  Ok (out', s_counts st).

Definition group_var (out : list float) (counts : list Z)
    (values : list float) (labels : list Z) : res (list float * list Z) :=
  st ← pass (group_var_body labels) values 0
         (Moments counts (zeros_like out) (zeros_like out) (zeros_like out));
  out' ← finalize (group_var_fin st) (length (m_counts st)) 0 out;
  Ok (out', m_counts st).

(** ** The order-statistic skip list *)

(** Modelled from the spec: skiplist.h is not part of the sources.  The
    specification describes a sorted sequence of doubles, duplicates
    allowed: [insert] walks while the next value is [<=] the target, so a
    duplicate lands after the values equal to it; [remove] unsplices the
    first node whose value equals the target and does nothing when there is
    none; [select k] is the value of zero-based rank [k] and fails when
    [k >= size].  The towers of forward pointers and their widths only
    make these walks fast; the bottom level, kept here, determines every
    answer. *)
Definition skiplist : Type := list float.

Definition skiplist_init (expected_size : Z) : skiplist := [].

Fixpoint skiplist_insert (sl : skiplist) (value : float) : skiplist :=
  match sl with
  | [] => [value]
  | x :: rest =>
      if PrimFloat.leb x value then x :: skiplist_insert rest value
      else value :: sl
  end.

Fixpoint skiplist_remove (sl : skiplist) (value : float) : skiplist :=
  match sl with
  | [] => []
  | x :: rest =>
      if PrimFloat.eqb x value then rest else x :: skiplist_remove rest value
  end.

Definition skiplist_get (sl : skiplist) (i : Z) : res float :=
  if i <? 0 then Err OutOfRange
  else match sl !! Z.to_nat i with
       | Some x => Ok x
       | None => Err OutOfRange
       end.

(** ** Rolling median *)

Definition _check_minp (minp N : Z) : res Z :=
  if N <? minp then Ok (N + 1)
  else if minp =? 0 then Ok 1
  else if minp <? 0 then Err ValueError
  else Ok minp.

Record rm_state : Type := RmState {
  rm_sl : skiplist;          (* skiplist_t *sl *)
  rm_nobs : Z;               (* Py_ssize_t nobs *)
  rm_output : list float     (* ndarray[double_t] output *)
}.

(** The body of the first loop, [for i from 0 <= i < minp - 1]. *)
Definition roll_median_head (arg : list float) (i : Z) (st : rm_state)
  : res rm_state :=
  val ← get arg i;
  let '(sl, nobs) :=
    if not_nan val then (skiplist_insert (rm_sl st) val, rm_nobs st + 1)
    else (rm_sl st, rm_nobs st) in
  output ← set (rm_output st) i nan;
  Ok (RmState sl nobs output).

(** The body of the second loop, [for i from minp - 1 <= i < N].  The
    divisions are on a positive [nobs]. *)
Definition roll_median_tail (arg : list float) (win minp : Z) (i : Z)
    (st : rm_state) : res rm_state :=
  val ← get arg i;
  '(sl, nobs) ←
    (if win - 1 <? i then
       prev ← get arg (i - win);
       if not_nan prev then Ok (skiplist_remove (rm_sl st) prev, rm_nobs st - 1)
       else Ok (rm_sl st, rm_nobs st)
     else Ok (rm_sl st, rm_nobs st));
  let '(sl, nobs) :=
    if not_nan val then (skiplist_insert sl val, nobs + 1) else (sl, nobs) in
  r ←
    (if minp <=? nobs then
       let midpoint := nobs `div` 2 in
       if negb (nobs `mod` 2 =? 0) then skiplist_get sl midpoint
       else
         a ← skiplist_get sl midpoint;
         b ← skiplist_get sl (midpoint - 1);
         Ok ((a + b) / 2)%float
     else Ok nan);
  output ← set (rm_output st) i r;
  Ok (RmState sl nobs output).

(** [for i from lo <= i < lo + k]. *)
Fixpoint for_range {St} (body : Z → St → res St) (k : nat) (lo : Z) (st : St)
  : res St :=
  match k with
  | O => Ok st
  | S k' => st' ← body lo st; for_range body k' (lo + 1) st'
  end.

(** [win] and [minp] are declared [int win, int minp]: the call converts
    both, and [minp = _check_minp(minp, N)] converts the returned Python
    integer again.  [minp - 1] and [win - 1] are C [int] expressions; after
    [_check_minp] the threshold is at least 1, and the statements about the
    second loop take [1 <= win], so neither overflows there. *)
Definition roll_median (junk : nat → float) (arg : list float) (win minp : Z)
  : res (list float) :=
  win ← as_int win;
  minp ← as_int minp;
  let N := Z.of_nat (length arg) in
  let output := np_empty junk (length arg) in
  let sl := skiplist_init win in
  minp ← _check_minp minp N;
  minp ← as_int minp;
  st ← for_range (roll_median_head arg) (Z.to_nat (minp - 1)) 0
         (RmState sl 0 output);
  st ← for_range (roll_median_tail arg win minp)
         (Z.to_nat (N - (minp - 1))) (minp - 1) st;
  Ok (rm_output st).

(** *** The rule of the specification

    The rolling median as the specification words it: one step per input
    position, on a skip list holding the window and a counter of the live
    observations. *)

(** The middle value for an odd count, the average of the two middle
    values for an even one. *)
Definition window_median (sl : skiplist) (count : Z) : res float :=
  if Z.odd count then skiplist_get sl (count `div` 2)
  else
    hi ← skiplist_get sl (count `div` 2);
    lo ← skiplist_get sl (count `div` 2 - 1);
    Ok ((hi + lo) / 2)%float.

Definition median_rule_step (arg : list float) (w minp : Z) (i : Z)
    (val : float) (st : skiplist * Z) : res (skiplist * Z * float) :=
  '(sl, count) ←
    (if w <=? i then
       leaving ← get arg (i - w);
       if not_nan leaving then Ok (skiplist_remove st.1 leaving, st.2 - 1)
       else Ok st
     else Ok st);
  let '(sl, count) :=
    if not_nan val then (skiplist_insert sl val, count + 1) else (sl, count) in
  out ← (if minp <=? count then window_median sl count else Ok nan);
  Ok (sl, count, out).

Fixpoint median_rule_from (arg : list float) (w minp : Z) (rest : list float)
    (i : Z) (st : skiplist * Z) : res (list float) :=
  match rest with
  | [] => Ok []
  | val :: rest' =>
      '(sl, count, out) ← median_rule_step arg w minp i val st;
      outs ← median_rule_from arg w minp rest' (i + 1) (sl, count);
      Ok (out :: outs)
  end.

Definition median_rule (arg : list float) (w minp : Z) : res (list float) :=
  median_rule_from arg w minp arg 0 ([], 0).

(** *** The observations of a group

    Notions the statements about the aggregation pass use: the elements
    labelled [g], and among them the non-NaN values, in input order. *)

Definition group_members (g : Z) (labels : list Z) (values : list float)
  : list float :=
  (filter (λ p, p.1 = g) (zip labels values)).*2.

Definition group_obs (g : Z) (labels : list Z) (values : list float)
  : list float :=
  (filter (λ p, p.1 = g ∧ not_nan p.2 = true) (zip labels values)).*2.

(** The accumulators as left-to-right folds from zero. *)
Definition count_obs (vs : list float) : float :=
  foldl (λ a _, (a + 1)%float) 0%float vs.
Definition sum_obs (vs : list float) : float :=
  foldl (λ a v, (a + v)%float) 0%float vs.
Definition sumsq_obs (vs : list float) : float :=
  foldl (λ a v, (a + v * v)%float) 0%float vs.

(** A binary64 value, in the representation that specifies the primitive
    floats, that is [+inf] or positive and finite with an exponent of at
    least [lo]: with [lo = -52] a value of at least 1, with [lo = -51] a
    value of at least 2. *)
Definition at_least (lo : Z) (s : spec_float) : Prop :=
  s = S754_infinity false ∨ ∃ m e, s = S754_finite false m e ∧ lo ≤ e.

(** [k] increments of an int32 cell. *)
Definition incr_times (k : nat) (c : Z) : Z := Nat.iter k (λ c, wrap32 (c + 1)) c.

(** The effect of one element once its label is read. *)
Definition sums_step (lab : Z) (val : float) (st : sums) : res sums :=
  if lab <? 0 then Ok st
  else
    counts ← incr_at (s_counts st) lab;
    if not_nan val then
      nobs ← add_at (s_nobs st) lab 1;
      sumx ← add_at (s_sumx st) lab val;
      Ok (Sums counts nobs sumx)
    else Ok (Sums counts (s_nobs st) (s_sumx st)).

Definition moments_step (lab : Z) (val : float) (st : moments) : res moments :=
  if lab <? 0 then Ok st
  else
    counts ← incr_at (m_counts st) lab;
    if not_nan val then
      nobs ← add_at (m_nobs st) lab 1;
      sumx ← add_at (m_sumx st) lab val;
      sumxx ← add_at (m_sumxx st) lab (val * val);
      Ok (Moments counts nobs sumx sumxx)
    else Ok (Moments counts (m_nobs st) (m_sumx st) (m_sumxx st)).

(** A pass over the pairs [(labels[i], values[i])]. *)
Fixpoint fold_pairs {St} (step : Z → float → St → res St)
    (pairs : list (Z * float)) (st : St) : res St :=
  match pairs with
  | [] => Ok st
  | (lab, val) :: rest => st' ← step lab val st; fold_pairs step rest st'
  end.

(** The sum of an int array, as [counts.sum()]. *)
Definition sum_counts (l : list Z) : Z := foldr Z.add 0 l.

(** *** Counting live observations

    Notions the statements about the rolling median use. *)

(** The number of non-NaN values of a list. *)
Definition live (l : list float) : Z := Z.of_nat (length (filter (λ v, not_nan v = true) l)).

(** The window before position [i]: the last [w] values of [take i arg]. *)
Definition window_at (arg : list float) (w i : nat) : list float :=
  drop (i - w) (take i arg).

(** ** is_lexsorted *)






(** ** group_labels2 *)

Section object_keys_more.
Context {K : Type} `{Countable K}.
Variable py_ne : K → K → bool.

Record gl2_state : Type := Gl2State {
  gl2_labels : list Z;      (* ndarray[int32_t] labels *)
  gl2_ids : gmap K Z;       (* dict ids *)
  gl2_reverse : gmap Z K;   (* dict reverse *)
  gl2_count : Z             (* int32_t count *)
}.

Definition group_labels2_body (i : nat) (val : K) (st : gl2_state) : gl2_state :=
  if py_ne val val then
    Gl2State (<[i := -1]> (gl2_labels st)) (gl2_ids st) (gl2_reverse st)
             (gl2_count st)
  else
    match gl2_ids st !! val with
    | Some idx =>
        Gl2State (<[i := idx]> (gl2_labels st)) (gl2_ids st) (gl2_reverse st)
                 (gl2_count st)
    | None =>
        let count := gl2_count st in
        Gl2State (<[i := count]> (gl2_labels st))
                 (<[val := count]> (gl2_ids st))
                 (<[count := val]> (gl2_reverse st))
                 (wrap32 (count + 1))
    end.

Fixpoint group_labels2_loop (values : list K) (i : nat) (st : gl2_state)
  : gl2_state :=
  match values with
  | [] => st
  | val :: rest => group_labels2_loop rest (S i) (group_labels2_body i val st)
  end.

(** [group_labels2(values)] returns [reverse, labels]. *)
Definition group_labels2 (junk_l : nat → Z) (values : list K)
  : gmap Z K * list Z :=
  let n := length values in
  let st := group_labels2_loop values 0 (Gl2State (np_empty junk_l n) ∅ ∅ 0) in
  (gl2_reverse st, gl2_labels st).

(** The state of [group_labels] without its [counts]. *)
Definition gl_without_counts (st : gl_state) : gl2_state :=
  Gl2State (gl_labels st) (gl_ids st) (gl_reverse st) (gl_count st).

End object_keys_more.

(** ** arrmap, groupby_func, groupby_indices_naive, groupby_indices *)

(** [arrmap(index, func)]: [result[i] = func(index[i])] into a fresh
    array.  [func] is taken as a total function.  The counter and the
    length are C [int]s, here and in [groupby_func]; the statements take
    fewer than 2^31 elements. *)
Fixpoint arrmap_loop {A B} (func : A → B) (index : list A) (i : nat)
    (result : list B) : list B :=
  match index with
  | [] => result
  | x :: rest => arrmap_loop func rest (S i) (<[i := func x]> result)
  end.

Definition arrmap {A B} (junk : nat → B) (index : list A) (func : A → B)
  : list B :=
  arrmap_loop func index 0 (np_empty junk (length index)).

(** A list, or nothing when it is empty: the entry of a key in a dict that
    holds only the keys that occur. *)
Definition unless_empty {A} (l : list A) : option (list A) :=
  match l with
  | [] => None
  | _ => Some l
  end.

Section groupby.
Context {A K : Type} `{Countable K}.

(** [isnullobj] is not part of the sources; the functions below take the
    mask it returns as it comes, one flag per entry. *)
Variable isnullobj : list K → list bool.
Variable py_ne : K → K → bool.

(** The body of the loop of [groupby_func]; the reads [mask[i]] and
    [mapped_index[i]] are unchecked, a read outside the array is reported
    as [IndexError]. *)
Definition groupby_func_body (mapped_index : list K) (mask : list bool)
    (i : nat) (idx : A) (result : gmap K (list A)) : res (gmap K (list A)) :=
  m ← get mask (Z.of_nat i);
  if (m : bool) then Ok result
  else
    key ← get mapped_index (Z.of_nat i);
    match result !! key with
    | Some members => Ok (<[key := members ++ [idx]]> result)
    | None => Ok (<[key := [idx]]> result)
    end.

Fixpoint groupby_func_loop (mapped_index : list K) (mask : list bool)
    (index_buf : list A) (i : nat) (result : gmap K (list A))
  : res (gmap K (list A)) :=
  match index_buf with
  | [] => Ok result
  | idx :: rest =>
      result' ← groupby_func_body mapped_index mask i idx result;
      groupby_func_loop mapped_index mask rest (S i) result'
  end.

Definition groupby_func (junk : nat → K) (index : list A) (mapper : A → K)
  : res (gmap K (list A)) :=
  let index_buf := index in
  let mapped_index := arrmap junk index_buf mapper in
  let mask := isnullobj mapped_index in
  groupby_func_loop mapped_index mask index_buf 0 ∅.

(** The body of the loop of [groupby_indices_naive]. *)
Definition groupby_indices_naive_body (mask : list bool) (i : nat) (key : K)
    (result : gmap K (list Z)) : res (gmap K (list Z)) :=
  m ← get mask (Z.of_nat i);
  if (m : bool) then Ok result
  else
    match result !! key with
    | Some members => Ok (<[key := members ++ [Z.of_nat i]]> result)
    | None => Ok (<[key := [Z.of_nat i]]> result)
    end.

Fixpoint groupby_indices_naive_loop (mask : list bool) (values : list K)
    (i : nat) (result : gmap K (list Z)) : res (gmap K (list Z)) :=
  match values with
  | [] => Ok result
  | key :: rest =>
      result' ← groupby_indices_naive_body mask i key result;
      groupby_indices_naive_loop mask rest (S i) result'
  end.

Definition groupby_indices_naive (values : list K) : res (gmap K (list Z)) :=
  groupby_indices_naive_loop (isnullobj values) values 0 ∅.

Definition func_groupby_indices (junk : nat → K) (index : list A)
    (mapper : A → K) : res (gmap K (list Z)) :=
  groupby_indices_naive (arrmap junk index mapper).

(** *** groupby_indices

    The arrays [arr] are shared between the dict [result] and the pointer
    table [vecs]: the model keeps them in one store, [vecs], and [result]
    maps a key to the place of its array there.  The function is compiled
    without bounds checks and the writes [vecs[k][loc] = i] go through raw
    pointers; an access outside an array is reported as [IndexError]. *)

(** First loop: [arr = np.empty(counts[i]); result[ids[i]] = arr;
    vecs[i] = arr.data]. *)
Fixpoint groupby_indices_alloc (junk : nat → nat → Z) (ids : gmap Z K)
    (counts : list Z) (i : nat) (result : gmap K nat) (vecs : list (list Z))
  : res (gmap K nat * list (list Z)) :=
  match counts with
  | [] => Ok (result, vecs)
  | c :: rest =>
      if c <? 0 then Err ValueError
      else
        let arr := np_empty (junk i) (Z.to_nat c) in
        match ids !! Z.of_nat i with
        | None => Err KeyError
        | Some key =>
            groupby_indices_alloc junk ids rest (S i) (<[key := i]> result)
              (vecs ++ [arr])
        end
  end.

(** Second loop: [k = labels[i]; if k == -1: continue; loc = seen[k];
    vecs[k][loc] = i; seen[k] = loc + 1]. *)
Definition groupby_indices_fill (labels : list Z) (i : Z)
    (st : list (list Z) * list Z) : res (list (list Z) * list Z) :=
  k ← get labels i;
  if k =? -1 then Ok st
  else
    loc ← get st.2 k;
    arr ← get st.1 k;
    arr' ← set arr loc (wrap32 i);
    vecs' ← set st.1 k arr';
    seen' ← set st.2 k (wrap32 (loc + 1));
    Ok (vecs', seen').

Definition groupby_indices (junk : nat → nat → Z) (junk_l junk_c : nat → Z)
    (values : list K) : res (gmap K (list Z)) :=
  let n := length values in
  let r := group_labels py_ne junk_l junk_c values in
  let ids := fact_reverse r in
  let labels := fact_labels r in
  let counts := fact_counts r in
  let seen := replicate (length counts) 0 in
  alloc ← groupby_indices_alloc junk ids counts 0 ∅ [];
  st ← for_range (groupby_indices_fill labels) n 0
         ((alloc : gmap K nat * list (list Z)).2, seen);
  Ok ((λ r : nat, default [] ((st : list (list Z) * list Z).1 !! r))
        <$> (alloc : gmap K nat * list (list Z)).1).

(** The positions of [values], in ascending order, that hold [key] and
    are not masked. *)
Definition positions_of (values : list K) (mask : list bool) (key : K)
    (n : nat) : list Z :=
  Z.of_nat <$>
    filter (λ i, values !! i = Some key ∧ mask !! i = Some false) (seq 0 n).

(** The elements of [index], in order, whose mapped key is [key] and
    that are not masked. *)
Definition members_of (index : list A) (mask : list bool) (mapper : A → K)
    (key : K) : list A :=
  (filter (λ p, mapper p.1 = key ∧ p.2 = false) (zip index mask)).*1.

(** The state of the second loop of [groupby_indices] after [i]
    positions. *)
Definition fill_inv (values : list K) (u : list K) (i : nat)
    (st : list (list Z) * list Z) : Prop :=
  length st.1 = length u ∧ length st.2 = length u ∧
  ∀ (g : nat) k, u !! g = Some k →
    st.2 !! g = Some (Z.of_nat (occurrences k (take i values))) ∧
    ∃ arr, st.1 !! g = Some arr ∧ length arr = occurrences k values ∧
           take (occurrences k (take i values)) arr =
           Z.of_nat <$> filter (λ p, values !! p = Some k) (seq 0 i).

End groupby.

(** ** PyObjectHashTable: set_item, map_locations, unique *)

Section hash_table_more.
Context {K : Type} `{Countable K}.

(** Modelled from the spec: [kh_put_pymap] alone, without the store into
    [vals] that [kh_put] includes.  The specification gives
    [put(key, payload) -> (slot, inserted)]: a key already present keeps
    its slot and its payload, a new key takes a slot whose payload is left
    to the caller, here the unspecified [junk]; in both cases the slot
    returned is occupied, which is what [kh_exist_pymap] tests. *)
Definition kh_put_key (table : gmap K Z) (key : K) (junk : Z) : gmap K Z :=
  match table !! key with
  | Some _ => table
  | None => <[key := junk]> table
  end.




(** [map_locations]: [k = kh_put_pymap(table, val); table.vals[k] = i]
    for every position [i]. *)
Fixpoint map_locations_loop (values : list K) (i : nat) (table : gmap K Z)
  : gmap K Z :=
  match values with
  | [] => table
  | val :: rest => map_locations_loop rest (S i) (kh_put table val (Z.of_nat i))
  end.

Definition map_locations (values : list K) (table : gmap K Z) : gmap K Z :=
  map_locations_loop values 0 table.

(** [unique]: a key the table does not hold is put into it, with no store
    into [vals], and appended to [uniques]. *)
Definition unique_body (junk : nat → Z) (i : nat) (val : K)
    (st : gmap K Z * list K) : gmap K Z * list K :=
  match kh_get st.1 val with
  | None => (kh_put_key st.1 val (junk i), st.2 ++ [val])
  | Some _ => st
  end.

Fixpoint unique_loop (junk : nat → Z) (values : list K) (i : nat)
    (st : gmap K Z * list K) : gmap K Z * list K :=
  match values with
  | [] => st
  | val :: rest => unique_loop junk rest (S i) (unique_body junk i val st)
  end.

(** [unique(values)] on the table [table]: the list [uniques] and the
    table the call leaves. *)
Definition unique (junk : nat → Z) (values : list K) (table : gmap K Z)
  : list K * gmap K Z :=
  let st := unique_loop junk values 0 (table, []) in
  (st.2, st.1).

(** The values that [duplicated] leaves unmarked. *)
Definition unmarked (values : list K) (marks : list bool) : list K :=
  (filter (λ p, p.2 = false) (zip values marks)).*1.

End hash_table_more.

(** ** count_level_1d *)

Definition wrap64 (z : Z) : Z := (z + 2 ^ 63) `mod` 2 ^ 64 - 2 ^ 63.

(** [count_level_1d] is compiled with bounds checking and with negative
    indices wrapping around: an index [i < 0] stands for [i + len(arr)]. *)
Definition wrap_index {A} (arr : list A) (i : Z) : Z :=
  if i <? 0 then i + Z.of_nat (length arr) else i.

(** [counts[labels[i]] += 1] where [mask[i]] is set. *)
Definition count_level_1d_body (labels : list Z) (i : Z) (m : bool)
    (counts : list Z) : res (list Z) :=
  if m then
    lab ← get labels (wrap_index labels i);
    c ← get counts (wrap_index counts lab);
    set counts (wrap_index counts lab) (wrap64 (c + 1))
  else Ok counts.

Fixpoint count_level_1d_loop (labels : list Z) (mask : list bool) (i : Z)
    (counts : list Z) : res (list Z) :=
  match mask with
  | [] => Ok counts
  | m :: rest =>
      counts' ← count_level_1d_body labels i m counts;
      count_level_1d_loop labels rest (i + 1) counts'
  end.

Definition count_level_1d (mask : list bool) (labels : list Z) (max_bin : Z)
  : res (list Z) :=
  counts ← np_zeros max_bin;
  count_level_1d_loop labels mask 0 counts.

(** The bin a label is counted in, and the number of set positions whose
    label falls into bin [g]. *)
Definition bin_of (max_bin : Z) (lab : Z) : Z :=
  if lab <? 0 then lab + max_bin else lab.

Definition bin_hits (max_bin : Z) (g : Z) (mask : list bool) (labels : list Z)
  : nat :=
  length (filter (λ p, p.1 = true ∧ bin_of max_bin p.2 = g) (zip mask labels)).

(** ** count_level_2d

    A 2-D array is the list of its rows.  The shape [(n, k)] of [mask]
    gives the number [n] of rows, which is [length mask], and the number
    [k] of columns. *)

(** [if mask[i, j]: counts[labels[i], j] += 1]. *)
Definition count_level_2d_cell (labels : list Z) (mask : list (list bool))
    (i j : Z) (counts : list (list Z)) : res (list (list Z)) :=
  mrow ← get mask (wrap_index mask i);
  m ← get mrow (wrap_index mrow j);
  if (m : bool) then
    lab ← get labels (wrap_index labels i);
    row ← get counts (wrap_index counts lab);
    c ← get row (wrap_index row j);
    row' ← set row (wrap_index row j) (wrap64 (c + 1));
    set counts (wrap_index counts lab) row'
  else Ok counts.

Definition count_level_2d (mask : list (list bool)) (k : nat)
    (labels : list Z) (max_bin : Z) : res (list (list Z)) :=
  let n := length mask in
  counts ← (if max_bin <? 0 then Err ValueError
            else Ok (replicate (Z.to_nat max_bin) (replicate k 0)));
  for_range
    (λ i counts,
       for_range (λ j counts, count_level_2d_cell labels mask i j counts)
         k 0 counts)
    n 0 counts.

(** Column [j] of a 2-D array. *)
Definition column {A} (d : A) (j : nat) (rows : list (list A)) : list A :=
  (λ row, default d (row !! j)) <$> rows.

(** ** reduce_mean, ts_upsample_generic *)

(** The outcome of a function that starts with an [assert]. *)
Inductive asserted (A : Type) : Type :=
  | AssertionError
  | Passed (a : A).
Arguments AssertionError {A}.
Arguments Passed {A} a.

Section buckets.
Context {K : Type}.

(** The comparisons [a <= b] and [a < b] of the index objects. *)
Variables py_le py_lt : K → K → bool.

Definition within (inclusive : bool) (next_bound : K) (ix : K) : bool :=
  if inclusive then py_le ix next_bound else py_lt ix next_bound.

(** The loop [while j < nvalues and indices[j] <= next_bound] (or [<]) of
    [reduce_mean] with its body.  [k] is [nvalues - j]: running out of it is
    the test [j < nvalues] failing. *)
Fixpoint reduce_mean_scan (inclusive : bool) (next_bound : K)
    (indices : list K) (values : list float) (k : nat) (j : Z)
    (the_sum nobs : float) : res (Z * float * float) :=
  match k with
  | O => Ok (j, the_sum, nobs)
  | S k' =>
      ix ← get indices j;
      if within inclusive next_bound ix then
        val ← get values j;
        if not_nan val then
          reduce_mean_scan inclusive next_bound indices values k' (j + 1)
            (the_sum + val) (nobs + 1)
        else
          reduce_mean_scan inclusive next_bound indices values k' (j + 1)
            the_sum nobs
      else Ok (j, the_sum, nobs)
  end.

(** The loop [for i from 0 <= i < nbuckets] from bucket [i] on, the
    buckets still to come in [buckets]. *)
Fixpoint reduce_mean_loop (inclusive : bool) (indices : list K)
    (values : list float) (buckets : list K) (i j : Z) (output : list float)
  : res (list float) :=
  match buckets with
  | [] => Ok output
  | next_bound :: rest =>
      let nvalues := Z.of_nat (length indices) in
      r ← reduce_mean_scan inclusive next_bound indices values
             (Z.to_nat (nvalues - j)) j 0 0;
      let '(j, the_sum, nobs) := (r : Z * float * float) in
      output ← (if PrimFloat.ltb 0 nobs then set output i (the_sum / nobs)%float
                else Ok output);
      if nvalues <=? j then Ok output
      else reduce_mean_loop inclusive indices values rest (i + 1) j output
  end.

Definition reduce_mean (indices buckets : list K) (values : list float)
    (inclusive : bool) : asserted (res (list float)) :=
  let nbuckets := length buckets in
  if decide (length values = length indices) then
    let output := replicate nbuckets nan in
    Passed (reduce_mean_loop inclusive indices values buckets 0 0 output)
  else AssertionError.

(** The loop of [ts_upsample_generic] only advances [j]. *)
Fixpoint ts_upsample_scan (inclusive : bool) (next_bound : K)
    (indices : list K) (k : nat) (j : Z) : res Z :=
  match k with
  | O => Ok j
  | S k' =>
      ix ← get indices j;
      if within inclusive next_bound ix then
        ts_upsample_scan inclusive next_bound indices k' (j + 1)
      else Ok j
  end.

(** [values[jstart:j]]. *)
Definition slice {A} (l : list A) (lo hi : Z) : list A :=
  take (Z.to_nat hi - Z.to_nat lo) (drop (Z.to_nat lo) l).

Fixpoint ts_upsample_generic_loop (aggfunc : list float → res float)
    (inclusive : bool) (indices : list K) (values : list float)
    (buckets : list K) (i j : Z) (output : list float) : res (list float) :=
  match buckets with
  | [] => Ok output
  | next_bound :: rest =>
      let nvalues := Z.of_nat (length indices) in
      let the_sum := 0%float in
      let nobs := 0%float in
      let jstart := j in
      j ← ts_upsample_scan inclusive next_bound indices
             (Z.to_nat (nvalues - j)) j;
      output ← (if PrimFloat.ltb 0 nobs then
                  x ← aggfunc (slice values jstart j); set output i x
                else Ok output);
      if nvalues <=? j then Ok output
      else ts_upsample_generic_loop aggfunc inclusive indices values rest
             (i + 1) j output
  end.

Definition ts_upsample_generic (indices buckets : list K)
    (values : list float) (aggfunc : list float → res float)
    (inclusive : bool) : asserted (res (list float)) :=
  let nbuckets := length buckets in
  if decide (length values = length indices) then
    let output := replicate nbuckets nan in
    Passed (ts_upsample_generic_loop aggfunc inclusive indices values buckets
              0 0 output)
  else AssertionError.

(** The leading pairs of a list whose index is within the bound, and the
    mean of the non-NaN values of a list, NaN for none: notions the
    statements about [reduce_mean] use. *)
Fixpoint leading (inclusive : bool) (next_bound : K)
    (pairs : list (K * float)) : list (K * float) :=
  match pairs with
  | [] => []
  | p :: rest =>
      if within inclusive next_bound p.1
      then p :: leading inclusive next_bound rest else []
  end.

Definition mean_of (vs : list float) : float :=
  let obs := filter (λ v, not_nan v = true) vs in
  match obs with
  | [] => nan
  | _ => (sum_obs obs / count_obs obs)%float
  end.

Fixpoint bucket_means (inclusive : bool) (buckets : list K)
    (pairs : list (K * float)) : list float :=
  match buckets with
  | [] => []
  | next_bound :: rest =>
      let chunk := leading inclusive next_bound pairs in
      mean_of chunk.*2 ::
      bucket_means inclusive rest (drop (length chunk) pairs)
  end.

End buckets.

(** With integer indices (time stamps): whether an index belongs to the
    bucket that ends at [hi], the previous bucket ending at [lo] if there is
    one; and the values of that bucket. *)
Definition in_bucket (inclusive : bool) (lo : option Z) (hi : Z) (ix : Z) : bool :=
  match lo with
  | None => true
  | Some lo => if inclusive then lo <? ix else lo <=? ix
  end && (if inclusive then ix <=? hi else ix <? hi).

Definition bucket_values (inclusive : bool) (lo : option Z) (hi : Z)
    (indices : list Z) (values : list float) : list float :=
  (filter (λ p, in_bucket inclusive lo hi p.1 = true) (zip indices values)).*2.

(** * Properties *)

(** ** Basic facts: machine integers, arrays, the error monad *)

Lemma wrap32_id (z : Z) : - 2 ^ 31 ≤ z < 2 ^ 31 → wrap32 z = z.
Proof.
  intros Hz. unfold wrap32.
  rewrite Z.mod_small; lia.
Qed.

Lemma get_Ok {A} (arr : list A) (i : nat) (x : A) :
  arr !! i = Some x → get arr (Z.of_nat i) = Ok x.
Proof.
  intros Hx. unfold get.
  destruct (Z.ltb_spec (Z.of_nat i) 0) as [?|_]; [lia|].
  by rewrite Nat2Z.id, Hx.
Qed.

Lemma get_Ok_Z {A} (arr : list A) (i : Z) (x : A) :
  0 ≤ i → arr !! Z.to_nat i = Some x → get arr i = Ok x.
Proof.
  intros Hi Hx. rewrite <- (Z2Nat.id i) by done. by apply get_Ok.
Qed.

Lemma set_Ok {A} (arr : list A) (i : nat) (x : A) :
  (i < length arr)%nat → set arr (Z.of_nat i) x = Ok (<[i := x]> arr).
Proof.
  intros Hi. unfold set.
  destruct (Z.ltb_spec (Z.of_nat i) 0) as [?|_]; [lia|].
  destruct (Z.leb_spec (Z.of_nat (length arr)) (Z.of_nat i)) as [?|_]; [lia|].
  by rewrite Nat2Z.id.
Qed.

Lemma set_Ok_Z {A} (arr : list A) (i : Z) (x : A) :
  0 ≤ i < Z.of_nat (length arr) → set arr i x = Ok (<[Z.to_nat i := x]> arr).
Proof.
  intros Hi. rewrite <- (Z2Nat.id i) at 1 by lia.
  rewrite set_Ok by lia. done.
Qed.

Lemma np_empty_length {A} (junk : nat → A) (n : nat) :
  length (np_empty junk n) = n.
Proof. unfold np_empty. by rewrite length_fmap, length_seq. Qed.

Lemma take_insert_snoc {A} (l : list A) (i : nat) (x : A) :
  (i < length l)%nat → take (S i) (<[i := x]> l) = take i l ++ [x].
Proof.
  revert i. induction l as [|y l IH]; intros [|i] Hi; simpl in *; try lia.
  - by rewrite take_0.
  - f_equal. apply IH. lia.
Qed.

(** ** Rolling median *)

Lemma live_app (l k : list float) : live (l ++ k) = live l + live k.
Proof. unfold live. rewrite filter_app, length_app. lia. Qed.

Lemma live_bounds (l : list float) : 0 ≤ live l ≤ Z.of_nat (length l).
Proof. unfold live. pose proof (length_filter (λ v, not_nan v = true) l). lia. Qed.

Lemma live_singleton (v : float) :
  live [v] = if not_nan v then 1 else 0.
Proof.
  unfold live. rewrite filter_cons, filter_nil.
  case_decide as E.
  - by rewrite E.
  - by destruct (not_nan v).
Qed.

Lemma window_at_length (arg : list float) (w i : nat) :
  (length (window_at arg w i) ≤ w)%nat.
Proof. unfold window_at. rewrite length_drop, length_take. lia. Qed.

(** Sliding the window by one position: the value [w] positions back,
    if there is one, leaves at the front and [arg[i]] enters at the end. *)
Lemma window_at_grow (arg : list float) (w i : nat) (v : float) :
  (i < w)%nat → arg !! i = Some v →
  window_at arg w (S i) = window_at arg w i ++ [v].
Proof.
  intros Hi Hv. unfold window_at.
  replace (S i - w)%nat with 0%nat by lia.
  replace (i - w)%nat with 0%nat by lia.
  rewrite !drop_0. by apply take_S_r.
Qed.

Lemma window_at_slide (arg : list float) (w i : nat) (v p : float) :
  (1 ≤ w)%nat → (w ≤ i)%nat → arg !! i = Some v → arg !! (i - w)%nat = Some p →
  p :: window_at arg w (S i) = window_at arg w i ++ [v].
Proof.
  intros Hw Hi Hv Hp. unfold window_at.
  rewrite (take_S_r _ _ _ Hv).
  replace (S i - w)%nat with (S (i - w)) by lia.
  assert (Hlen : (i ≤ length arg)%nat).
  { apply lookup_lt_Some in Hv. lia. }
  rewrite !drop_app_le by (rewrite length_take; lia).
  rewrite app_comm_cons. f_equal.
  symmetry. apply drop_S.
  rewrite lookup_take_lt by lia. done.
Qed.

Lemma check_minp_range (minp N minp' : Z) :
  0 ≤ N → _check_minp minp N = Ok minp' → 1 ≤ minp' ≤ N + 1.
Proof.
  unfold _check_minp. intros HN.
  destruct (Z.ltb_spec N minp); [intros [= <-]; lia|].
  destruct (Z.eqb_spec minp 0); [intros [= <-]; lia|].
  destruct (Z.ltb_spec minp 0); [done|].
  intros [= <-]; lia.
Qed.

Lemma for_range_app {St} (body : Z → St → res St) (a b : nat) (lo : Z) (st : St) :
  for_range body (a + b) lo st =
  (st' ← for_range body a lo st; for_range body b (lo + Z.of_nat a) st').
Proof.
  revert lo st. induction a as [|a IH]; intros lo st; simpl.
  - by rewrite Z.add_0_r.
  - destruct (body lo st) as [st'|e]; simpl; [|done].
    rewrite IH. replace (lo + 1 + Z.of_nat a) with (lo + Z.pos (Pos.of_succ_nat a)) by lia.
    done.
Qed.

Lemma odd_as_mod (n : Z) : negb (n `mod` 2 =? 0) = Z.odd n.
Proof.
  rewrite Zodd_mod. pose proof (Z.mod_pos_bound n 2 ltac:(lia)).
  destruct (Z.eqb_spec (n `mod` 2) 0) as [->|?]; [done|].
  replace (n `mod` 2) with 1 by lia. done.
Qed.

Section rolling.
Variable arg : list float.
Variables win minp : Z.

(** One iteration of the second loop is one step of the rule, followed
    by the store into [output]. *)
Lemma tail_is_rule_step (i : Z) (sl : skiplist) (nobs : Z) (output : list float) :
  roll_median_tail arg win minp i (RmState sl nobs output) =
  (val ← get arg i;
   '(sl', c', out) ← median_rule_step arg win minp i val (sl, nobs);
   output' ← set output i out;
   Ok (RmState sl' c' output')).
Proof.
  unfold roll_median_tail, median_rule_step, window_median. simpl.
  destruct (get arg i) as [val|e]; simpl; [|done].
  replace (win - 1 <? i) with (win <=? i)
    by (destruct (Z.leb_spec win i), (Z.ltb_spec (win - 1) i); lia || done).
  destruct (win <=? i); simpl.
  - destruct (get arg (i - win)) as [prev|e]; simpl; [|done].
    destruct (not_nan prev); simpl;
      destruct (not_nan val); simpl;
      rewrite ?odd_as_mod;
      repeat (match goal with
              | |- context [if ?b then _ else _] => destruct b; simpl
              | |- context [skiplist_get ?s ?k] =>
                  destruct (skiplist_get s k); simpl
              end); done.
  - destruct (not_nan val); simpl;
      rewrite ?odd_as_mod;
      repeat (match goal with
              | |- context [if ?b then _ else _] => destruct b; simpl
              | |- context [skiplist_get ?s ?k] =>
                  destruct (skiplist_get s k); simpl
              end); done.
Qed.

(** The second loop, run from position [i] to the end, computes what the
    rule computes from there. *)
Lemma tail_refines_rule (k i : nat) (sl : skiplist) (nobs : Z)
    (output : list float) :
  (i + k)%nat = length arg → length output = length arg →
  (st ← for_range (roll_median_tail arg win minp) k (Z.of_nat i)
         (RmState sl nobs output);
   Ok (rm_output st)) =
  (outs ← median_rule_from arg win minp (drop i arg) (Z.of_nat i) (sl, nobs);
   Ok (take i output ++ outs)).
Proof.
  revert i sl nobs output.
  induction k as [|k IH]; intros i sl nobs output Hik Hlen.
  - rewrite drop_ge by lia. simpl.
    rewrite take_ge by lia. by rewrite app_nil_r.
  - destruct (lookup_lt_is_Some_2 arg i) as [v Hv]; [lia|].
    rewrite (drop_S _ _ _ Hv).
    cbn [for_range median_rule_from].
    rewrite tail_is_rule_step, (get_Ok _ _ _ Hv). simpl.
    destruct (median_rule_step arg win minp (Z.of_nat i) v (sl, nobs))
      as [[[sl' c'] out]|e]; simpl; [|done].
    rewrite set_Ok by lia. simpl.
    replace (Z.of_nat i + 1) with (Z.of_nat (S i)) by lia.
    rewrite IH by (rewrite ?length_insert; lia).
    rewrite take_insert_snoc by lia.
    destruct (median_rule_from arg win minp (drop (S i) arg) (Z.of_nat (S i))
                (sl', c')) as [outs|e]; simpl; [|done].
    by rewrite <- app_assoc.
Qed.

(** While fewer than [minp - 1] positions have been seen and the window
    is not yet full, an iteration of the second loop does what an
    iteration of the first does. *)
Lemma head_is_tail (i : Z) (st : rm_state) :
  rm_nobs st ≤ i → i < minp - 1 → i ≤ win - 1 →
  roll_median_head arg i st = roll_median_tail arg win minp i st.
Proof.
  intros Hn Hi Hw. unfold roll_median_head, roll_median_tail.
  destruct (get arg i) as [val|e]; simpl; [|done].
  destruct (Z.ltb_spec (win - 1) i) as [?|_]; [lia|]. simpl.
  destruct (not_nan val); simpl.
  - destruct (Z.leb_spec minp (rm_nobs st + 1)) as [?|_]; [lia|]. done.
  - destruct (Z.leb_spec minp (rm_nobs st)) as [?|_]; [lia|]. done.
Qed.

Lemma head_nobs (i : Z) (st st' : rm_state) :
  roll_median_head arg i st = Ok st' →
  rm_nobs st ≤ rm_nobs st' ≤ rm_nobs st + 1.
Proof.
  unfold roll_median_head.
  destruct (get arg i) as [val|e]; simpl; [|done].
  destruct (not_nan val); simpl;
    destruct (set (rm_output st) i nan); simpl; intros [= <-]; simpl; lia.
Qed.

Lemma head_range_is_tail (k : nat) (i : Z) (st : rm_state) :
  rm_nobs st ≤ i → i + Z.of_nat k ≤ minp - 1 → i + Z.of_nat k ≤ win →
  for_range (roll_median_head arg) k i st =
  for_range (roll_median_tail arg win minp) k i st.
Proof.
  revert i st. induction k as [|k IH]; intros i st Hn Hm Hw; [done|].
  cbn [for_range].
  rewrite <- head_is_tail by lia.
  destruct (roll_median_head arg i st) as [st'|e] eqn:Hst; simpl; [|done].
  apply head_nobs in Hst. apply IH; lia.
Qed.

Lemma roll_median_head_eq (i : Z) (st : rm_state) :
  roll_median_head arg i st =
  (val ← get arg i;
   let '(sl, nobs) :=
     if not_nan val then (skiplist_insert (rm_sl st) val, rm_nobs st + 1)
     else (rm_sl st, rm_nobs st) in
   output ← set (rm_output st) i nan;
   Ok (RmState sl nobs output)).
Proof. reflexivity. Qed.

Lemma roll_median_tail_eq (i : Z) (st : rm_state) :
  roll_median_tail arg win minp i st =
  (val ← get arg i;
   '(sl, nobs) ←
     (if win - 1 <? i then
        prev ← get arg (i - win);
        if not_nan prev then Ok (skiplist_remove (rm_sl st) prev, rm_nobs st - 1)
        else Ok (rm_sl st, rm_nobs st)
      else Ok (rm_sl st, rm_nobs st));
   let '(sl, nobs) :=
     if not_nan val then (skiplist_insert sl val, nobs + 1) else (sl, nobs) in
   r ←
     (if minp <=? nobs then
        let midpoint := nobs `div` 2 in
        if negb (nobs `mod` 2 =? 0) then skiplist_get sl midpoint
        else
          a ← skiplist_get sl midpoint;
          b ← skiplist_get sl (midpoint - 1);
          Ok ((a + b) / 2)%float
      else Ok nan);
   output ← set (rm_output st) i r;
   Ok (RmState sl nobs output)).
Proof. reflexivity. Qed.

(** The first loop stores NaN at each of its positions and counts the
    live values it passes. *)
Lemma head_range_nan (k i : nat) (st : rm_state) :
  (i + k ≤ length arg)%nat → length (rm_output st) = length arg →
  ∃ st', for_range (roll_median_head arg) k (Z.of_nat i) st = Ok st' ∧
         rm_nobs st' = rm_nobs st + live (take k (drop i arg)) ∧
         rm_output st' =
           take i (rm_output st) ++ replicate k nan ++ drop (i + k) (rm_output st).
Proof.
  revert i st. induction k as [|k IH]; intros i st Hik Hlen.
  - exists st. simpl. rewrite take_0, Nat.add_0_r, take_drop.
    unfold live. simpl. split; [done|]. split; [lia|done].
  - destruct (lookup_lt_is_Some_2 arg i) as [v Hv]; [lia|].
    cbn [for_range]. rewrite roll_median_head_eq.
    rewrite (get_Ok _ _ _ Hv). simpl.
    rewrite (drop_S _ _ _ Hv), firstn_cons.
    change (v :: take k (drop (S i) arg)) with ([v] ++ take k (drop (S i) arg)).
    rewrite live_app, live_singleton.
    destruct (not_nan v); simpl; rewrite set_Ok by lia; simpl;
      replace (Z.of_nat i + 1) with (Z.of_nat (S i)) by lia;
      (match goal with
       | |- context [for_range _ _ _ ?s] =>
           destruct (IH (S i) s) as (st' & -> & Hn & Ho);
           [lia | simpl; rewrite length_insert; lia |]
       end);
      (exists st'; split; [done|]; split; [simpl in Hn; lia|]);
      rewrite Ho; simpl; rewrite take_insert_snoc by lia;
      rewrite drop_insert_lt by lia;
      rewrite <- app_assoc; simpl;
      by replace (i + S k)%nat with (S (i + k)) by lia.
Qed.

(** When the counter is the live values of the window plus a constant
    [c0], and [c0] plus the width stays below [minp], the second loop
    stores NaN everywhere. *)
Lemma tail_range_nan (w k i : nat) (c0 : Z) (st : rm_state) :
  win = Z.of_nat w → (1 ≤ w)%nat →
  (i + k)%nat = length arg → length (rm_output st) = length arg →
  rm_nobs st = c0 + live (window_at arg w i) → c0 + win < minp →
  ∃ st', for_range (roll_median_tail arg win minp) k (Z.of_nat i) st = Ok st' ∧
         rm_output st' = take i (rm_output st) ++ replicate k nan.
Proof.
  intros Hwin Hw. revert i st.
  induction k as [|k IH]; intros i st Hik Hlen Hn Hc.
  - exists st. simpl. split; [done|].
    rewrite take_ge by lia. by rewrite app_nil_r.
  - destruct (lookup_lt_is_Some_2 arg i) as [v Hv]; [lia|].
    cbn [for_range]. rewrite roll_median_tail_eq.
    rewrite (get_Ok _ _ _ Hv). simpl.
    assert (Hstep : ∃ sl' nobs',
      (if win - 1 <? Z.of_nat i
       then prev ← get arg (Z.of_nat i - win);
            (if not_nan prev
             then Ok (skiplist_remove (rm_sl st) prev, rm_nobs st - 1)
             else Ok (rm_sl st, rm_nobs st))
       else Ok (rm_sl st, rm_nobs st)) = Ok (sl', nobs') ∧
      nobs' + (if not_nan v then 1 else 0) =
        c0 + live (window_at arg w (S i))).
    { destruct (Z.ltb_spec (win - 1) (Z.of_nat i)) as [Hlt|Hge].
      - destruct (lookup_lt_is_Some_2 arg (i - w)) as [p Hp]; [lia|].
        replace (Z.of_nat i - win) with (Z.of_nat (i - w)) by lia.
        rewrite (get_Ok _ _ _ Hp). simpl.
        pose proof (window_at_slide arg w i v p Hw ltac:(lia) Hv Hp) as Hs.
        apply (f_equal live) in Hs.
        change (p :: window_at arg w (S i)) with ([p] ++ window_at arg w (S i)) in Hs.
        rewrite !live_app, !live_singleton in Hs.
        destruct (not_nan p); eexists _, _; (split; [done|]); lia.
      - pose proof (window_at_grow arg w i v ltac:(lia) Hv) as Hs.
        apply (f_equal live) in Hs.
        rewrite live_app, live_singleton in Hs.
        eexists _, _; split; [done|]. lia. }
    destruct Hstep as (sl' & nobs' & -> & Hn'). simpl.
    pose proof (live_bounds (window_at arg w (S i))) as Hb.
    pose proof (window_at_length arg w (S i)) as Hwl.
    set (sn := if not_nan v then (skiplist_insert sl' v, nobs' + 1)
               else (sl', nobs')).
    assert (Hsn : sn.2 = c0 + live (window_at arg w (S i))).
    { subst sn. destruct (not_nan v); simpl; lia. }
    destruct sn as [sl'' nobs'']. simpl in Hsn.
    destruct (Z.leb_spec minp nobs'') as [?|_]; [lia|]. simpl.
    rewrite set_Ok by lia. simpl.
    replace (Z.of_nat i + 1) with (Z.of_nat (S i)) by lia.
    destruct (IH (S i) (RmState sl'' nobs'' (<[i:=nan]> (rm_output st))))
      as (st' & -> & Ho); simpl; rewrite ?length_insert; try lia.
    exists st'. split; [done|].
    simpl in Ho. rewrite Ho, take_insert_snoc by lia.
    by rewrite <- app_assoc.
Qed.
End rolling.

Lemma skiplist_insert_length (sl : skiplist) (v : float) :
  length (skiplist_insert sl v) = S (length sl).
Proof.
  induction sl as [|x sl IH]; simpl; [done|].
  destruct (PrimFloat.leb x v); simpl; by rewrite ?IH.
Qed.

Lemma skiplist_remove_length (sl : skiplist) (v : float) :
  (length sl ≤ S (length (skiplist_remove sl v)))%nat.
Proof.
  induction sl as [|x sl IH]; simpl; [lia|].
  destruct (PrimFloat.eqb x v); simpl; lia.
Qed.

Lemma skiplist_get_Ok (sl : skiplist) (i : Z) :
  0 ≤ i < Z.of_nat (length sl) → ∃ x, skiplist_get sl i = Ok x.
Proof.
  intros Hi. unfold skiplist_get, skiplist in *.
  destruct (Z.ltb_spec i 0) as [?|_]; [lia|].
  destruct (lookup_lt_is_Some_2 sl (Z.to_nat i)) as [x ->]; [lia|].
  by exists x.
Qed.

(** The second loop never selects past the size of the skip list: the
    list holds at least [nobs] values. *)
Lemma tail_range_Ok (arg : list float) (win minp : Z) (k i : nat) (st : rm_state) :
  1 ≤ win → 1 ≤ minp →
  (i + k)%nat = length arg → length (rm_output st) = length arg →
  rm_nobs st ≤ Z.of_nat (length (rm_sl st)) →
  ∃ st', for_range (roll_median_tail arg win minp) k (Z.of_nat i) st = Ok st' ∧
         length (rm_output st') = length arg.
Proof.
  intros Hwin Hminp. revert i st.
  induction k as [|k IH]; intros i st Hik Hlen Hn; [by exists st|].
  destruct (lookup_lt_is_Some_2 arg i) as [v Hv]; [lia|].
  cbn [for_range]. rewrite roll_median_tail_eq, (get_Ok _ _ _ Hv). simpl.
  assert (Hrm : ∃ (sl' : skiplist) nobs',
    (if win - 1 <? Z.of_nat i
     then prev ← get arg (Z.of_nat i - win);
          (if not_nan prev
           then Ok (skiplist_remove (rm_sl st) prev, rm_nobs st - 1)
           else Ok (rm_sl st, rm_nobs st))
     else Ok (rm_sl st, rm_nobs st)) = Ok (sl', nobs') ∧
    nobs' ≤ Z.of_nat (length sl')).
  { destruct (Z.ltb_spec (win - 1) (Z.of_nat i)) as [Hlt|Hge].
    - destruct (lookup_lt_is_Some_2 arg (Z.to_nat (Z.of_nat i - win))) as [p Hp];
        [lia|].
      rewrite (get_Ok_Z arg (Z.of_nat i - win) p ltac:(lia) Hp). simpl.
      destruct (not_nan p); eexists _, _; (split; [done|]); [|done].
      pose proof (skiplist_remove_length (rm_sl st) p). lia.
    - eexists _, _; split; done. }
  destruct Hrm as (sl' & nobs' & -> & Hn'). simpl.
  set (sn := if not_nan v then (skiplist_insert sl' v, nobs' + 1) else (sl', nobs')).
  assert (Hsn : sn.2 ≤ Z.of_nat (length sn.1)).
  { subst sn. destruct (not_nan v); simpl; rewrite ?skiplist_insert_length; lia. }
  destruct sn as [sl'' nobs'']. simpl in Hsn.
  assert (Hr : ∃ r,
    (if minp <=? nobs''
     then if negb (nobs'' `mod` 2 =? 0) then skiplist_get sl'' (nobs'' `div` 2)
          else a ← skiplist_get sl'' (nobs'' `div` 2);
               b ← skiplist_get sl'' (nobs'' `div` 2 - 1);
               Ok ((a + b) / 2)%float
     else Ok nan) = Ok r).
  { destruct (Z.leb_spec minp nobs'') as [Hge|_]; [|by eexists].
    assert (0 ≤ nobs'' `div` 2 < nobs'') by (split; [apply Z.div_pos|apply Z.div_lt]; lia).
    destruct (Z.eqb_spec (nobs'' `mod` 2) 0) as [Hev|_]; simpl.
    - assert (1 ≤ nobs'' `div` 2).
      { rewrite (Z.div_mod nobs'' 2) in Hge by lia. lia. }
      destruct (skiplist_get_Ok sl'' (nobs'' `div` 2)) as [a ->]; [lia|].
      destruct (skiplist_get_Ok sl'' (nobs'' `div` 2 - 1)) as [b ->]; [lia|].
      by eexists.
    - destruct (skiplist_get_Ok sl'' (nobs'' `div` 2)) as [a ->]; [lia|].
      by eexists. }
  destruct Hr as [r ->]. simpl.
  rewrite set_Ok by lia. simpl.
  replace (Z.of_nat i + 1) with (Z.of_nat (S i)) by lia.
  apply IH; simpl; rewrite ?length_insert; lia.
Qed.

Lemma check_minp_clamped (minp N : Z) : N < minp → _check_minp minp N = Ok (N + 1).
Proof. intros Hm. unfold _check_minp. by destruct (Z.ltb_spec N minp); [|lia]. Qed.

Lemma check_minp_kept (minp N : Z) :
  0 < minp ≤ N → _check_minp minp N = Ok minp.
Proof.
  intros Hm. unfold _check_minp.
  destruct (Z.ltb_spec N minp); [lia|].
  destruct (Z.eqb_spec minp 0); [lia|].
  by destruct (Z.ltb_spec minp 0); [lia|].
Qed.

Lemma as_int_Ok (z : Z) : - 2 ^ 31 ≤ z < 2 ^ 31 → as_int z = Ok z.
Proof.
  intros Hz. unfold as_int.
  destruct (Z.leb_spec (- 2 ^ 31) z); [|lia].
  by destruct (Z.ltb_spec z (2 ^ 31)); [|lia].
Qed.

Lemma as_int_Err (z : Z) :
  ¬ (- 2 ^ 31 ≤ z < 2 ^ 31) → as_int z = Err OverflowError.
Proof.
  intros Hz. unfold as_int.
  destruct (Z.leb_spec (- 2 ^ 31) z); [|done].
  by destruct (Z.ltb_spec z (2 ^ 31)); [lia|].
Qed.

(** The threshold that [_check_minp] returns for a C [int] fits a C [int]
    again. *)
Lemma check_minp_fits (minp N minp' : Z) :
  0 ≤ N → - 2 ^ 31 ≤ minp < 2 ^ 31 → _check_minp minp N = Ok minp' →
  - 2 ^ 31 ≤ minp' < 2 ^ 31.
Proof.
  unfold _check_minp. intros HN Hm.
  destruct (Z.ltb_spec N minp); [intros [= <-]; lia|].
  destruct (Z.eqb_spec minp 0); [intros [= <-]; lia|].
  destruct (Z.ltb_spec minp 0); [done|].
  intros [= <-]; lia.
Qed.

(** A window width or a threshold outside the C [int] range is refused
    by the call itself. *)
Lemma roll_median_int_arguments (junk : nat → float) (arg : list float)
    (win minp : Z) :
  ¬ (- 2 ^ 31 ≤ win < 2 ^ 31) ∨ ¬ (- 2 ^ 31 ≤ minp < 2 ^ 31) →
  roll_median junk arg win minp = Err OverflowError.
Proof.
  intros Hout. unfold roll_median.
  destruct (decide (- 2 ^ 31 ≤ win < 2 ^ 31)) as [Hw|Hw].
  - rewrite (as_int_Ok win Hw). cbn [mbind res_bind].
    destruct Hout as [?|Hm]; [done|]. by rewrite (as_int_Err minp Hm).
  - by rewrite (as_int_Err win Hw).
Qed.

(** Inside the C [int] range, [roll_median] is its two loops run with the
    threshold that [_check_minp] returns. *)
Lemma roll_median_loops (junk : nat → float) (arg : list float)
    (win minp minp' : Z) :
  - 2 ^ 31 ≤ win < 2 ^ 31 → - 2 ^ 31 ≤ minp < 2 ^ 31 →
  _check_minp minp (Z.of_nat (length arg)) = Ok minp' →
  roll_median junk arg win minp =
  (st ← for_range (roll_median_head arg) (Z.to_nat (minp' - 1)) 0
         (RmState (skiplist_init win) 0 (np_empty junk (length arg)));
   st ← for_range (roll_median_tail arg win minp')
         (Z.to_nat (Z.of_nat (length arg) - (minp' - 1))) (minp' - 1) st;
   Ok (rm_output st)).
Proof.
  intros Hw Hm Hck. unfold roll_median.
  rewrite (as_int_Ok win Hw). cbn [mbind res_bind].
  rewrite (as_int_Ok minp Hm). cbn [mbind res_bind].
  rewrite Hck. cbn [mbind res_bind].
  rewrite (as_int_Ok minp')
    by (eapply check_minp_fits; [apply Nat2Z.is_nonneg|exact Hm|exact Hck]).
  done.
Qed.

(** With a threshold above the window width, [roll_median] stores NaN at
    every position. *)
Lemma roll_median_wide_threshold (junk : nat → float) (arg : list float)
    (win minp minp' : Z) :
  1 ≤ win < 2 ^ 31 → - 2 ^ 31 ≤ minp < 2 ^ 31 →
  _check_minp minp (Z.of_nat (length arg)) = Ok minp' → win < minp' →
  roll_median junk arg win minp = Ok (replicate (length arg) nan).
Proof.
  intros Hwin Hmr Hck Hlt.
  pose proof (check_minp_range _ _ _ (Nat2Z.is_nonneg _) Hck) as Hr.
  rewrite (roll_median_loops junk arg win minp minp') by (done || lia).
  set (m := Z.to_nat (minp' - 1)).
  destruct (head_range_nan arg m 0
              (RmState (skiplist_init win) 0 (np_empty junk (length arg))))
    as (st1 & Hst1 & Hn1 & Ho1); [lia|simpl; by rewrite np_empty_length|].
  change (Z.of_nat 0) with 0 in Hst1. rewrite Hst1. cbn [mbind res_bind].
  replace (minp' - 1) with (Z.of_nat m) by lia.
  replace (Z.to_nat (Z.of_nat (length arg) - Z.of_nat m)) with (length arg - m)%nat by lia.
  assert (Hlen1 : length (rm_output st1) = length arg).
  { rewrite Ho1. simpl. rewrite length_app, length_replicate, length_drop, np_empty_length. lia. }
  destruct (tail_range_nan arg win minp' (Z.to_nat win) (length arg - m) m
              (live (take (m - Z.to_nat win) arg)) st1)
    as (st2 & -> & Ho2); try lia; cbn [mbind res_bind].
  - rewrite Hn1. simpl. rewrite drop_0. unfold window_at.
    rewrite <- (take_drop (m - Z.to_nat win) (take m arg)) at 1.
    rewrite live_app, take_take.
    by rewrite Nat.min_l by lia.
  - pose proof (live_bounds (take (m - Z.to_nat win) arg)) as Hb.
    rewrite length_take in Hb. lia.
  - f_equal. rewrite Ho2, Ho1. simpl.
    rewrite take_app_length' by (by rewrite length_replicate).
    rewrite <- replicate_add. f_equal. lia.
Qed.

(** With a threshold above the window width, the rule yields NaN at every
    position. *)
Lemma median_rule_wide_threshold (arg : list float) (w minp : Z) :
  1 ≤ w → w < minp →
  median_rule arg w minp = Ok (replicate (length arg) nan).
Proof.
  intros Hw Hlt. unfold median_rule.
  pose proof (tail_refines_rule arg w minp (length arg) 0 [] 0
                (replicate (length arg) nan) eq_refl
                (length_replicate _ _)) as Href.
  rewrite drop_0, take_0 in Href. simpl in Href.
  destruct (tail_range_nan arg w minp (Z.to_nat w) (length arg) 0 0
              (RmState [] 0 (replicate (length arg) nan)))
    as (st' & Hst' & Ho); simpl; rewrite ?length_replicate; try lia; try done.
  simpl in Hst'. rewrite Hst' in Href. simpl in Href.
  rewrite Ho in Href. simpl in Href.
  change (Z.of_nat 0) with 0 in Href.
  match type of Href with
  | _ = ?m ≫= _ => change (m = Ok (replicate (length arg) nan)); destruct m
  end; simpl in Href; congruence.
Qed.

(** When the first loop ends before the window is full, [roll_median] is
    its second loop run over every position. *)
Lemma roll_median_as_tail (junk : nat → float) (arg : list float)
    (win minp minp' : Z) :
  - 2 ^ 31 ≤ win < 2 ^ 31 → - 2 ^ 31 ≤ minp < 2 ^ 31 →
  _check_minp minp (Z.of_nat (length arg)) = Ok minp' → minp' - 1 ≤ win →
  roll_median junk arg win minp =
  (st ← for_range (roll_median_tail arg win minp') (length arg) 0
         (RmState [] 0 (np_empty junk (length arg)));
   Ok (rm_output st)).
Proof.
  intros Hwr Hmr Hck Hle.
  pose proof (check_minp_range _ _ _ (Nat2Z.is_nonneg _) Hck) as Hr.
  rewrite (roll_median_loops junk arg win minp minp') by done.
  set (m := Z.to_nat (minp' - 1)).
  replace (Z.to_nat (Z.of_nat (length arg) - (minp' - 1)))
    with (length arg - m)%nat by lia.
  pose proof (for_range_app (roll_median_tail arg win minp') m (length arg - m) 0
                (RmState [] 0 (np_empty junk (length arg)))) as Happ.
  replace (m + (length arg - m))%nat with (length arg) in Happ by lia.
  rewrite Happ.
  rewrite (head_range_is_tail arg win minp') by (simpl; lia).
  replace (0 + Z.of_nat m) with (minp' - 1) by lia.
  unfold skiplist_init.
  by destruct (for_range (roll_median_tail arg win minp') m 0 _).
Qed.

(** C3: for a window width [win >= 1] and a threshold [minp] that fit the
    C [int] of their declaration, and the threshold [minp'] that
    [_check_minp] returns, [roll_median] computes exactly the outputs of the
    rule -- at each position, remove the value [win] positions back if it is
    not NaN, insert the incoming value if it is not NaN, and emit the median
    of the skip list when the counter reaches the threshold, NaN otherwise --
    and it returns one output per input position.  In particular window 3 and
    threshold 2 over [1, NaN, 3, 5, 2] give [NaN, NaN, 2, 4, 3]. *)
Theorem roll_median_follows_rule (junk : nat → float) (arg : list float)
    (win minp minp' : Z) :
  1 ≤ win < 2 ^ 31 → - 2 ^ 31 ≤ minp < 2 ^ 31 →
  _check_minp minp (Z.of_nat (length arg)) = Ok minp' →
  roll_median junk arg win minp = median_rule arg win minp' ∧
  (∃ output, roll_median junk arg win minp = Ok output ∧
             length output = length arg) ∧
  roll_median junk [1; nan; 3; 5; 2]%float 3 2 = Ok [nan; nan; 2; 4; 3]%float.
Proof.
  intros Hwin Hmr Hck.
  assert (Hwr : - 2 ^ 31 ≤ win < 2 ^ 31) by lia.
  pose proof (check_minp_range _ _ _ (Nat2Z.is_nonneg _) Hck) as Hr.
  split; [|split; [|reflexivity]].
  - destruct (Z.le_gt_cases (minp' - 1) win) as [Hle|Hgt].
    + rewrite (roll_median_as_tail junk arg win minp minp' Hwr Hmr Hck Hle).
      pose proof (tail_refines_rule arg win minp' (length arg) 0 [] 0
                    (np_empty junk (length arg)) eq_refl
                    (np_empty_length _ _)) as Href.
      rewrite drop_0, take_0 in Href. change (Z.of_nat 0) with 0 in Href.
      rewrite Href. unfold median_rule.
      by destruct (median_rule_from arg win minp' arg 0 _).
    + rewrite (roll_median_wide_threshold junk arg win minp minp') by (done || lia).
      by rewrite median_rule_wide_threshold by lia.
  - destruct (Z.le_gt_cases (minp' - 1) win) as [Hle|Hgt].
    + rewrite (roll_median_as_tail junk arg win minp minp' Hwr Hmr Hck Hle).
      destruct (tail_range_Ok arg win minp' (length arg) 0
                  (RmState [] 0 (np_empty junk (length arg))))
        as (st' & Hst' & Hlen); simpl; rewrite ?np_empty_length; try (done || lia).
      change (Z.of_nat 0) with 0 in Hst'. rewrite Hst'. by exists (rm_output st').
    + rewrite (roll_median_wide_threshold junk arg win minp minp') by (done || lia).
      eexists. split; [done|]. by rewrite length_replicate.
Qed.

Lemma roll_median_follows_rule_witness :
  roll_median (λ _, 0%float) [1; nan; 3; 5; 2]%float 3 2 =
  median_rule [1; nan; 3; 5; 2]%float 3 2.
Proof.
  apply (roll_median_follows_rule (λ _, 0%float) [1; nan; 3; 5; 2]%float 3 2 2).
  - lia.
  - lia.
  - reflexivity.
Defined.

(** C2, as stated, fails: the threshold [roll_median] works with is
    [_check_minp(minp, N)] for [N = len(arg)], so with ten inputs and
    window 3 a threshold of 5 stays 5 and is not capped to 4. *)
Lemma minp_not_capped_at_window :
  ¬ (∀ (arg : list float) (win minp : Z),
       win < minp →
       _check_minp minp (Z.of_nat (length arg)) = Ok (win + 1)).
Proof.
  intros Hcap.
  specialize (Hcap (replicate 10 0%float) 3 5 ltac:(lia)).
  vm_compute in Hcap. discriminate Hcap.
Qed.

(** C2, amended: for a window width [win >= 1] and a threshold [minp]
    that fit the C [int] of their declaration, [roll_median] clamps [minp]
    against the input length [N = len(arg)]: a [minp] greater than [N]
    becomes [N + 1], a zero [minp] becomes 1, a negative one raises
    [ValueError] and any other is kept; and whenever [minp] exceeds the
    window width no position satisfies the threshold: every output is
    NaN. *)
Theorem check_minp_clamps (junk : nat → float) (arg : list float) (win minp : Z) :
  1 ≤ win < 2 ^ 31 → - 2 ^ 31 ≤ minp < 2 ^ 31 →
  let N := Z.of_nat (length arg) in
  (N < minp → _check_minp minp N = Ok (N + 1)) ∧
  (minp = 0 → _check_minp minp N = Ok 1) ∧
  (minp < 0 → _check_minp minp N = Err ValueError ∧
              roll_median junk arg win minp = Err ValueError) ∧
  (0 < minp ≤ N → _check_minp minp N = Ok minp) ∧
  (win < minp → roll_median junk arg win minp = Ok (replicate (length arg) nan)).
Proof.
  intros Hwin Hmr N. repeat split.
  - apply check_minp_clamped.
  - intros ->. unfold _check_minp.
    by destruct (Z.ltb_spec N 0); [lia|].
  - unfold _check_minp.
    destruct (Z.ltb_spec N minp); [lia|].
    destruct (Z.eqb_spec minp 0); [lia|].
    by destruct (Z.ltb_spec minp 0); [|lia].
  - unfold roll_median.
    rewrite (as_int_Ok win) by lia. cbn [mbind res_bind].
    rewrite (as_int_Ok minp) by lia. cbn [mbind res_bind].
    unfold _check_minp. fold N.
    destruct (Z.ltb_spec N minp); [lia|].
    destruct (Z.eqb_spec minp 0); [lia|].
    by destruct (Z.ltb_spec minp 0); [|lia].
  - apply check_minp_kept.
  - intros Hlt. destruct (Z.lt_ge_cases N minp) as [Hbig|Hsmall].
    + rewrite (roll_median_loops junk arg win minp (N + 1))
        by (lia || by apply check_minp_clamped).
      fold N. replace (N + 1 - 1) with N by lia.
      replace (Z.to_nat (N - N)) with 0%nat by lia.
      destruct (head_range_nan arg (Z.to_nat N) 0
                  (RmState (skiplist_init win) 0 (np_empty junk (length arg))))
        as (st1 & Hst1 & _ & Ho1); [lia|simpl; by rewrite np_empty_length|].
      change (Z.of_nat 0) with 0 in Hst1. rewrite Hst1. simpl.
      rewrite Ho1. simpl. rewrite drop_ge by (rewrite np_empty_length; lia).
      rewrite app_nil_r. do 2 f_equal. lia.
    + apply (roll_median_wide_threshold junk arg win minp minp);
        [done|done| |done].
      apply check_minp_kept. lia.
Qed.

Lemma check_minp_clamps_witness :
  _check_minp 0 5 = Ok 1 ∧
  roll_median (λ _, 0%float) [1; nan; 3; 5; 2]%float 3 4 =
    Ok (replicate 5 nan).
Proof.
  pose proof (check_minp_clamps (λ _, 0%float) [1; nan; 3; 5; 2]%float 3 4
                ltac:(lia) ltac:(lia)) as (_ & _ & _ & _ & Hnan).
  pose proof (check_minp_clamps (λ _, 0%float) [1; nan; 3; 5; 2]%float 3 0
                ltac:(lia) ltac:(lia)) as (_ & Hzero & _).
  split.
  - apply Hzero. reflexivity.
  - apply Hnan. lia.
Defined.

(** ** Group aggregation *)

Lemma pass_as_fold {St} (step : Z → float → St → res St) (labels : list Z)
    (values : list float) (i : nat) (st : St) :
  (length values ≤ length (drop i labels))%nat →
  pass (λ j val st, lab ← get labels j; step lab val st) values (Z.of_nat i) st =
  fold_pairs step (zip (drop i labels) values) st.
Proof.
  revert i st. induction values as [|v values IH]; intros i st Hlen.
  - by destruct (drop i labels).
  - destruct (lookup_lt_is_Some_2 labels i) as [lab Hlab].
    { rewrite length_drop in Hlen. simpl in Hlen. lia. }
    rewrite (drop_S _ _ _ Hlab). cbn [pass zip zip_with fold_pairs].
    rewrite (get_Ok _ _ _ Hlab). cbn [mbind res_bind].
    destruct (step lab v st) as [st'|e]; [|done]. cbn [mbind res_bind].
    replace (Z.of_nat i + 1) with (Z.of_nat (S i)) by lia.
    apply IH. rewrite (drop_S _ _ _ Hlab) in Hlen. simpl in Hlen. lia.
Qed.

Lemma incr_at_Ok (arr : list Z) (lab c : Z) :
  0 ≤ lab → arr !! Z.to_nat lab = Some c →
  incr_at arr lab = Ok (<[Z.to_nat lab := wrap32 (c + 1)]> arr).
Proof.
  intros Hlab Hc. unfold incr_at.
  rewrite (get_Ok_Z _ _ _ Hlab Hc). cbn [mbind res_bind].
  apply set_Ok_Z. apply lookup_lt_Some in Hc. lia.
Qed.

Lemma add_at_Ok (arr : list float) (lab : Z) (a x : float) :
  0 ≤ lab → arr !! Z.to_nat lab = Some a →
  add_at arr lab x = Ok (<[Z.to_nat lab := (a + x)%float]> arr).
Proof.
  intros Hlab Ha. unfold add_at.
  rewrite (get_Ok_Z _ _ _ Hlab Ha). cbn [mbind res_bind].
  apply set_Ok_Z. apply lookup_lt_Some in Ha. lia.
Qed.

(** Folding [f] over the values of group [g]: a pair labelled [g] adds
    its value, any other pair adds nothing. *)
Lemma group_members_cons (g lab : Z) (val : float) (labels : list Z)
    (values : list float) :
  group_members g (lab :: labels) (val :: values) =
  if decide (lab = g) then val :: group_members g labels values
  else group_members g labels values.
Proof.
  unfold group_members. cbn [zip zip_with]. rewrite filter_cons. simpl.
  by destruct (decide (lab = g)).
Qed.

Lemma group_obs_cons (g lab : Z) (val : float) (labels : list Z)
    (values : list float) :
  group_obs g (lab :: labels) (val :: values) =
  if decide (lab = g) then
    if not_nan val then val :: group_obs g labels values
    else group_obs g labels values
  else group_obs g labels values.
Proof.
  unfold group_obs. cbn [zip zip_with]. rewrite filter_cons. simpl.
  destruct (decide (lab = g)) as [->|Hne].
  - destruct (not_nan val) eqn:E.
    + by rewrite decide_True by done.
    + by rewrite decide_False by (intros [_ ?]; done).
  - by rewrite decide_False by (intros [? _]; done).
Qed.

Lemma incr_times_S (k : nat) (c : Z) :
  incr_times (S k) c = incr_times k (wrap32 (c + 1)).
Proof. unfold incr_times. by rewrite Nat.iter_succ_r. Qed.

(** A cell read after a store: the stored value at the index written, the
    old value elsewhere. *)
Lemma lookup_after_store {A} (arr : list A) (i g : nat) (x a : A) :
  arr !! i = Some a →
  <[i := x]> arr !! g = if decide (i = g) then Some x else arr !! g.
Proof.
  intros Ha. destruct (decide (i = g)) as [->|Hne].
  - apply list_lookup_insert_eq. by apply lookup_lt_Some in Ha.
  - by apply list_lookup_insert_ne.
Qed.

Lemma moments_step_eq (lab : Z) (val : float) (st : moments) :
  moments_step lab val st =
  if lab <? 0 then Ok st
  else
    counts ← incr_at (m_counts st) lab;
    if not_nan val then
      nobs ← add_at (m_nobs st) lab 1;
      sumx ← add_at (m_sumx st) lab val;
      sumxx ← add_at (m_sumxx st) lab (val * val);
      Ok (Moments counts nobs sumx sumxx)
    else Ok (Moments counts (m_nobs st) (m_sumx st) (m_sumxx st)).
Proof. reflexivity. Qed.

Lemma sums_step_eq (lab : Z) (val : float) (st : sums) :
  sums_step lab val st =
  if lab <? 0 then Ok st
  else
    counts ← incr_at (s_counts st) lab;
    if not_nan val then
      nobs ← add_at (s_nobs st) lab 1;
      sumx ← add_at (s_sumx st) lab val;
      Ok (Sums counts nobs sumx)
    else Ok (Sums counts (s_nobs st) (s_sumx st)).
Proof. reflexivity. Qed.

(** What the pass of [group_var] leaves in each cell: [counts[g]] is
    incremented once per element labelled [g], and the float accumulators
    fold the non-NaN values labelled [g] in input order. *)
Lemma moments_fold_spec (labels : list Z) (values : list float) (st : moments) :
  length labels = length values →
  Forall (λ l, l < Z.of_nat (length (m_counts st))) labels →
  (length (m_counts st) ≤ length (m_nobs st))%nat →
  length (m_sumx st) = length (m_nobs st) →
  length (m_sumxx st) = length (m_nobs st) →
  ∃ st', fold_pairs moments_step (zip labels values) st = Ok st' ∧
    length (m_counts st') = length (m_counts st) ∧
    length (m_nobs st') = length (m_nobs st) ∧
    ∀ g : nat,
      (∀ c, m_counts st !! g = Some c →
         m_counts st' !! g =
           Some (incr_times (length (group_members (Z.of_nat g) labels values)) c)) ∧
      (∀ a, m_nobs st !! g = Some a →
         m_nobs st' !! g =
           Some (foldl (λ a _, (a + 1)%float) a
                   (group_obs (Z.of_nat g) labels values))) ∧
      (∀ a, m_sumx st !! g = Some a →
         m_sumx st' !! g =
           Some (foldl (λ a v, (a + v)%float) a
                   (group_obs (Z.of_nat g) labels values))) ∧
      (∀ a, m_sumxx st !! g = Some a →
         m_sumxx st' !! g =
           Some (foldl (λ a v, (a + v * v)%float) a
                   (group_obs (Z.of_nat g) labels values))).
Proof.
  revert values st.
  induction labels as [|lab labels IH]; intros [|val values] st Hlen Hin Hc Hx Hxx;
    try done.
  { exists st. repeat split; intros; done. }
  apply Forall_cons in Hin as [Hlab Hin]. simpl in Hlen.
  cbn [zip zip_with fold_pairs]. rewrite moments_step_eq.
  destruct (Z.ltb_spec lab 0) as [Hneg|Hpos]; cbn [mbind res_bind].
  - destruct (IH values st) as (st' & -> & Hl1 & Hl2 & Hg); try (done || lia).
    exists st'. repeat split; try done; intros a Ha;
      rewrite ?group_members_cons, ?group_obs_cons;
      (rewrite decide_False by lia); by apply Hg.
  - destruct (lookup_lt_is_Some_2 (m_counts st) (Z.to_nat lab)) as [c0 Hc0]; [lia|].
    destruct (lookup_lt_is_Some_2 (m_nobs st) (Z.to_nat lab)) as [n0 Hn0]; [lia|].
    destruct (lookup_lt_is_Some_2 (m_sumx st) (Z.to_nat lab)) as [x0 Hx0]; [lia|].
    destruct (lookup_lt_is_Some_2 (m_sumxx st) (Z.to_nat lab)) as [q0 Hq0]; [lia|].
    rewrite (incr_at_Ok _ _ _ Hpos Hc0). cbn [mbind res_bind].
    destruct (not_nan val) eqn:Hnan.
    + rewrite (add_at_Ok _ _ _ _ Hpos Hn0), (add_at_Ok _ _ _ _ Hpos Hx0),
        (add_at_Ok _ _ _ _ Hpos Hq0). cbn [mbind res_bind].
      match goal with |- context [fold_pairs _ _ ?s] =>
        destruct (IH values s) as (st' & -> & Hl1 & Hl2 & Hg);
          cbn [m_counts m_nobs m_sumx m_sumxx];
          rewrite ?length_insert; try (done || lia) end.
      cbn [m_counts m_nobs m_sumx m_sumxx] in Hl1, Hl2.
      rewrite ?length_insert in Hl1. rewrite ?length_insert in Hl2.
      exists st'. split; [done|]. split; [done|]. split; [done|].
      intros g. specialize (Hg g). cbn [m_counts m_nobs m_sumx m_sumxx] in Hg.
      rewrite (lookup_after_store _ _ g _ _ Hc0), (lookup_after_store _ _ g _ _ Hn0),
        (lookup_after_store _ _ g _ _ Hx0), (lookup_after_store _ _ g _ _ Hq0) in Hg.
      destruct Hg as (Hg1 & Hg2 & Hg3 & Hg4).
      rewrite group_members_cons, group_obs_cons, Hnan.
      destruct (decide (Z.to_nat lab = g)) as [<-|Hne].
      * rewrite !decide_True by lia. cbn [length foldl fmap list_fmap].
        repeat split; intros a Ha; simplify_eq; rewrite ?incr_times_S; auto.
      * rewrite !decide_False by lia. repeat split; auto.
    + cbn [mbind res_bind].
      match goal with |- context [fold_pairs _ _ ?s] =>
        destruct (IH values s) as (st' & -> & Hl1 & Hl2 & Hg);
          cbn [m_counts m_nobs m_sumx m_sumxx];
          rewrite ?length_insert; try (done || lia) end.
      cbn [m_counts m_nobs m_sumx m_sumxx] in Hl1, Hl2.
      rewrite ?length_insert in Hl1. rewrite ?length_insert in Hl2.
      exists st'. split; [done|]. split; [done|]. split; [done|].
      intros g. specialize (Hg g). cbn [m_counts m_nobs m_sumx m_sumxx] in Hg.
      rewrite (lookup_after_store _ _ g _ _ Hc0) in Hg.
      destruct Hg as (Hg1 & Hg2 & Hg3 & Hg4).
      rewrite group_members_cons, group_obs_cons, Hnan.
      destruct (decide (Z.to_nat lab = g)) as [<-|Hne].
      * rewrite !decide_True by lia. cbn [length foldl fmap list_fmap].
        repeat split; intros a Ha; simplify_eq; rewrite ?incr_times_S; auto.
      * rewrite !decide_False by lia. repeat split; auto.
Qed.

(** The same for the pass of [group_add] and [group_mean]. *)
Lemma sums_fold_spec (labels : list Z) (values : list float) (st : sums) :
  length labels = length values →
  Forall (λ l, l < Z.of_nat (length (s_counts st))) labels →
  (length (s_counts st) ≤ length (s_nobs st))%nat →
  length (s_sumx st) = length (s_nobs st) →
  ∃ st', fold_pairs sums_step (zip labels values) st = Ok st' ∧
    length (s_counts st') = length (s_counts st) ∧
    length (s_nobs st') = length (s_nobs st) ∧
    ∀ g : nat,
      (∀ c, s_counts st !! g = Some c →
         s_counts st' !! g =
           Some (incr_times (length (group_members (Z.of_nat g) labels values)) c)) ∧
      (∀ a, s_nobs st !! g = Some a →
         s_nobs st' !! g =
           Some (foldl (λ a _, (a + 1)%float) a
                   (group_obs (Z.of_nat g) labels values))) ∧
      (∀ a, s_sumx st !! g = Some a →
         s_sumx st' !! g =
           Some (foldl (λ a v, (a + v)%float) a
                   (group_obs (Z.of_nat g) labels values))).
Proof.
  revert values st.
  induction labels as [|lab labels IH]; intros [|val values] st Hlen Hin Hc Hx;
    try done.
  { exists st. repeat split; intros; done. }
  apply Forall_cons in Hin as [Hlab Hin]. simpl in Hlen.
  cbn [zip zip_with fold_pairs]. rewrite sums_step_eq.
  destruct (Z.ltb_spec lab 0) as [Hneg|Hpos]; cbn [mbind res_bind].
  - destruct (IH values st) as (st' & -> & Hl1 & Hl2 & Hg); try (done || lia).
    exists st'. repeat split; try done; intros a Ha;
      rewrite ?group_members_cons, ?group_obs_cons;
      (rewrite decide_False by lia); by apply Hg.
  - destruct (lookup_lt_is_Some_2 (s_counts st) (Z.to_nat lab)) as [c0 Hc0]; [lia|].
    destruct (lookup_lt_is_Some_2 (s_nobs st) (Z.to_nat lab)) as [n0 Hn0]; [lia|].
    destruct (lookup_lt_is_Some_2 (s_sumx st) (Z.to_nat lab)) as [x0 Hx0]; [lia|].
    rewrite (incr_at_Ok _ _ _ Hpos Hc0). cbn [mbind res_bind].
    destruct (not_nan val) eqn:Hnan.
    + rewrite (add_at_Ok _ _ _ _ Hpos Hn0), (add_at_Ok _ _ _ _ Hpos Hx0).
      cbn [mbind res_bind].
      match goal with |- context [fold_pairs _ _ ?s] =>
        destruct (IH values s) as (st' & -> & Hl1 & Hl2 & Hg);
          cbn [s_counts s_nobs s_sumx];
          rewrite ?length_insert; try (done || lia) end.
      cbn [s_counts s_nobs s_sumx] in Hl1, Hl2.
      rewrite ?length_insert in Hl1. rewrite ?length_insert in Hl2.
      exists st'. split; [done|]. split; [done|]. split; [done|].
      intros g. specialize (Hg g). cbn [s_counts s_nobs s_sumx] in Hg.
      rewrite (lookup_after_store _ _ g _ _ Hc0), (lookup_after_store _ _ g _ _ Hn0),
        (lookup_after_store _ _ g _ _ Hx0) in Hg.
      destruct Hg as (Hg1 & Hg2 & Hg3).
      rewrite group_members_cons, group_obs_cons, Hnan.
      destruct (decide (Z.to_nat lab = g)) as [<-|Hne].
      * rewrite !decide_True by lia. cbn [length foldl fmap list_fmap].
        repeat split; intros a Ha; simplify_eq; rewrite ?incr_times_S; auto.
      * rewrite !decide_False by lia. repeat split; auto.
    + cbn [mbind res_bind].
      match goal with |- context [fold_pairs _ _ ?s] =>
        destruct (IH values s) as (st' & -> & Hl1 & Hl2 & Hg);
          cbn [s_counts s_nobs s_sumx];
          rewrite ?length_insert; try (done || lia) end.
      cbn [s_counts s_nobs s_sumx] in Hl1, Hl2.
      rewrite ?length_insert in Hl1. rewrite ?length_insert in Hl2.
      exists st'. split; [done|]. split; [done|]. split; [done|].
      intros g. specialize (Hg g). cbn [s_counts s_nobs s_sumx] in Hg.
      rewrite (lookup_after_store _ _ g _ _ Hc0) in Hg.
      destruct Hg as (Hg1 & Hg2 & Hg3).
      rewrite group_members_cons, group_obs_cons, Hnan.
      destruct (decide (Z.to_nat lab = g)) as [<-|Hne].
      * rewrite !decide_True by lia. cbn [length foldl fmap list_fmap].
        repeat split; intros a Ha; simplify_eq; rewrite ?incr_times_S; auto.
      * rewrite !decide_False by lia. repeat split; auto.
Qed.

Lemma incr_times_no_wrap (k : nat) (c : Z) :
  - 2 ^ 31 ≤ c → c + Z.of_nat k < 2 ^ 31 → incr_times k c = c + Z.of_nat k.
Proof.
  revert c. induction k as [|k IH]; intros c Hlo Hhi.
  - unfold incr_times. simpl. lia.
  - rewrite incr_times_S, wrap32_id by lia. rewrite IH by lia. lia.
Qed.

Lemma zeros_like_lookup (out : list float) (g : nat) :
  (g < length out)%nat → zeros_like out !! g = Some 0%float.
Proof. intros Hg. unfold zeros_like. by apply lookup_replicate_2. Qed.

Lemma zeros_like_length (out : list float) :
  length (zeros_like out) = length out.
Proof. unfold zeros_like. apply length_replicate. Qed.

(** The finalizing loop stores [fin i] at each of its positions and leaves
    the others. *)
Lemma finalize_spec (fin : Z → res float) (f : nat → float) (k i : nat)
    (out : list float) :
  (∀ j, (i ≤ j < i + k)%nat → fin (Z.of_nat j) = Ok (f j)) →
  (i + k ≤ length out)%nat →
  ∃ out', finalize fin k (Z.of_nat i) out = Ok out' ∧
          length out' = length out ∧
          (∀ j, (i ≤ j < i + k)%nat → out' !! j = Some (f j)) ∧
          (∀ j, (j < i)%nat → out' !! j = out !! j).
Proof.
  revert i out. induction k as [|k IH]; intros i out Hfin Hlen.
  - exists out. repeat split; intros; (lia || done).
  - cbn [finalize]. rewrite (Hfin i) by lia. cbn [mbind res_bind].
    rewrite set_Ok by lia. cbn [mbind res_bind].
    replace (Z.of_nat i + 1) with (Z.of_nat (S i)) by lia.
    destruct (IH (S i) (<[i := f i]> out)) as (out' & -> & Hl & Hin & Hout).
    { intros j Hj. apply Hfin. lia. }
    { rewrite length_insert. lia. }
    exists out'. rewrite length_insert in Hl. repeat split; [done| |].
    + intros j Hj. destruct (decide (j = i)) as [->|Hne].
      * rewrite Hout by lia. apply list_lookup_insert_eq. lia.
      * apply Hin. lia.
    + intros j Hj. rewrite Hout by lia. apply list_lookup_insert_ne. lia.
Qed.

Lemma pass_group_add (labels : list Z) (values : list float) (st : sums) :
  length labels = length values →
  pass (group_add_body labels) values 0 st =
  fold_pairs sums_step (zip labels values) st.
Proof.
  intros Hlen.
  apply (pass_as_fold sums_step labels values 0 st). rewrite drop_0. lia.
Qed.

Lemma pass_group_mean (labels : list Z) (values : list float) (st : sums) :
  length labels = length values →
  pass (group_mean_body labels) values 0 st =
  fold_pairs sums_step (zip labels values) st.
Proof.
  intros Hlen.
  apply (pass_as_fold sums_step labels values 0 st). rewrite drop_0. lia.
Qed.

Lemma pass_group_var (labels : list Z) (values : list float) (st : moments) :
  length labels = length values →
  pass (group_var_body labels) values 0 st =
  fold_pairs moments_step (zip labels values) st.
Proof.
  intros Hlen.
  apply (pass_as_fold moments_step labels values 0 st). rewrite drop_0. lia.
Qed.

(** The accumulators with which [group_add] and [group_mean] leave their
    pass. *)
Lemma sums_pass_spec (out : list float) (counts : list Z)
    (values : list float) (labels : list Z) :
  length labels = length values →
  Forall (λ l, l < Z.of_nat (length counts)) labels →
  (length counts ≤ length out)%nat →
  ∃ st, fold_pairs sums_step (zip labels values)
          (Sums counts (zeros_like out) (zeros_like out)) = Ok st ∧
    length (s_counts st) = length counts ∧
    length (s_nobs st) = length out ∧
    ∀ (g : nat) (c : Z), counts !! g = Some c →
      s_counts st !! g =
        Some (incr_times (length (group_members (Z.of_nat g) labels values)) c) ∧
      s_nobs st !! g = Some (count_obs (group_obs (Z.of_nat g) labels values)) ∧
      s_sumx st !! g = Some (sum_obs (group_obs (Z.of_nat g) labels values)).
Proof.
  intros Hlen Hin Hout.
  destruct (sums_fold_spec labels values
              (Sums counts (zeros_like out) (zeros_like out)))
    as (st & Hst & Hl1 & Hl2 & Hg); cbn [s_counts s_nobs s_sumx];
    rewrite ?zeros_like_length; try done.
  cbn [s_counts s_nobs s_sumx] in *. rewrite zeros_like_length in Hl2.
  exists st. split; [done|]. split; [done|]. split; [done|].
  intros g c Hc. destruct (Hg g) as (Hg1 & Hg2 & Hg3).
  assert (g < length out)%nat by (apply lookup_lt_Some in Hc; lia).
  split; [by apply Hg1|].
  split; [apply Hg2|apply Hg3]; by apply zeros_like_lookup.
Qed.

(** The accumulators with which [group_var] leaves its pass. *)
Lemma moments_pass_spec (out : list float) (counts : list Z)
    (values : list float) (labels : list Z) :
  length labels = length values →
  Forall (λ l, l < Z.of_nat (length counts)) labels →
  (length counts ≤ length out)%nat →
  ∃ st, fold_pairs moments_step (zip labels values)
          (Moments counts (zeros_like out) (zeros_like out) (zeros_like out))
        = Ok st ∧
    length (m_counts st) = length counts ∧
    length (m_nobs st) = length out ∧
    ∀ (g : nat) (c : Z), counts !! g = Some c →
      m_counts st !! g =
        Some (incr_times (length (group_members (Z.of_nat g) labels values)) c) ∧
      m_nobs st !! g = Some (count_obs (group_obs (Z.of_nat g) labels values)) ∧
      m_sumx st !! g = Some (sum_obs (group_obs (Z.of_nat g) labels values)) ∧
      m_sumxx st !! g = Some (sumsq_obs (group_obs (Z.of_nat g) labels values)).
Proof.
  intros Hlen Hin Hout.
  destruct (moments_fold_spec labels values
              (Moments counts (zeros_like out) (zeros_like out) (zeros_like out)))
    as (st & Hst & Hl1 & Hl2 & Hg); cbn [m_counts m_nobs m_sumx m_sumxx];
    rewrite ?zeros_like_length; try done.
  cbn [m_counts m_nobs m_sumx m_sumxx] in *. rewrite zeros_like_length in Hl2.
  exists st. split; [done|]. split; [done|]. split; [done|].
  intros g c Hc. destruct (Hg g) as (Hg1 & Hg2 & Hg3 & Hg4).
  assert (g < length out)%nat by (apply lookup_lt_Some in Hc; lia).
  split; [by apply Hg1|].
  split; [apply Hg2|split; [apply Hg3|apply Hg4]]; by apply zeros_like_lookup.
Qed.

(** An element with a negative label is a step that changes nothing: the
    pass over all pairs is the pass over those with a label of at least
    zero. *)
Lemma sums_fold_skips (pairs : list (Z * float)) (st : sums) :
  fold_pairs sums_step (filter (λ p, 0 ≤ p.1) pairs) st =
  fold_pairs sums_step pairs st.
Proof.
  revert st. induction pairs as [|[lab val] pairs IH]; intros st; [done|].
  rewrite filter_cons. cbn [fst]. destruct (decide (0 ≤ lab)) as [Hlab|Hlab].
  - cbn [fold_pairs].
    destruct (sums_step lab val st); cbn [mbind res_bind]; [apply IH|done].
  - assert (Hstep : sums_step lab val st = Ok st).
    { unfold sums_step. by destruct (Z.ltb_spec lab 0); [|lia]. }
    cbn [fold_pairs]. rewrite Hstep. cbn [mbind res_bind]. apply IH.
Qed.

Lemma moments_fold_skips (pairs : list (Z * float)) (st : moments) :
  fold_pairs moments_step (filter (λ p, 0 ≤ p.1) pairs) st =
  fold_pairs moments_step pairs st.
Proof.
  revert st. induction pairs as [|[lab val] pairs IH]; intros st; [done|].
  rewrite filter_cons. cbn [fst]. destruct (decide (0 ≤ lab)) as [Hlab|Hlab].
  - cbn [fold_pairs].
    destruct (moments_step lab val st); cbn [mbind res_bind]; [apply IH|done].
  - assert (Hstep : moments_step lab val st = Ok st).
    { unfold moments_step. by destruct (Z.ltb_spec lab 0); [|lia]. }
    cbn [fold_pairs]. rewrite Hstep. cbn [mbind res_bind]. apply IH.
Qed.

(** C5: [group_add], [group_mean] and [group_var] skip every element with
    a negative label entirely: called on the input without these elements
    they return the same result.  The three return the same [counts], the
    array their pass leaves, in which [counts[g]] has been incremented once
    for each element labelled [g], NaN or not; the observation count, the
    sum and the sum of squares that the pass accumulates for [g] fold only
    the non-NaN values labelled [g], and what the functions store in
    [out[g]] is computed from these alone. *)
Theorem group_pass_counts_and_skips (out : list float) (counts : list Z)
    (values : list float) (labels : list Z) :
  length labels = length values →
  Forall (λ l, l < Z.of_nat (length counts)) labels →
  (length counts ≤ length out)%nat →
  let kept := filter (λ p, 0 ≤ p.1) (zip labels values) in
  (group_add out counts kept.*2 kept.*1 = group_add out counts values labels ∧
   group_mean out counts kept.*2 kept.*1 = group_mean out counts values labels ∧
   group_var out counts kept.*2 kept.*1 = group_var out counts values labels) ∧
  ∃ (sa : sums) (sv : moments) counts' out_add out_mean out_var,
    pass (group_add_body labels) values 0
      (Sums counts (zeros_like out) (zeros_like out)) = Ok sa ∧
    pass (group_mean_body labels) values 0
      (Sums counts (zeros_like out) (zeros_like out)) = Ok sa ∧
    pass (group_var_body labels) values 0
      (Moments counts (zeros_like out) (zeros_like out) (zeros_like out)) = Ok sv ∧
    s_counts sa = counts' ∧ m_counts sv = counts' ∧
    group_add out counts values labels = Ok (out_add, counts') ∧
    group_mean out counts values labels = Ok (out_mean, counts') ∧
    group_var out counts values labels = Ok (out_var, counts') ∧
    length counts' = length counts ∧
    ∀ (g : nat) (c : Z), counts !! g = Some c →
      let members := group_members (Z.of_nat g) labels values in
      let obs := group_obs (Z.of_nat g) labels values in
      let n := count_obs obs in
      counts' !! g = Some (incr_times (length members) c) ∧
      (- 2 ^ 31 ≤ c → c + Z.of_nat (length members) < 2 ^ 31 →
       counts' !! g = Some (c + Z.of_nat (length members))) ∧
      s_nobs sa !! g = Some n ∧
      s_sumx sa !! g = Some (sum_obs obs) ∧
      m_nobs sv !! g = Some n ∧
      m_sumx sv !! g = Some (sum_obs obs) ∧
      m_sumxx sv !! g = Some (sumsq_obs obs) ∧
      out_add !! g = Some (if PrimFloat.eqb n 0 then nan else sum_obs obs) ∧
      out_mean !! g =
        Some (if PrimFloat.eqb n 0 then nan else (sum_obs obs / n)%float) ∧
      out_var !! g =
        Some (if PrimFloat.ltb n 2 then nan
              else ((n * sumsq_obs obs - sum_obs obs * sum_obs obs) /
                    (n * n - n))%float).
Proof.
  intros Hlen Hin Hout kept. split.
  - assert (Hk : length kept.*1 = length kept.*2) by (by rewrite !length_fmap).
    split; [|split].
    + unfold group_add. rewrite !pass_group_add by done.
      rewrite zip_fst_snd. unfold kept. by rewrite sums_fold_skips.
    + unfold group_mean. rewrite !pass_group_mean by done.
      rewrite zip_fst_snd. unfold kept. by rewrite sums_fold_skips.
    + unfold group_var. rewrite !pass_group_var by done.
      rewrite zip_fst_snd. unfold kept. by rewrite moments_fold_skips.
  - destruct (sums_pass_spec out counts values labels Hlen Hin Hout)
      as (sa & Hsa & Hla & Hna & Hga).
    destruct (moments_pass_spec out counts values labels Hlen Hin Hout)
      as (sv & Hsv & Hlv & Hnv & Hgv).
    assert (Hcounts : m_counts sv = s_counts sa).
    { apply list_eq. intros g.
      destruct (counts !! g) as [c|] eqn:Hc.
      - destruct (Hga g c Hc) as (-> & _). by destruct (Hgv g c Hc) as (-> & _).
      - apply lookup_ge_None in Hc.
        rewrite (lookup_ge_None_2 (m_counts sv)) by lia.
        by rewrite (lookup_ge_None_2 (s_counts sa)) by lia. }
    destruct (finalize_spec (group_add_fin sa)
                (λ g, let obs := group_obs (Z.of_nat g) labels values in
                      if PrimFloat.eqb (count_obs obs) 0 then nan
                      else sum_obs obs)
                (length (s_counts sa)) 0 out) as (oa & Hoa & _ & Hca & _).
    { intros j Hj.
      destruct (lookup_lt_is_Some_2 counts j) as [c Hc]; [lia|].
      destruct (Hga j c Hc) as (_ & Hn & Hx).
      unfold group_add_fin. rewrite (get_Ok _ _ _ Hn). cbn [mbind res_bind].
      destruct (PrimFloat.eqb _ 0); [done|]. by rewrite (get_Ok _ _ _ Hx). }
    { lia. }
    destruct (finalize_spec (group_mean_fin sa)
                (λ g, let obs := group_obs (Z.of_nat g) labels values in
                      if PrimFloat.eqb (count_obs obs) 0 then nan
                      else (sum_obs obs / count_obs obs)%float)
                (length (s_counts sa)) 0 out) as (om & Hom & _ & Hcm & _).
    { intros j Hj.
      destruct (lookup_lt_is_Some_2 counts j) as [c Hc]; [lia|].
      destruct (Hga j c Hc) as (_ & Hn & Hx).
      unfold group_mean_fin. rewrite (get_Ok _ _ _ Hn). cbn [mbind res_bind].
      destruct (PrimFloat.eqb _ 0); [done|]. by rewrite (get_Ok _ _ _ Hx). }
    { lia. }
    destruct (finalize_spec (group_var_fin sv)
                (λ g, let obs := group_obs (Z.of_nat g) labels values in
                      if PrimFloat.ltb (count_obs obs) 2 then nan
                      else ((count_obs obs * sumsq_obs obs
                             - sum_obs obs * sum_obs obs) /
                            (count_obs obs * count_obs obs - count_obs obs))%float)
                (length (m_counts sv)) 0 out) as (ov & Hov & _ & Hcv & _).
    { intros j Hj.
      destruct (lookup_lt_is_Some_2 counts j) as [c Hc]; [lia|].
      destruct (Hgv j c Hc) as (_ & Hn & Hx & Hxx).
      unfold group_var_fin. rewrite (get_Ok _ _ _ Hn). cbn [mbind res_bind].
      destruct (PrimFloat.ltb _ 2); [done|].
      by rewrite (get_Ok _ _ _ Hxx), (get_Ok _ _ _ Hx). }
    { lia. }
    change (Z.of_nat 0) with 0 in Hoa, Hom, Hov.
    exists sa, sv, (s_counts sa), oa, om, ov.
    split; [by rewrite pass_group_add|].
    split; [by rewrite pass_group_mean|].
    split; [by rewrite pass_group_var|].
    split; [done|]. split; [done|].
    split.
    { unfold group_add. rewrite pass_group_add, Hsa by done.
      cbn [mbind res_bind]. by rewrite Hoa. }
    split.
    { unfold group_mean. rewrite pass_group_mean, Hsa by done.
      cbn [mbind res_bind]. by rewrite Hom. }
    split.
    { unfold group_var. rewrite pass_group_var, Hsv by done.
      cbn [mbind res_bind]. by rewrite Hov, Hcounts. }
    split; [done|].
    intros g c Hc members obs n.
    assert (Hg : (g < length counts)%nat) by (by apply lookup_lt_Some in Hc).
    destruct (Hga g c Hc) as (Hcg & Hn & Hx).
    destruct (Hgv g c Hc) as (_ & Hvn & Hvx & Hvxx).
    split; [exact Hcg|]. split.
    { intros Hlo Hhi. rewrite Hcg. f_equal. by apply incr_times_no_wrap. }
    split; [exact Hn|]. split; [exact Hx|].
    split; [exact Hvn|]. split; [exact Hvx|]. split; [exact Hvxx|].
    split; [apply Hca; lia|]. split; [apply Hcm; lia|apply Hcv; lia].
Qed.

Lemma group_pass_counts_and_skips_witness :
  ∃ counts' out_add out_mean out_var,
    group_add [7; 7]%float [0; 0] [1; 2; nan; nan]%float [0; -1; 1; 0]
      = Ok (out_add, counts') ∧
    group_mean [7; 7]%float [0; 0] [1; 2; nan; nan]%float [0; -1; 1; 0]
      = Ok (out_mean, counts') ∧
    group_var [7; 7]%float [0; 0] [1; 2; nan; nan]%float [0; -1; 1; 0]
      = Ok (out_var, counts') ∧
    counts' = [2; 1] ∧ out_add = [1; nan]%float ∧
    group_add [7; 7]%float [0; 0] [1; nan; nan]%float [0; 1; 0]
      = Ok (out_add, counts').
Proof.
  destruct (group_pass_counts_and_skips [7; 7]%float [0; 0]
              [1; 2; nan; nan]%float [0; -1; 1; 0])
    as ((Hkept & _) & sa & sv & counts' & oa & om & ov
        & _ & _ & _ & _ & _ & Ha & Hm & Hv & _).
  - reflexivity.
  - repeat constructor.
  - simpl. lia.
  - exists counts', oa, om, ov.
    split; [exact Ha|]. split; [exact Hm|]. split; [exact Hv|].
    assert (Hres : (oa, counts') = ([1; nan]%float, [2; 1])).
    { vm_compute in Ha. by injection Ha as <- <-. }
    injection Hres as -> ->.
    split; [done|]. split; [done|].
    rewrite <- Ha. exact Hkept.
Defined.

(** *** The float count of the observations

    [nobs] counts in float64.  The specification of the primitive floats
    gives what the finalizing tests need: after one observation the count
    is at least 1, hence not 0, and after two it is at least 2. *)

Lemma digits2_pos_spec (p : positive) :
  2 ^ (Z.pos (digits2_pos p) - 1) ≤ Z.pos p < 2 ^ Z.pos (digits2_pos p).
Proof.
  induction p as [p IH|p IH|]; cbn [digits2_pos].
  - rewrite Pos2Z.inj_succ.
    replace (Z.succ (Z.pos (digits2_pos p)) - 1) with (Z.succ (Z.pos (digits2_pos p) - 1)) by lia.
    rewrite !Z.pow_succ_r by lia. lia.
  - rewrite Pos2Z.inj_succ.
    replace (Z.succ (Z.pos (digits2_pos p)) - 1) with (Z.succ (Z.pos (digits2_pos p) - 1)) by lia.
    rewrite !Z.pow_succ_r by lia. lia.
  - simpl. lia.
Qed.

Lemma shr_1_m (r : shr_record) :
  0 ≤ shr_m r → shr_m (shr_1 r) = shr_m r `div` 2.
Proof.
  destruct r as [m b s]. cbn [shr_m shr_1]. intros Hm.
  destruct m as [|[p|p|]|p]; cbn [shr_m]; try lia.
  - reflexivity.
  - apply (Z.div_unique _ _ _ 1); lia.
  - apply (Z.div_unique _ _ _ 0); lia.
  - reflexivity.
Qed.

Lemma pow2_xI (p : positive) :
  2 ^ Z.pos p~1 = 2 * (2 ^ Z.pos p * 2 ^ Z.pos p).
Proof.
  assert (Z.pos p~1 = Z.pos p + Z.pos p + 1) as -> by lia.
  rewrite !Z.pow_add_r, Z.pow_1_r by lia. lia.
Qed.

Lemma pow2_xO (p : positive) : 2 ^ Z.pos p~0 = 2 ^ Z.pos p * 2 ^ Z.pos p.
Proof.
  assert (Z.pos p~0 = Z.pos p + Z.pos p) as -> by lia.
  by rewrite Z.pow_add_r by lia.
Qed.

Lemma shr_iter_m (p : positive) (r : shr_record) :
  0 ≤ shr_m r → shr_m (SpecFloat.iter_pos shr_1 p r) = shr_m r `div` 2 ^ Z.pos p.
Proof.
  revert r. induction p as [p IH|p IH|]; intros r Hr; cbn [SpecFloat.iter_pos].
  - assert (H1 : 0 ≤ shr_m (shr_1 r)).
    { rewrite shr_1_m by done. apply Z.div_pos; lia. }
    assert (H2 : 0 ≤ shr_m (SpecFloat.iter_pos shr_1 p (shr_1 r))).
    { rewrite IH by done. apply Z.div_pos; lia. }
    rewrite IH, IH, shr_1_m by done.
    rewrite !Z.div_div by lia. by rewrite pow2_xI.
  - assert (H2 : 0 ≤ shr_m (SpecFloat.iter_pos shr_1 p r)).
    { rewrite IH by done. apply Z.div_pos; lia. }
    rewrite IH, IH by done.
    rewrite !Z.div_div by lia. by rewrite pow2_xO.
  - rewrite shr_1_m by done. done.
Qed.

Lemma shr_fexp_exact (m : positive) (e : Z) :
  -1021 ≤ Z.pos (digits2_pos m) + e →
  ∃ mrs e', shr_fexp prec emax (Z.pos m) e loc_Exact = (mrs, e') ∧
            0 < shr_m mrs ∧ e ≤ e' ∧
            (54 ≤ Z.pos (digits2_pos m) → e + 1 ≤ e').
Proof.
  intros Hlo. pose proof (digits2_pos_spec m) as [Hd1 Hd2].
  set (D := Z.pos (digits2_pos m)) in *.
  unfold shr_fexp, fexp, emin, prec, emax, Zdigits2, shr_record_of_loc, shr.
  fold D.
  replace (Z.max (D + e - 53) (3 - 1024 - 53) - e) with (D - 53) by lia.
  destruct (D - 53) as [|p|p] eqn:Hp.
  - eexists _, _. split; [done|]. cbn [shr_m]. lia.
  - eexists _, _. split; [done|].
    rewrite shr_iter_m by (cbn [shr_m]; lia). cbn [shr_m].
    split; [|lia].
    apply Z.div_str_pos. split; [apply Z.pow_pos_nonneg; lia|].
    etrans; [|exact Hd1]. apply Z.pow_le_mono_r; lia.
  - eexists _, _. split; [done|]. cbn [shr_m]. lia.
Qed.

Lemma round_nearest_even_ge (m : Z) (l : location) : m ≤ round_nearest_even m l.
Proof.
  destruct l as [|[]]; cbn [round_nearest_even]; try lia.
  destruct (Z.even m); lia.
Qed.

(** Rounding a mantissa of at least 54 bits at exponent -52. *)
Lemma binary_round_large (M : positive) :
  2 ^ 53 ≤ Z.pos M →
  binary_round prec emax false M (-52) = S754_infinity false ∨
  ∃ m e, binary_round prec emax false M (-52) = S754_finite false m e ∧ -51 ≤ e.
Proof.
  intros HM. pose proof (digits2_pos_spec M) as [Hd1 Hd2].
  assert (HD : 54 ≤ Z.pos (digits2_pos M)).
  { destruct (Z.le_gt_cases 54 (Z.pos (digits2_pos M))) as [?|Hlt]; [done|].
    assert (2 ^ Z.pos (digits2_pos M) ≤ 2 ^ 53) by (apply Z.pow_le_mono_r; lia).
    lia. }
  unfold binary_round, shl_align.
  assert (Hfexp : fexp prec emax (Z.pos (digits2_pos M) + -52) - -52 =
                  Z.pos (digits2_pos M) - 53).
  { unfold fexp, emin, prec, emax. lia. }
  rewrite Hfexp.
  destruct (Z.pos (digits2_pos M) - 53) as [|p|p] eqn:Hp; try lia.
  unfold binary_round_aux.
  destruct (shr_fexp_exact M (-52)) as (mrs1 & e1 & -> & Hm1 & He1 & He1'); [lia|].
  specialize (He1' HD).
  pose proof (round_nearest_even_ge (shr_m mrs1) (loc_of_shr_record mrs1)) as Hr.
  destruct (round_nearest_even (shr_m mrs1) (loc_of_shr_record mrs1))
    as [|q|q] eqn:Hq; try lia.
  destruct (shr_fexp_exact q e1) as (mrs2 & e2 & -> & Hm2 & He2 & _).
  { pose proof (Pos2Z.is_pos (digits2_pos q)). lia. }
  destruct (shr_m mrs2) as [|m2|m2]; try lia.
  destruct (e2 <=? emax - prec)%Z; [right|by left].
  exists m2, e2. split; [done|lia].
Qed.

Lemma valid_mantissa (m : positive) (e : Z) :
  valid_binary (S754_finite false m e) = true → -1074 < e → 2 ^ 52 ≤ Z.pos m.
Proof.
  unfold SpecFloat.valid_binary, bounded, canonical_mantissa, fexp, SpecFloat.emin, prec, emax.
  intros [Hc _]%andb_prop He.
  apply Z.eqb_eq in Hc.
  pose proof (digits2_pos_spec m) as [Hd _].
  replace (Z.pos (digits2_pos m)) with 53 in Hd by lia. done.
Qed.

Lemma iter_xO_ge (m d : positive) : Z.pos m ≤ Z.pos (Pos.iter xO m d).
Proof.
  induction d as [|d IH] using Pos.peano_ind.
  - simpl. lia.
  - rewrite Pos.iter_succ. lia.
Qed.

Lemma SFadd_one (s : spec_float) :
  valid_binary s = true → at_least (-52) s →
  at_least (-51) (SF64add s (S754_finite false 4503599627370496 (-52))).
Proof.
  intros Hvalid [->|(m & e & -> & He)]; [by left|].
  pose proof (valid_mantissa m e Hvalid ltac:(lia)) as Hm.
  unfold SF64add, SFadd. cbv zeta.
  rewrite Z.min_r by lia.
  assert (Halign : ∃ a, shl_align m e (-52) = (a, -52) ∧ Z.pos m ≤ Z.pos a).
  { unfold shl_align. destruct (-52 - e) as [|d|d] eqn:Hd; try lia.
    - exists m. split; [f_equal; lia|lia].
    - eexists. split; [done|]. apply iter_xO_ge. }
  destruct Halign as (a & -> & Ha).
  change (shl_align 4503599627370496 (-52) (-52)) with (4503599627370496%positive, -52).
  cbn [fst cond_Zopp]. change (Z.pos a + Z.pos 4503599627370496) with (Z.pos (a + 4503599627370496)).
  cbn [binary_normalize].
  destruct (binary_round_large (a + 4503599627370496)) as [->|(m' & e' & -> & He')].
  - change (2 ^ 53) with 9007199254740992. change (2 ^ 52) with 4503599627370496 in Hm. lia.
  - by left.
  - right. by exists m', e'.
Qed.

Lemma add_one_at_least (x : float) :
  at_least (-52) (Prim2SF x) → at_least (-51) (Prim2SF (x + 1)).
Proof.
  intros Hx. rewrite FloatAxioms.add_spec.
  change (Prim2SF 1) with (S754_finite false 4503599627370496 (-52)).
  apply SFadd_one; [apply Prim2SF_valid|done].
Qed.

Lemma at_least_not_zero (x : float) :
  at_least (-52) (Prim2SF x) → PrimFloat.eqb x 0 = false.
Proof.
  intros Hx. rewrite FloatAxioms.eqb_spec.
  change (Prim2SF 0) with (S754_zero false).
  destruct Hx as [Hs|(m & e & Hs & _)]; by rewrite Hs.
Qed.

Lemma at_least_not_below_two (x : float) :
  at_least (-51) (Prim2SF x) → PrimFloat.ltb x 2 = false.
Proof.
  intros Hx. rewrite FloatAxioms.ltb_spec.
  change (Prim2SF 2) with (S754_finite false 4503599627370496 (-51)).
  pose proof (Prim2SF_valid x) as Hvalid.
  destruct Hx as [Hs|(m & e & Hs & He)].
  - rewrite Hs. reflexivity.
  - rewrite Hs in Hvalid |- *. unfold SFltb, SFcompare.
    destruct (Z.compare_spec e (-51)) as [->|?|?]; [|lia|reflexivity].
    pose proof (valid_mantissa m (-51) Hvalid ltac:(lia)) as Hm.
    rewrite Pos.compare_cont_spec. cbn [Pos.switch_Eq].
    destruct (Pos.compare_spec m 4503599627370496) as [?|Hlt|?]; try reflexivity.
    apply Pos2Z.pos_lt_pos in Hlt.
    change (Z.pos 4503599627370496) with (2 ^ 52) in Hlt. lia.
Qed.

Lemma count_obs_snoc (l : list float) (v : float) :
  count_obs (l ++ [v]) = (count_obs l + 1)%float.
Proof. unfold count_obs. by rewrite foldl_snoc. Qed.

Lemma at_least_weaken (s : spec_float) : at_least (-51) s → at_least (-52) s.
Proof.
  intros [->|(m & e & -> & He)]; [by left|right].
  exists m, e. split; [done|lia].
Qed.

(** The float count of one or more observations is at least 1, that of
    two or more observations at least 2. *)
Lemma count_obs_at_least (l : list float) :
  l ≠ [] →
  at_least (-52) (Prim2SF (count_obs l)) ∧
  ((2 ≤ length l)%nat → at_least (-51) (Prim2SF (count_obs l))).
Proof.
  induction l as [|v l IH] using rev_ind; [done|]. intros _.
  rewrite count_obs_snoc, length_app. simpl.
  destruct l as [|w l].
  - split; [|simpl; lia].
    right. exists 4503599627370496%positive, (-52). split; [|lia].
    vm_compute. reflexivity.
  - destruct IH as [IH _]; [done|].
    pose proof (add_one_at_least _ IH) as Hnext.
    split; [by apply at_least_weaken|done].
Qed.

(** The value [group_var] stores for a group with observations [obs]. *)
Lemma group_var_output (out : list float) (counts : list Z)
    (values : list float) (labels : list Z) :
  length labels = length values →
  Forall (λ l, l < Z.of_nat (length counts)) labels →
  (length counts ≤ length out)%nat →
  ∃ out' counts',
    group_var out counts values labels = Ok (out', counts') ∧
    ∀ g : nat, (g < length counts)%nat →
      let obs := group_obs (Z.of_nat g) labels values in
      let n := count_obs obs in
      let sx := sum_obs obs in
      let sxx := sumsq_obs obs in
      out' !! g = Some (if PrimFloat.ltb n 2 then nan
                        else ((n * sxx - sx * sx) / (n * n - n))%float).
Proof.
  intros Hlen Hin Hout. unfold group_var.
  rewrite pass_group_var by done.
  destruct (moments_pass_spec out counts values labels Hlen Hin Hout)
    as (st & -> & Hl1 & Hl2 & Hg). cbn [mbind res_bind].
  destruct (finalize_spec (group_var_fin st)
              (λ g, let obs := group_obs (Z.of_nat g) labels values in
                    if PrimFloat.ltb (count_obs obs) 2 then nan
                    else ((count_obs obs * sumsq_obs obs - sum_obs obs * sum_obs obs) /
                          (count_obs obs * count_obs obs - count_obs obs))%float)
              (length (m_counts st)) 0 out) as (out' & Hfin & _ & Hcell & _).
  - intros j Hj.
    destruct (lookup_lt_is_Some_2 counts j) as [c Hc]; [lia|].
    destruct (Hg j c Hc) as (_ & Hn & Hx & Hxx).
    unfold group_var_fin.
    rewrite (get_Ok _ _ _ Hn). cbn [mbind res_bind].
    destruct (PrimFloat.ltb _ 2); [done|].
    by rewrite (get_Ok _ _ _ Hxx), (get_Ok _ _ _ Hx).
  - lia.
  - change (Z.of_nat 0) with 0 in Hfin. rewrite Hfin. cbn [mbind res_bind].
    eexists _, _. split; [done|].
    intros g Hglt. apply Hcell. lia.
Qed.

(** The value [group_mean] stores for a group with observations [obs]. *)
Lemma group_mean_output (out : list float) (counts : list Z)
    (values : list float) (labels : list Z) :
  length labels = length values →
  Forall (λ l, l < Z.of_nat (length counts)) labels →
  (length counts ≤ length out)%nat →
  ∃ out' counts',
    group_mean out counts values labels = Ok (out', counts') ∧
    ∀ g : nat, (g < length counts)%nat →
      let obs := group_obs (Z.of_nat g) labels values in
      out' !! g = Some (if PrimFloat.eqb (count_obs obs) 0 then nan
                        else (sum_obs obs / count_obs obs)%float).
Proof.
  intros Hlen Hin Hout. unfold group_mean.
  rewrite pass_group_mean by done.
  destruct (sums_pass_spec out counts values labels Hlen Hin Hout)
    as (st & -> & Hl1 & Hl2 & Hg). cbn [mbind res_bind].
  destruct (finalize_spec (group_mean_fin st)
              (λ g, let obs := group_obs (Z.of_nat g) labels values in
                    if PrimFloat.eqb (count_obs obs) 0 then nan
                    else (sum_obs obs / count_obs obs)%float)
              (length (s_counts st)) 0 out) as (out' & Hfin & _ & Hcell & _).
  - intros j Hj.
    destruct (lookup_lt_is_Some_2 counts j) as [c Hc]; [lia|].
    destruct (Hg j c Hc) as (_ & Hn & Hx).
    unfold group_mean_fin.
    rewrite (get_Ok _ _ _ Hn). cbn [mbind res_bind].
    destruct (PrimFloat.eqb _ 0); [done|].
    by rewrite (get_Ok _ _ _ Hx).
  - lia.
  - change (Z.of_nat 0) with 0 in Hfin. rewrite Hfin. cbn [mbind res_bind].
    eexists _, _. split; [done|].
    intros g Hglt. apply Hcell. lia.
Qed.

(** C6, as stated, fails in its last part: a group holding [+inf] and
    [-inf] has two non-missing observations, yet their sum is NaN and so
    is the mean [group_mean] stores. *)
Lemma group_mean_nan_with_observations :
  ¬ (∀ (out : list float) (counts : list Z) (values : list float)
       (labels : list Z) (out' : list float) (counts' : list Z)
       (g : nat) (x : float),
       group_mean out counts values labels = Ok (out', counts') →
       out' !! g = Some x →
       (not_nan x = false ↔ group_obs (Z.of_nat g) labels values = [])).
Proof.
  intros Hiff.
  specialize (Hiff [0%float] [0] [infinity; neg_infinity] [0; 0]
                [nan] [2] 0%nat nan eq_refl eq_refl).
  destruct Hiff as [Hnan _]. specialize (Hnan eq_refl).
  vm_compute in Hnan. discriminate Hnan.
Qed.

(** C6, amended: [group_var] stores NaN for a group with fewer than two
    non-missing observations and otherwise the two-moment value
    [(n*Sxx - Sx*Sx) / (n*n - n)], where [n] is the count, [Sx] the sum and
    [Sxx] the sum of squares of the group's non-NaN values as the pass
    accumulates them; for the single group [2, 4, 4, 4, 5, 5, 7, 9] that is
    [32/7].  [group_mean] stores NaN for a group with no non-missing
    observation and [Sx / n] otherwise, which is itself NaN when the sum
    is. *)
Theorem group_var_mean_finalize (out : list float) (counts : list Z)
    (values : list float) (labels : list Z) :
  length labels = length values →
  Forall (λ l, l < Z.of_nat (length counts)) labels →
  (length counts ≤ length out)%nat →
  (∃ out' counts',
     group_var out counts values labels = Ok (out', counts') ∧
     ∀ g : nat, (g < length counts)%nat →
       let obs := group_obs (Z.of_nat g) labels values in
       let n := count_obs obs in
       let sx := sum_obs obs in
       let sxx := sumsq_obs obs in
       ((length obs < 2)%nat → out' !! g = Some nan) ∧
       ((2 ≤ length obs)%nat →
        out' !! g = Some ((n * sxx - sx * sx) / (n * n - n))%float)) ∧
  (∃ out' counts',
     group_mean out counts values labels = Ok (out', counts') ∧
     ∀ g : nat, (g < length counts)%nat →
       let obs := group_obs (Z.of_nat g) labels values in
       (obs = [] → out' !! g = Some nan) ∧
       (obs ≠ [] → out' !! g = Some (sum_obs obs / count_obs obs)%float)) ∧
  group_var [0%float] [0] [2; 4; 4; 4; 5; 5; 7; 9]%float [0; 0; 0; 0; 0; 0; 0; 0]
    = Ok ([(32 / 7)%float], [8]).
Proof.
  intros Hlen Hin Hout. split; [|split; [|reflexivity]].
  - destruct (group_var_output out counts values labels Hlen Hin Hout)
      as (out' & counts' & Hrun & Hcell).
    exists out', counts'. split; [done|].
    intros g Hg obs n sx sxx. specialize (Hcell g Hg). cbv zeta in Hcell.
    fold obs in Hcell. split.
    + intros Hfew. rewrite Hcell.
      destruct obs as [|v [|w obs]]; simpl in Hfew; try lia; reflexivity.
    + intros Hmany. rewrite Hcell.
      assert (Hne : obs ≠ []) by (intros Hnil; rewrite Hnil in Hmany; simpl in Hmany; lia).
      destruct (count_obs_at_least obs Hne) as [_ Htwo].
      by rewrite (at_least_not_below_two _ (Htwo Hmany)).
  - destruct (group_mean_output out counts values labels Hlen Hin Hout)
      as (out' & counts' & Hrun & Hcell).
    exists out', counts'. split; [done|].
    intros g Hg obs. specialize (Hcell g Hg). cbv zeta in Hcell.
    fold obs in Hcell. split.
    + intros Hnone. rewrite Hcell, Hnone. reflexivity.
    + intros Hne. rewrite Hcell.
      destruct (count_obs_at_least obs Hne) as [Hone _].
      by rewrite (at_least_not_zero _ Hone).
Qed.

Lemma group_var_mean_finalize_witness :
  ∃ out' counts',
    group_var [0%float] [0] [2; 4; 4; 4; 5; 5; 7; 9]%float
      [0; 0; 0; 0; 0; 0; 0; 0] = Ok (out', counts') ∧
    out' !! 0%nat = Some (32 / 7)%float.
Proof.
  destruct (group_var_mean_finalize [0%float] [0] [2; 4; 4; 4; 5; 5; 7; 9]%float
              [0; 0; 0; 0; 0; 0; 0; 0])
    as ((out' & counts' & Hrun & Hcell) & _).
  - reflexivity.
  - repeat constructor.
  - simpl. lia.
  - exists out', counts'. split; [exact Hrun|].
    destruct (Hcell 0%nat) as [_ Hvar]; [simpl; lia|].
    cbv zeta in Hvar. rewrite Hvar; [reflexivity|].
    vm_compute. lia.
Defined.

(** ** PyObjectHashTable: strict and sentinel lookups *)

Section lookups.
Context {K : Type} `{Countable K}.

Lemma lookup_locations_loop_spec (table : gmap K Z) (values : list K) (i : nat)
    (locs : list Z) :
  (i + length values ≤ length locs)%nat →
  length (lookup_locations_loop table values i locs) = length locs ∧
  (∀ j key, values !! j = Some key →
     lookup_locations_loop table values i locs !! (i + j)%nat =
       Some (location_of table key)) ∧
  (∀ j, (j < i)%nat →
     lookup_locations_loop table values i locs !! j = locs !! j).
Proof.
  revert i locs. induction values as [|val values IH]; intros i locs Hlen.
  - simpl. repeat split; done.
  - simpl in Hlen. cbn [lookup_locations_loop].
    set (locs' := lookup_locations_body table i val locs).
    assert (Hlocs' : locs' = <[i := location_of table val]> locs).
    { subst locs'. unfold lookup_locations_body, location_of, kh_get.
      by destruct (table !! val). }
    destruct (IH (S i) locs') as (Hl & Hin & Hout).
    { rewrite Hlocs', length_insert. lia. }
    rewrite Hlocs', length_insert in Hl. rewrite Hlocs' in Hin, Hout.
    rewrite Hlocs'. repeat split; [done| |].
    + intros [|j] key Hj; simpl in Hj.
      * injection Hj as <-. rewrite Nat.add_0_r, Hout by lia.
        apply list_lookup_insert_eq. lia.
      * replace (i + S j)%nat with (S i + j)%nat by lia. by apply Hin.
    + intros j Hj. rewrite Hout by lia. apply list_lookup_insert_ne. lia.
Qed.

(** C8: [get_item] returns the stored payload of a present key and raises
    [KeyError] for an absent one; [lookup_locations] raises nothing, gives
    one location per value and the sentinel [-1] for every absent key; both
    leave the table as it was, so after a failed [get_item] the table
    still answers for the keys it holds. *)
Theorem strict_and_sentinel_lookups (table : gmap K Z) (junk : nat → Z)
    (values : list K) (key : K) :
  (∀ v, table !! key = Some v → get_item key table = (Ok v, table)) ∧
  (table !! key = None → get_item key table = (Err KeyError, table)) ∧
  (lookup_locations junk values table).2 = table ∧
  length (lookup_locations junk values table).1 = length values ∧
  (∀ i k, values !! i = Some k → table !! k = None →
     (lookup_locations junk values table).1 !! i = Some (-1)) ∧
  (∀ key' v, table !! key = None → table !! key' = Some v →
     get_item key' (get_item key table).2 = (Ok v, table)).
Proof.
  unfold get_item, kh_get.
  split; [by intros v ->|]. split; [by intros ->|].
  split; [done|].
  destruct (lookup_locations_loop_spec table values 0
              (np_empty junk (length values))) as (Hl & Hin & _).
  { rewrite np_empty_length. lia. }
  unfold lookup_locations. cbn [fst snd].
  split; [by rewrite Hl, np_empty_length|].
  split.
  - intros i k Hi Hk. pose proof (Hin i k Hi) as Hloc. simpl in Hloc.
    rewrite Hloc. unfold location_of. by rewrite Hk.
  - intros key' v -> Hv. cbn [snd]. by rewrite Hv.
Qed.
End lookups.

Lemma strict_and_sentinel_lookups_witness :
  get_item (PyStr "b") {[ PyStr "a" := 7 ]} = (Err KeyError, {[ PyStr "a" := 7 ]}) ∧
  get_item (PyStr "a") (get_item (PyStr "b") {[ PyStr "a" := 7 ]}).2 =
    (Ok 7, {[ PyStr "a" := 7 ]}).
Proof.
  pose proof (strict_and_sentinel_lookups ({[ PyStr "a" := 7 ]} : gmap pyobj Z)
                (λ _, 0) [] (PyStr "b")) as (_ & Habsent & _ & _ & _ & Hreuse).
  split.
  - apply Habsent. reflexivity.
  - apply (Hreuse (PyStr "a") 7); reflexivity.
Defined.

(** ** duplicated *)

Section duplicates.
Context {K : Type} `{Countable K}.

Lemma duplicated_body_eq (values : list K) (i : nat) (row : K)
    (seen : gmap K ()) (res : list bool) :
  values !! i = Some row →
  duplicated_body values i (seen, res) =
  (<[row := ()]> seen, <[i := bool_decide (is_Some (seen !! row))]> res).
Proof.
  intros Hrow. unfold duplicated_body. rewrite Hrow. cbn [fst snd].
  destruct (seen !! row) as [[]|] eqn:Hs.
  - rewrite bool_decide_eq_true_2 by done. f_equal.
    by rewrite insert_id.
  - by rewrite bool_decide_eq_false_2 by (by intros [? ?]).
Qed.

(** Running the loop over any order of distinct positions: a position is
    marked when its row was seen before the loop or stands at an earlier
    position of the order. *)
Lemma duplicated_fold_spec (values : list K) (order : list nat) :
  ∀ (seen : gmap K ()) (res : list bool),
    NoDup order → Forall (λ i, (i < length values)%nat) order →
    length res = length values →
    let st := foldl (λ st i, duplicated_body values i st) (seen, res) order in
    length st.2 = length values ∧
    (∀ i, i ∉ order → st.2 !! i = res !! i) ∧
    (∀ pre i post row,
       order = pre ++ i :: post → values !! i = Some row →
       ∃ b, st.2 !! i = Some b ∧
            (b = true ↔ is_Some (seen !! row) ∨
                        ∃ j, j ∈ pre ∧ values !! j = Some row)).
Proof.
  induction order as [|i0 order IH]; intros seen res Hnd Hin Hlen; cbn zeta.
  - simpl. split; [done|]. split; [done|].
    intros pre i post row Hord. by destruct pre.
  - apply NoDup_cons in Hnd as [Hi0 Hnd].
    apply Forall_cons in Hin as [Hi0lt Hin].
    destruct (lookup_lt_is_Some_2 values i0 Hi0lt) as [row0 Hrow0].
    cbn [foldl]. rewrite (duplicated_body_eq _ _ _ _ _ Hrow0).
    destruct (IH (<[row0 := ()]> seen)
                (<[i0 := bool_decide (is_Some (seen !! row0))]> res) Hnd Hin)
      as (Hl & Hout & Hmark); [by rewrite length_insert|].
    cbn zeta in Hl, Hout, Hmark.
    split; [done|]. split.
    + intros i Hi. apply not_elem_of_cons in Hi as [Hne Hi].
      rewrite (Hout i Hi). by apply list_lookup_insert_ne.
    + intros pre i post row Hord Hrow.
      destruct pre as [|p pre]; simplify_eq/=.
      * rewrite (Hout i Hi0), list_lookup_insert_eq by lia.
        eexists. split; [done|].
        rewrite bool_decide_eq_true. split; [by left|].
        intros [?|(j & Hj & _)]; [done|]. by apply elem_of_nil in Hj.
      * destruct (Hmark pre i post row eq_refl Hrow) as (b & Hb & Hiff).
        exists b. split; [done|]. rewrite Hiff.
        rewrite lookup_insert_is_Some. split.
        -- intros [[->|[_ Hs]]|(j & Hj & Hjr)].
           ++ right. exists p. split; [left|done].
           ++ by left.
           ++ right. exists j. split; [by right|done].
        -- intros [Hs|(j & Hj & Hjr)].
           ++ left. destruct (decide (row0 = row)); [by left|by right].
           ++ apply elem_of_cons in Hj as [->|Hj].
              ** left. left. congruence.
              ** right. by exists j.
Qed.

Lemma seq_split_at (n i : nat) :
  (i < n)%nat → seq 0 n = seq 0 i ++ i :: seq (S i) (n - S i).
Proof.
  intros Hi. replace n with (i + S (n - S i))%nat at 1 by lia.
  by rewrite seq_app.
Qed.

(** A position of [duplicated]'s result: marked exactly when the same
    row stands at an earlier position ([take_last = False]) or at a later
    one ([take_last = True]). *)
Lemma duplicated_marks (values : list K) (take_last : bool) (i : nat) (row : K) :
  values !! i = Some row →
  ∃ b, duplicated values take_last !! i = Some b ∧
       (b = true ↔
        ∃ j, (if take_last then (i < j)%nat else (j < i)%nat) ∧
             values !! j = Some row).
Proof.
  intros Hrow. pose proof (lookup_lt_Some _ _ _ Hrow) as Hi.
  unfold duplicated.
  set (order := if take_last then reverse (seq 0 (length values))
                else seq 0 (length values)).
  assert (Hperm : order ≡ₚ seq 0 (length values)).
  { subst order. destruct take_last; [apply reverse_Permutation|done]. }
  destruct (duplicated_fold_spec values order ∅
              (replicate (length values) false)) as (_ & _ & Hmark).
  { rewrite Hperm. apply NoDup_seq. }
  { rewrite Hperm. apply Forall_seq. intros; lia. }
  { apply length_replicate. }
  cbn zeta in Hmark.
  pose proof (seq_split_at (length values) i Hi) as Hsplit.
  destruct take_last.
  - destruct (Hmark (reverse (seq (S i) (length values - S i))) i
                (reverse (seq 0 i)) row) as (b & Hb & Hiff); [|done|].
    { subst order. rewrite Hsplit at 1.
      by rewrite reverse_app, reverse_cons, <- app_assoc. }
    exists b. split; [done|]. rewrite Hiff. split.
    + intros [[? Hs]|(j & Hj & Hjr)]; [by rewrite lookup_empty in Hs|].
      exists j. split; [|done].
      apply elem_of_reverse, elem_of_seq in Hj. lia.
    + intros (j & Hj & Hjr). right. exists j. split; [|done].
      apply elem_of_reverse, elem_of_seq.
      apply lookup_lt_Some in Hjr. lia.
  - destruct (Hmark (seq 0 i) i (seq (S i) (length values - S i)) row)
      as (b & Hb & Hiff); [done|done|].
    exists b. split; [done|]. rewrite Hiff. split.
    + intros [[? Hs]|(j & Hj & Hjr)]; [by rewrite lookup_empty in Hs|].
      exists j. split; [|done]. apply elem_of_seq in Hj. lia.
    + intros (j & Hj & Hjr). right. exists j. split; [|done].
      apply elem_of_seq. lia.
Qed.
End duplicates.

Section duplicates_unique.
Context {K : Type} `{Countable K}.

Lemma first_occurrence (l : list K) (row : K) :
  row ∈ l →
  ∃ i, l !! i = Some row ∧ ∀ j, (j < i)%nat → l !! j ≠ Some row.
Proof.
  induction l as [|x l IH]; intros Hin; [by apply elem_of_nil in Hin|].
  destruct (decide (x = row)) as [->|Hne].
  - exists 0%nat. split; [done|]. intros; lia.
  - apply elem_of_cons in Hin as [->|Hin]; [done|].
    destruct (IH Hin) as (i & Hi & Hmin).
    exists (S i). split; [done|].
    intros [|j] Hj; simpl; [congruence|]. apply Hmin. lia.
Qed.

Lemma last_occurrence (l : list K) (row : K) :
  row ∈ l →
  ∃ i, l !! i = Some row ∧ ∀ j, (i < j)%nat → l !! j ≠ Some row.
Proof.
  induction l as [|x l IH]; intros Hin; [by apply elem_of_nil in Hin|].
  destruct (decide (row ∈ l)) as [Hl|Hl].
  - destruct (IH Hl) as (i & Hi & Hmax).
    exists (S i). split; [done|].
    intros [|j] Hj; [lia|]. simpl. apply Hmax. lia.
  - apply elem_of_cons in Hin as [->|Hin]; [|done].
    exists 0%nat. split; [done|].
    intros [|j] Hj; [lia|]. simpl. intros Hrow.
    apply Hl. by apply list_elem_of_lookup_2 in Hrow.
Qed.

(** C10: [duplicated] marks position [i] exactly when [values[i]] also
    stands at some earlier position ([take_last = False]) or at some later
    position ([take_last = True]); and in both modes exactly one
    occurrence of each value is left unmarked. *)
Theorem duplicated_marks_repeats (values : list K) (take_last : bool) :
  length (duplicated values take_last) = length values ∧
  (∀ i row, values !! i = Some row →
     ∃ b, duplicated values take_last !! i = Some b ∧
          (b = true ↔
           ∃ j, (if take_last then (i < j)%nat else (j < i)%nat) ∧
                values !! j = Some row)) ∧
  (∀ row, row ∈ values →
     ∃ i, values !! i = Some row ∧
          duplicated values take_last !! i = Some false ∧
          ∀ j, values !! j = Some row →
               duplicated values take_last !! j = Some false → j = i).
Proof.
  split; [|split].
  - unfold duplicated.
    set (order := if take_last then reverse (seq 0 (length values))
                  else seq 0 (length values)).
    assert (Hperm : order ≡ₚ seq 0 (length values)).
    { subst order. destruct take_last; [apply reverse_Permutation|done]. }
    destruct (duplicated_fold_spec values order ∅
                (replicate (length values) false)) as (Hl & _).
    + rewrite Hperm. apply NoDup_seq.
    + rewrite Hperm. apply Forall_seq. intros; lia.
    + apply length_replicate.
    + done.
  - intros i row. apply duplicated_marks.
  - intros row Hin.
    assert (Hocc : ∃ i, values !! i = Some row ∧
              ∀ j, (if take_last then (i < j)%nat else (j < i)%nat) →
                   values !! j ≠ Some row).
    { destruct take_last; [by apply last_occurrence|by apply first_occurrence]. }
    destruct Hocc as (i & Hi & Hext).
    exists i. split; [done|].
    destruct (duplicated_marks values take_last i row Hi) as (b & Hb & Hiff).
    assert (b = false) as ->.
    { destruct b; [|done]. destruct Hiff as [Hex _].
      destruct (Hex eq_refl) as (j & Hj & Hjr). by destruct (Hext j Hj). }
    split; [done|].
    intros j Hj Hfalse.
    destruct (duplicated_marks values take_last j row Hj) as (b & Hb' & Hiff').
    rewrite Hb' in Hfalse. injection Hfalse as ->.
    destruct (Nat.lt_trichotomy j i) as [Hlt|[->|Hgt]]; [|done|].
    + destruct take_last.
      * destruct Hiff' as [_ Hex]. discriminate Hex. by exists i.
      * by destruct (Hext j Hlt).
    + destruct take_last.
      * by destruct (Hext j Hgt).
      * destruct Hiff' as [_ Hex]. discriminate Hex. by exists i.
Qed.
End duplicates_unique.

Lemma duplicated_marks_repeats_witness :
  duplicated [PyStr "a"; PyStr "b"; PyStr "a"; PyStr "a"] false
    = [false; false; true; true] ∧
  ∃ i, [PyStr "a"; PyStr "b"; PyStr "a"; PyStr "a"] !! i = Some (PyStr "a") ∧
       duplicated [PyStr "a"; PyStr "b"; PyStr "a"; PyStr "a"] true !! i
         = Some false.
Proof.
  split; [reflexivity|].
  destruct (duplicated_marks_repeats
              [PyStr "a"; PyStr "b"; PyStr "a"; PyStr "a"] true)
    as (_ & _ & Hone).
  destruct (Hone (PyStr "a")) as (i & Hi & Hfalse & _).
  - apply elem_of_cons. by left.
  - by exists i.
Defined.

(** ** Factorization: group_labels and PyObjectHashTable.factorize *)

Section first_seen_facts.
Context {K : Type} `{Countable K}.
Variable miss : K → bool.

Lemma first_seen_snoc (l : list K) (k : K) :
  first_seen miss (l ++ [k]) = first_seen_step miss (first_seen miss l) k.
Proof. unfold first_seen. by rewrite foldl_snoc. Qed.

Lemma first_seen_elem (l : list K) (k : K) :
  k ∈ first_seen miss l ↔ k ∈ l ∧ miss k = false.
Proof.
  induction l as [|x l IH] using rev_ind.
  - unfold first_seen. simpl. split; [by intros ?%elem_of_nil|].
    by intros [?%elem_of_nil _].
  - rewrite first_seen_snoc. unfold first_seen_step.
    rewrite elem_of_app, list_elem_of_singleton.
    destruct (miss x) eqn:Hx.
    + rewrite IH. split; [tauto|]. intros [[?| ->] ?]; [done|congruence].
    + destruct (decide (x ∈ first_seen miss l)) as [Hin|Hin].
      * rewrite IH. split; [tauto|]. intros [[?| ->] ?]; [done|].
        by apply IH in Hin.
      * rewrite elem_of_app, list_elem_of_singleton, IH.
        split; [intros [[? ?]| ->]; tauto|]. tauto.
Qed.

Lemma first_seen_NoDup (l : list K) : NoDup (first_seen miss l).
Proof.
  induction l as [|x l IH] using rev_ind; [constructor|].
  rewrite first_seen_snoc. unfold first_seen_step.
  destruct (miss x); [done|].
  destruct (decide (x ∈ first_seen miss l)); [done|].
  apply NoDup_app. split; [done|]. split; [|apply NoDup_singleton].
  intros y Hy ->%list_elem_of_singleton. done.
Qed.

Lemma first_seen_length (l : list K) :
  (length (first_seen miss l) ≤ length l)%nat.
Proof.
  induction l as [|x l IH] using rev_ind; [done|].
  rewrite first_seen_snoc, length_app. unfold first_seen_step. simpl.
  destruct (miss x); [lia|].
  destruct (decide (x ∈ first_seen miss l)); rewrite ?length_app; simpl; lia.
Qed.

Lemma first_seen_app_prefix (l l' : list K) :
  first_seen miss l `prefix_of` first_seen miss (l ++ l').
Proof.
  induction l' as [|x l' IH] using rev_ind; [by rewrite app_nil_r|].
  rewrite app_assoc, first_seen_snoc. unfold first_seen_step.
  destruct (miss x); [done|].
  destruct (decide (x ∈ first_seen miss (l ++ l'))); [done|].
  by apply prefix_app_r.
Qed.

(** The number of first-seen keys is the number of distinct non-missing
    keys. *)
Lemma first_seen_distinct (l : list K) :
  length (first_seen miss l) =
  length (remove_dups (filter (λ v, miss v = false) l)).
Proof.
  apply Permutation_length, NoDup_Permutation.
  - apply first_seen_NoDup.
  - apply NoDup_remove_dups.
  - intros k. rewrite first_seen_elem, elem_of_remove_dups, list_elem_of_filter.
    tauto.
Qed.

Lemma occurrences_snoc (k x : K) (l : list K) :
  occurrences k (l ++ [x]) =
  if decide (x = k) then S (occurrences k l) else occurrences k l.
Proof.
  unfold occurrences. rewrite filter_app, length_app.
  rewrite filter_cons, filter_nil.
  destruct (decide (x = k)); simpl; lia.
Qed.

Lemma occurrences_absent (k : K) (l : list K) : k ∉ l → occurrences k l = 0%nat.
Proof.
  intros Hk. unfold occurrences.
  induction l as [|x l IH]; [done|].
  apply not_elem_of_cons in Hk as [Hne Hk].
  rewrite filter_cons, decide_False by done. by apply IH.
Qed.

Lemma occurrences_le (k : K) (l : list K) : (occurrences k l ≤ length l)%nat.
Proof. unfold occurrences. apply length_filter. Qed.
End first_seen_facts.

Section group_labels_facts.
Context {K : Type} `{Countable K}.
Variable py_ne : K → K → bool.

Local Abbreviation miss := (λ v : K, py_ne v v).

Lemma group_labels_loop_snoc (l : list K) (x : K) (i : nat) (st : gl_state) :
  group_labels_loop py_ne (l ++ [x]) i st =
  group_labels_body py_ne (i + length l) x (group_labels_loop py_ne l i st).
Proof.
  revert i st. induction l as [|y l IH]; intros i st; simpl.
  - by rewrite Nat.add_0_r.
  - rewrite IH. f_equal. lia.
Qed.

Lemma gl_inv_init (n : nat) (labels counts : list Z) :
  length labels = n → length counts = n →
  gl_inv py_ne n [] (GlState labels counts ∅ ∅ 0).
Proof.
  intros Hl Hc. split; simpl; try done.
  - intros k g. rewrite lookup_empty. split; [done|]. by intros (g' & _ & ?).
  - intros g k. rewrite lookup_empty. split; [done|]. by intros (g' & _ & ?).
Qed.

(** A missing key: only [labels] changes. *)
Lemma gl_inv_step_missing (n : nat) (pre : list K) (x : K) (st : gl_state) :
  (length pre < n)%nat → py_ne x x = true →
  gl_inv py_ne n pre st →
  gl_inv py_ne n (pre ++ [x]) (group_labels_body py_ne (length pre) x st).
Proof.
  intros Hn Hx [Hll Hlc Hcount Hids Hrev Hocc Hmiss Hlab Hnew].
  unfold group_labels_body. rewrite Hx.
  assert (Hfs : first_seen miss (pre ++ [x]) = first_seen miss pre).
  { rewrite first_seen_snoc. unfold first_seen_step. by rewrite Hx. }
  split; simpl; rewrite ?Hfs, ?length_insert; try done.
  - intros g' k Hk. rewrite (Hocc g' k Hk), occurrences_snoc.
    rewrite decide_False; [done|]. intros ->.
    apply list_elem_of_lookup_2, first_seen_elem in Hk as [_ Hk]. simpl in *. congruence.
  - intros j k [[Hj Hk]|[-> <-]]%lookup_snoc_Some Hkm.
    + rewrite list_lookup_insert_ne by lia. by apply (Hmiss j k).
    + apply list_lookup_insert_eq. lia.
  - intros j k [[Hj Hk]|[-> <-]]%lookup_snoc_Some Hkm; [|congruence].
    rewrite list_lookup_insert_ne by lia. by apply (Hlab j k).
  - intros j k [[Hj Hk]|[-> <-]]%lookup_snoc_Some Hkm; [|congruence].
    rewrite take_app_le by lia. intros Hnin.
    rewrite list_lookup_insert_ne by lia. by apply (Hnew j k).
Qed.

(** A key seen before: its label is reused and its count incremented. *)
Lemma gl_inv_step_seen (n : nat) (pre : list K) (x : K) (idx : Z) (st : gl_state) :
  (length pre < n)%nat → Z.of_nat n < 2 ^ 31 →
  py_ne x x = false → gl_ids st !! x = Some idx →
  gl_inv py_ne n pre st →
  gl_inv py_ne n (pre ++ [x]) (group_labels_body py_ne (length pre) x st).
Proof.
  intros Hn Hbound Hx Hidx [Hll Hlc Hcount Hids Hrev Hocc Hmiss Hlab Hnew].
  unfold group_labels_body. rewrite Hx, Hidx.
  destruct (proj1 (Hids x idx) Hidx) as (gx & -> & Hgx).
  rewrite Nat2Z.id.
  pose proof (list_elem_of_lookup_2 _ _ _ Hgx) as Hxin.
  assert (Hfs : first_seen miss (pre ++ [x]) = first_seen miss pre).
  { rewrite first_seen_snoc. unfold first_seen_step.
    by rewrite Hx, decide_True by done. }
  pose proof (first_seen_NoDup miss pre) as Hnd.
  pose proof (first_seen_length miss pre) as Hfl.
  pose proof (lookup_lt_Some _ _ _ Hgx) as Hgxlt.
  pose proof (occurrences_le x pre) as Hole.
  rewrite (list_lookup_total_correct _ _ _ (Hocc gx x Hgx)).
  rewrite wrap32_id by lia.
  split; simpl; rewrite ?Hfs, ?length_insert; try done.
  - intros g' k Hk. rewrite occurrences_snoc.
    destruct (decide (x = k)) as [<-|Hne].
    + rewrite (NoDup_lookup _ _ _ _ Hnd Hk Hgx).
      rewrite list_lookup_insert_eq by lia. f_equal. lia.
    + rewrite list_lookup_insert_ne; [by apply Hocc|].
      intros <-. congruence.
  - intros j k [[Hj Hk]|[-> <-]]%lookup_snoc_Some Hkm; [|congruence].
    rewrite list_lookup_insert_ne by lia. by apply (Hmiss j k).
  - intros j k [[Hj Hk]|[-> <-]]%lookup_snoc_Some Hkm.
    + rewrite list_lookup_insert_ne by lia. by apply (Hlab j k).
    + exists gx. split; [|done]. apply list_lookup_insert_eq. lia.
  - intros j k [[Hj Hk]|[-> <-]]%lookup_snoc_Some Hkm.
    + rewrite take_app_le by lia. intros Hnin.
      rewrite list_lookup_insert_ne by lia. by apply (Hnew j k).
    + rewrite take_app_length. intros Hnin. destruct Hnin.
      by apply first_seen_elem in Hxin as [? _].
Qed.

(** A new key: it takes the next label, with a count of one. *)
Lemma gl_inv_step_new (n : nat) (pre : list K) (x : K) (st : gl_state) :
  (length pre < n)%nat → Z.of_nat n < 2 ^ 31 →
  py_ne x x = false → gl_ids st !! x = None →
  gl_inv py_ne n pre st →
  gl_inv py_ne n (pre ++ [x]) (group_labels_body py_ne (length pre) x st).
Proof.
  intros Hn Hbound Hx Hidx [Hll Hlc Hcount Hids Hrev Hocc Hmiss Hlab Hnew].
  unfold group_labels_body. rewrite Hx, Hidx.
  pose proof (first_seen_length miss pre) as Hfl.
  assert (Hxnin : x ∉ first_seen miss pre).
  { intros (gx & Hgx)%list_elem_of_lookup_1.
    assert (gl_ids st !! x = Some (Z.of_nat gx)) as Hsome by (apply Hids; eauto).
    congruence. }
  assert (Hxpre : x ∉ pre).
  { intros Hin. apply Hxnin. by apply first_seen_elem. }
  assert (Hfs : first_seen miss (pre ++ [x]) = first_seen miss pre ++ [x]).
  { rewrite first_seen_snoc. unfold first_seen_step.
    by rewrite Hx, decide_False by done. }
  rewrite Hcount, Nat2Z.id.
  rewrite wrap32_id by lia.
  split; simpl; rewrite ?Hfs, ?length_insert; try done.
  - rewrite length_app. simpl. lia.
  - intros k g. rewrite lookup_insert_Some, Hids. split.
    + intros [[<- <-]|[Hne (g' & -> & Hg')]].
      * exists (length (first_seen miss pre)). split; [done|].
        apply lookup_snoc_Some. by right.
      * exists g'. split; [done|]. by apply lookup_app_l_Some.
    + intros (g' & -> & [[Hlt Hg']|[-> <-]]%lookup_snoc_Some).
      * right. split; [|by exists g'].
        intros <-. by apply list_elem_of_lookup_2 in Hg'.
      * by left.
  - intros g k. rewrite lookup_insert_Some, Hrev. split.
    + intros [[<- <-]|[Hne (g' & -> & Hg')]].
      * exists (length (first_seen miss pre)). split; [done|].
        apply lookup_snoc_Some. by right.
      * exists g'. split; [done|]. by apply lookup_app_l_Some.
    + intros (g' & -> & [[Hlt Hg']|[-> <-]]%lookup_snoc_Some).
      * right. split; [lia|by exists g'].
      * by left.
  - intros g' k [[Hlt Hg']|[-> <-]]%lookup_snoc_Some; rewrite occurrences_snoc.
    + rewrite decide_False.
      * rewrite list_lookup_insert_ne by lia. by apply Hocc.
      * intros <-. by apply list_elem_of_lookup_2 in Hg'.
    + rewrite decide_True by done.
      rewrite occurrences_absent by done.
      rewrite list_lookup_insert_eq by lia. done.
  - intros j k [[Hj Hk]|[-> <-]]%lookup_snoc_Some Hkm; [|congruence].
    rewrite list_lookup_insert_ne by lia. by apply (Hmiss j k).
  - intros j k [[Hj Hk]|[-> <-]]%lookup_snoc_Some Hkm.
    + rewrite list_lookup_insert_ne by lia.
      destruct (Hlab j k Hk Hkm) as (g' & Hg' & Hfs').
      exists g'. split; [done|]. by apply lookup_app_l_Some.
    + exists (length (first_seen miss pre)). split.
      * apply list_lookup_insert_eq. lia.
      * apply lookup_snoc_Some. by right.
  - intros j k [[Hj Hk]|[-> <-]]%lookup_snoc_Some Hkm.
    + rewrite take_app_le by lia. intros Hnin.
      rewrite list_lookup_insert_ne by lia. by apply (Hnew j k).
    + rewrite take_app_length. intros _.
      apply list_lookup_insert_eq. lia.
Qed.

(** The invariant holds after every prefix of the input. *)
Lemma gl_inv_loop (values pre : list K) (labels counts : list Z) :
  Z.of_nat (length values) < 2 ^ 31 →
  length labels = length values → length counts = length values →
  pre `prefix_of` values →
  gl_inv py_ne (length values) pre
    (group_labels_loop py_ne pre 0 (GlState labels counts ∅ ∅ 0)).
Proof.
  intros Hbound Hl Hc.
  induction pre as [|x pre IH] using rev_ind; intros Hpre.
  - by apply gl_inv_init.
  - assert (Hpre' : pre `prefix_of` values).
    { etrans; [|done]. by apply prefix_app_r. }
    assert (Hlen : (length pre < length values)%nat).
    { apply prefix_length in Hpre. rewrite length_app in Hpre. simpl in Hpre. lia. }
    specialize (IH Hpre').
    rewrite group_labels_loop_snoc. simpl.
    destruct (py_ne x x) eqn:Hx.
    + by apply gl_inv_step_missing.
    + destruct (gl_ids (group_labels_loop py_ne pre 0
                          (GlState labels counts ∅ ∅ 0)) !! x) as [idx|] eqn:Hid.
      * by apply (gl_inv_step_seen _ _ _ idx).
      * by apply gl_inv_step_new.
Qed.
End group_labels_facts.

Section counting_facts.
Context {K : Type} `{Countable K}.

Lemma filter_elem_of_nil (l : list K) : filter (λ v, v ∈ @nil K) l = [].
Proof.
  induction l as [|x l IH]; [done|].
  rewrite filter_cons, decide_False; [done|]. apply not_elem_of_nil.
Qed.

Lemma filter_elem_of_cons_length (k : K) (u l : list K) :
  k ∉ u →
  length (filter (λ v, v ∈ k :: u) l) =
  (occurrences k l + length (filter (λ v, v ∈ u) l))%nat.
Proof.
  intros Hk. unfold occurrences.
  induction l as [|x l IH]; [done|].
  rewrite !filter_cons.
  destruct (decide (x = k)) as [->|Hne].
  - rewrite decide_True by (by left). rewrite (decide_False (P := k ∈ u)) by done.
    simpl. by rewrite IH.
  - destruct (decide (x ∈ u)) as [Hin|Hnin].
    + rewrite decide_True by (by right). simpl. rewrite IH. lia.
    + rewrite decide_False; [done|].
      by intros [?|?]%elem_of_cons.
Qed.

(** The occurrences of distinct keys add up to the number of elements
    that are one of them. *)
Lemma sum_occurrences (u l : list K) :
  NoDup u →
  sum_counts ((λ k, Z.of_nat (occurrences k l)) <$> u) =
  Z.of_nat (length (filter (λ v, v ∈ u) l)).
Proof.
  induction 1 as [|k u Hk Hnd IH].
  - by rewrite filter_elem_of_nil.
  - rewrite fmap_cons.
    change (sum_counts (?x :: ?r)) with (x + sum_counts r).
    rewrite IH, filter_elem_of_cons_length by done. lia.
Qed.

Lemma filter_first_seen (miss : K → bool) (l : list K) :
  filter (λ v, v ∈ first_seen miss l) l = filter (λ v, miss v = false) l.
Proof.
  assert (Hgen : ∀ l' : list K, (∀ v, v ∈ l' → v ∈ l) →
            filter (λ v, v ∈ first_seen miss l) l' =
            filter (λ v, miss v = false) l').
  { induction l' as [|x l' IH]; intros Hsub; [done|].
    rewrite !filter_cons.
    rewrite IH by (intros v Hv; apply Hsub; by right).
    destruct (decide (miss x = false)) as [Hx|Hx].
    - rewrite decide_True; [done|].
      apply first_seen_elem. split; [|done]. apply Hsub. by left.
    - rewrite decide_False; [done|].
      by intros [_ ?]%first_seen_elem. }
  by apply Hgen.
Qed.
End counting_facts.

Section factorize_results.
Context {K : Type} `{Countable K}.
Variable py_ne : K → K → bool.

Local Abbreviation miss := (λ v : K, py_ne v v).

(** What the invariant says about the labels once every key is read. *)
Lemma gl_inv_labels_spec (values : list K) (st : gl_state) :
  gl_inv py_ne (length values) values st →
  length (gl_labels st) = length values ∧
  (∀ (i : nat) k, values !! i = Some k →
     (gl_labels st !! i = Some (-1) ↔ py_ne k k = true)) ∧
  (∀ (i : nat) k, values !! i = Some k → py_ne k k = false →
     ∃ g, gl_labels st !! i = Some g ∧ 0 ≤ g ∧ gl_reverse st !! g = Some k) ∧
  (∀ (i : nat) k, values !! i = Some k → py_ne k k = false →
     k ∉ take i values →
     gl_labels st !! i =
       Some (Z.of_nat (length (remove_dups
                                 (filter (λ v, py_ne v v = false) (take i values)))))) ∧
  (∀ (i j : nat) ki kj gi gj, (i < j)%nat →
     values !! i = Some ki → values !! j = Some kj →
     py_ne ki ki = false → py_ne kj kj = false →
     ki ∉ take i values → kj ∉ take j values →
     gl_labels st !! i = Some gi → gl_labels st !! j = Some gj → gi < gj).
Proof.
  intros [Hll Hlc Hcount Hids Hrev Hocc Hmiss Hlab Hnew].
  split; [done|]. split; [|split; [|split]].
  - intros i k Hk. split.
    + intros Hneg. destruct (py_ne k k) eqn:Hkm; [done|].
      destruct (Hlab i k Hk Hkm) as (g' & Hg' & _).
      rewrite Hg' in Hneg. injection Hneg as Hneg. lia.
    + by apply Hmiss.
  - intros i k Hk Hkm. destruct (Hlab i k Hk Hkm) as (g' & Hg' & Hfs).
    exists (Z.of_nat g'). split; [done|]. split; [lia|].
    apply Hrev. by exists g'.
  - intros i k Hk Hkm Hnin.
    rewrite (Hnew i k Hk Hkm Hnin). by rewrite (first_seen_distinct miss).
  - intros i j ki kj gi gj Hij Hki Hkj Hmi Hmj Hni Hnj Hgi Hgj.
    rewrite (Hnew i ki Hki Hmi Hni) in Hgi. injection Hgi as <-.
    rewrite (Hnew j kj Hkj Hmj Hnj) in Hgj. injection Hgj as <-.
    assert (Hpre : first_seen miss (take (S i) values)
                     `prefix_of` first_seen miss (take j values)).
    { rewrite <- (take_drop (S i) (take j values)), take_take.
      rewrite Nat.min_l by lia. apply first_seen_app_prefix. }
    apply prefix_length in Hpre.
    rewrite (take_S_r _ _ _ Hki), first_seen_snoc in Hpre.
    unfold first_seen_step in Hpre. rewrite Hmi in Hpre.
    rewrite decide_False in Hpre.
    + rewrite length_app in Hpre. simpl in Hpre. lia.
    + by intros [? _]%first_seen_elem.
Qed.

(** What the invariant says about the counts once every key is read. *)
Lemma gl_inv_counts_spec (values : list K) (st : gl_state) :
  gl_inv py_ne (length values) values st →
  let counts := take (Z.to_nat (gl_count st)) (gl_counts st) in
  length counts =
    length (remove_dups (filter (λ v, py_ne v v = false) values)) ∧
  (∀ g k, gl_reverse st !! g = Some k →
     0 ≤ g ∧ counts !! Z.to_nat g = Some (Z.of_nat (occurrences k values))) ∧
  (∀ g' : nat, (g' < length counts)%nat →
     ∃ k, gl_reverse st !! Z.of_nat g' = Some k ∧ k ∈ values ∧ py_ne k k = false) ∧
  (∀ k, k ∈ values → py_ne k k = false → ∃ g, gl_reverse st !! g = Some k) ∧
  (∀ g1 g2 k, gl_reverse st !! g1 = Some k → gl_reverse st !! g2 = Some k →
     g1 = g2) ∧
  sum_counts counts =
    Z.of_nat (length (filter (λ v, py_ne v v = false) values)).
Proof.
  intros [Hll Hlc Hcount Hids Hrev Hocc Hmiss Hlab Hnew] counts.
  pose proof (first_seen_length miss values) as Hfl.
  pose proof (first_seen_NoDup miss values) as Hnd.
  assert (Hlen : length counts = length (first_seen miss values)).
  { subst counts. rewrite Hcount, Nat2Z.id, length_take. lia. }
  assert (Hcounts : counts =
            (λ k, Z.of_nat (occurrences k values)) <$> first_seen miss values).
  { apply list_eq. intros g'. rewrite list_lookup_fmap.
    destruct (first_seen miss values !! g') as [k|] eqn:Hk; simpl.
    - subst counts. rewrite Hcount, Nat2Z.id.
      rewrite lookup_take_lt by (by apply lookup_lt_Some in Hk).
      by apply Hocc.
    - apply lookup_ge_None. rewrite Hlen. by apply lookup_ge_None. }
  split; [by rewrite Hlen, (first_seen_distinct miss)|].
  split; [|split; [|split; [|split]]].
  - intros g k (g' & -> & Hg')%Hrev. split; [lia|].
    rewrite Nat2Z.id, Hcounts, list_lookup_fmap, Hg'. done.
  - intros g' Hg'. rewrite Hlen in Hg'.
    destruct (lookup_lt_is_Some_2 _ _ Hg') as [k Hk].
    exists k. split; [apply Hrev; by exists g'|].
    by apply list_elem_of_lookup_2, first_seen_elem in Hk.
  - intros k Hin Hkm.
    assert (k ∈ first_seen miss values) as (g' & Hg')%list_elem_of_lookup_1
      by (by apply first_seen_elem).
    exists (Z.of_nat g'). apply Hrev. by exists g'.
  - intros g1 g2 k (g1' & -> & Hg1)%Hrev (g2' & -> & Hg2)%Hrev.
    by rewrite (NoDup_lookup _ _ _ _ Hnd Hg1 Hg2).
  - rewrite Hcounts, sum_occurrences by done.
    by rewrite filter_first_seen.
Qed.

Lemma group_labels_unfold (junk_l junk_c : nat → Z) (values : list K) :
  group_labels py_ne junk_l junk_c values =
  let st := group_labels_loop py_ne values 0
              (GlState (np_empty junk_l (length values))
                       (np_empty junk_c (length values)) ∅ ∅ 0) in
  (gl_reverse st, gl_labels st, take (Z.to_nat (gl_count st)) (gl_counts st)).
Proof. reflexivity. Qed.

Lemma group_labels_inv (junk_l junk_c : nat → Z) (values : list K) :
  Z.of_nat (length values) < 2 ^ 31 →
  gl_inv py_ne (length values) values
    (group_labels_loop py_ne values 0
       (GlState (np_empty junk_l (length values))
                (np_empty junk_c (length values)) ∅ ∅ 0)).
Proof.
  intros Hbound. apply gl_inv_loop; rewrite ?np_empty_length; done.
Qed.
End factorize_results.

Section hash_table_factorize.
Context {K : Type} `{Countable K}.

(** The hash-table variant never tests for a missing key. *)
Local Abbreviation never := (λ _ _ : K, false).

Lemma factorize_loop_snoc (l : list K) (x : K) (i : nat) (st : ht_state) :
  factorize_loop (l ++ [x]) i st =
  factorize_body (i + length l) x (factorize_loop l i st).
Proof.
  revert i st. induction l as [|y l IH]; intros i st; simpl.
  - by rewrite Nat.add_0_r.
  - rewrite IH. f_equal. lia.
Qed.

(** On states that satisfy the invariant no int32 store truncates, and a
    step of [factorize] is a step of [group_labels] without the missing
    test. *)
Lemma factorize_body_as_gl (n : nat) (pre : list K) (x : K) (st : ht_state) :
  (length pre < n)%nat → Z.of_nat n < 2 ^ 31 →
  gl_inv never n pre (ht_as_gl st) →
  ht_as_gl (factorize_body (length pre) x st) =
  group_labels_body never (length pre) x (ht_as_gl st).
Proof.
  intros Hn Hbound [Hll Hlc Hcount Hids Hrev Hocc Hmiss Hlab Hnew].
  pose proof (first_seen_length (λ _ : K, false) pre) as Hfl.
  unfold factorize_body, group_labels_body, kh_get, kh_put, ht_as_gl in *.
  simpl in *.
  destruct (ht_table st !! x) as [idx|] eqn:Hidx; simpl.
  - destruct (proj1 (Hids x idx) Hidx) as (g' & -> & Hg').
    apply lookup_lt_Some in Hg'.
    by rewrite wrap32_id by lia.
  - rewrite Hcount. by rewrite !wrap32_id by lia.
Qed.

Lemma factorize_loop_as_gl (values pre : list K) (labels counts : list Z) :
  Z.of_nat (length values) < 2 ^ 31 →
  length labels = length values → length counts = length values →
  pre `prefix_of` values →
  ht_as_gl (factorize_loop pre 0 (HtState ∅ labels counts ∅ 0)) =
  group_labels_loop never pre 0 (GlState labels counts ∅ ∅ 0).
Proof.
  intros Hbound Hl Hc.
  induction pre as [|x pre IH] using rev_ind; intros Hpre; [done|].
  assert (Hpre' : pre `prefix_of` values).
  { etrans; [|done]. by apply prefix_app_r. }
  assert (Hlen : (length pre < length values)%nat).
  { apply prefix_length in Hpre. rewrite length_app in Hpre. simpl in Hpre. lia. }
  rewrite factorize_loop_snoc, group_labels_loop_snoc. simpl.
  rewrite <- (IH Hpre').
  apply (factorize_body_as_gl (length values)); [done|done|].
  rewrite (IH Hpre'). by apply gl_inv_loop.
Qed.

Lemma factorize_inv (junk_l junk_c : nat → Z) (values : list K) :
  Z.of_nat (length values) < 2 ^ 31 →
  gl_inv never (length values) values
    (ht_as_gl (factorize_loop values 0
                 (HtState ∅ (np_empty junk_l (length values))
                          (np_empty junk_c (length values)) ∅ 0))).
Proof.
  intros Hbound.
  rewrite (factorize_loop_as_gl values values) by (rewrite ?np_empty_length; done).
  by apply group_labels_inv.
Qed.

Lemma filter_never (l : list K) : filter (λ _ : K, false = false) l = l.
Proof.
  induction l as [|x l IH]; [done|].
  by rewrite filter_cons, decide_True, IH by done.
Qed.
End hash_table_factorize.

(** C1, as stated, fails for the hash-table method:
    [PyObjectHashTable.factorize] has no test for a missing key, so a NaN
    key -- one that is not equal to itself -- gets the label 0 and not -1. *)
Lemma factorize_labels_nan_key :
  ¬ (∀ (junk_l junk_c : nat → Z) (values : list pyobj) (i : nat) (k : pyobj),
       values !! i = Some k →
       (fact_labels (factorize junk_l junk_c values ∅).1 !! i = Some (-1) ↔
        pyobj_ne k k = true)).
Proof.
  intros Hall.
  destruct (Hall (λ _, 0) (λ _, 0) [PyNaN] 0%nat PyNaN eq_refl) as [_ Hneg].
  specialize (Hneg eq_refl). vm_compute in Hneg. discriminate Hneg.
Qed.

Section factorize_theorems.
Context {K : Type} `{Countable K}.
Variable py_ne : K → K → bool.

(** C1, amended: for fewer than 2^31 keys, [group_labels] gives
    [labels[i] == -1] exactly when [keys[i]] is not equal to itself, and for
    every other key [reverse[labels[i]] == keys[i]]; a key met for the first
    time receives the number of distinct non-missing keys before it, so the
    labels of first occurrences increase strictly.
    [PyObjectHashTable.factorize], run on an empty table, performs no
    missing test: every key, NaN included, has a label [>= 0] with
    [reverse[labels[i]] == keys[i]], and first occurrences are numbered in
    the same way. *)
Theorem factorize_labels (junk_l junk_c : nat → Z) (values : list K) :
  Z.of_nat (length values) < 2 ^ 31 →
  (let r := group_labels py_ne junk_l junk_c values in
   length (fact_labels r) = length values ∧
   (∀ (i : nat) k, values !! i = Some k →
      (fact_labels r !! i = Some (-1) ↔ py_ne k k = true)) ∧
   (∀ (i : nat) k, values !! i = Some k → py_ne k k = false →
      ∃ g, fact_labels r !! i = Some g ∧ 0 ≤ g ∧ fact_reverse r !! g = Some k) ∧
   (∀ (i : nat) k, values !! i = Some k → py_ne k k = false →
      k ∉ take i values →
      fact_labels r !! i =
        Some (Z.of_nat
                (length (remove_dups
                           (filter (λ v, py_ne v v = false) (take i values)))))) ∧
   (∀ (i j : nat) ki kj gi gj, (i < j)%nat →
      values !! i = Some ki → values !! j = Some kj →
      py_ne ki ki = false → py_ne kj kj = false →
      ki ∉ take i values → kj ∉ take j values →
      fact_labels r !! i = Some gi → fact_labels r !! j = Some gj → gi < gj)) ∧
  (let r := (factorize junk_l junk_c values ∅).1 in
   length (fact_labels r) = length values ∧
   (∀ (i : nat) k, values !! i = Some k →
      ∃ g, fact_labels r !! i = Some g ∧ 0 ≤ g ∧ fact_reverse r !! g = Some k) ∧
   (∀ (i : nat) k, values !! i = Some k → k ∉ take i values →
      fact_labels r !! i =
        Some (Z.of_nat (length (remove_dups (take i values))))) ∧
   (∀ (i j : nat) ki kj gi gj, (i < j)%nat →
      values !! i = Some ki → values !! j = Some kj →
      ki ∉ take i values → kj ∉ take j values →
      fact_labels r !! i = Some gi → fact_labels r !! j = Some gj → gi < gj)).
Proof.
  intros Hbound. split.
  - rewrite group_labels_unfold. cbn zeta. unfold fact_labels, fact_reverse.
    cbn [fst snd].
    apply gl_inv_labels_spec. by apply group_labels_inv.
  - pose proof (gl_inv_labels_spec (λ _ _ : K, false) values _
                  (factorize_inv junk_l junk_c values Hbound))
      as (Hlen & _ & Hrev & Hnew & Hinc).
    cbn zeta. unfold factorize, fact_labels, fact_reverse. cbn [fst snd].
    cbn [ht_as_gl gl_labels gl_reverse] in Hlen, Hrev, Hnew, Hinc.
    split; [done|]. split; [|split].
    + intros i k Hk. by apply Hrev.
    + intros i k Hk Hnin. rewrite (Hnew i k Hk eq_refl Hnin).
      by rewrite filter_never.
    + intros i j ki kj gi gj Hij Hki Hkj. by apply Hinc.
Qed.

(** C7: for fewer than 2^31 keys, the counts returned by [group_labels]
    have one entry per distinct non-missing key -- [reverse] maps the
    indices of [counts] one-to-one onto those keys --, [counts[g]] is the
    number of occurrences of the key [reverse[g]], and the counts add up to
    the number of non-missing elements. *)
Theorem group_labels_counts (junk_l junk_c : nat → Z) (values : list K) :
  Z.of_nat (length values) < 2 ^ 31 →
  let r := group_labels py_ne junk_l junk_c values in
  length (fact_counts r) =
    length (remove_dups (filter (λ v, py_ne v v = false) values)) ∧
  (∀ g k, fact_reverse r !! g = Some k →
     0 ≤ g ∧
     fact_counts r !! Z.to_nat g = Some (Z.of_nat (occurrences k values))) ∧
  (∀ g' : nat, (g' < length (fact_counts r))%nat →
     ∃ k, fact_reverse r !! Z.of_nat g' = Some k ∧ k ∈ values ∧
          py_ne k k = false) ∧
  (∀ k, k ∈ values → py_ne k k = false → ∃ g, fact_reverse r !! g = Some k) ∧
  (∀ g1 g2 k, fact_reverse r !! g1 = Some k → fact_reverse r !! g2 = Some k →
     g1 = g2) ∧
  sum_counts (fact_counts r) =
    Z.of_nat (length (filter (λ v, py_ne v v = false) values)).
Proof.
  intros Hbound. rewrite group_labels_unfold. cbn zeta.
  unfold fact_counts, fact_reverse. cbn [fst snd].
  apply gl_inv_counts_spec. by apply group_labels_inv.
Qed.
End factorize_theorems.

(** The scenario of the specification: keys a b a c b a. *)
Example group_labels_scenario :
  let r := group_labels pyobj_ne (λ _, 0) (λ _, 0)
             [PyStr "a"; PyStr "b"; PyStr "a"; PyStr "c"; PyStr "b"; PyStr "a"] in
  fact_labels r = [0; 1; 0; 2; 1; 0] ∧ fact_counts r = [3; 2; 1] ∧
  fact_reverse r !! 0 = Some (PyStr "a") ∧ fact_reverse r !! 1 = Some (PyStr "b") ∧
  fact_reverse r !! 2 = Some (PyStr "c").
Proof. vm_compute. repeat split. Qed.

Lemma factorize_labels_witness :
  fact_labels (group_labels pyobj_ne (λ _, 0) (λ _, 0)
                 [PyStr "a"; PyNaN; PyStr "b"; PyStr "a"]) !! 1%nat = Some (-1) ∧
  ∃ g, fact_labels (factorize (λ _, 0) (λ _, 0)
                      [PyStr "a"; PyNaN; PyStr "b"; PyStr "a"] ∅).1 !! 1%nat
         = Some g ∧ 0 ≤ g.
Proof.
  destruct (factorize_labels pyobj_ne (λ _, 0) (λ _, 0)
              [PyStr "a"; PyNaN; PyStr "b"; PyStr "a"])
    as ((_ & Hmiss & _) & (_ & Hrev & _)).
  - simpl. lia.
  - split.
    + apply (Hmiss 1%nat PyNaN); reflexivity.
    + destruct (Hrev 1%nat PyNaN eq_refl) as (g & Hg & Hpos & _).
      by exists g.
Defined.

Lemma group_labels_counts_witness :
  sum_counts (fact_counts (group_labels pyobj_ne (λ _, 0) (λ _, 0)
                [PyStr "a"; PyStr "b"; PyStr "a"; PyStr "c"; PyStr "b"; PyStr "a"]))
    = 6.
Proof.
  destruct (group_labels_counts pyobj_ne (λ _, 0) (λ _, 0)
              [PyStr "a"; PyStr "b"; PyStr "a"; PyStr "c"; PyStr "b"; PyStr "a"])
    as (_ & _ & _ & _ & _ & Hsum).
  - simpl. lia.
  - rewrite Hsum. reflexivity.
Defined.

(** ** groupsort_indexer *)

Lemma equal_to_cons (l x : Z) (index : list Z) :
  equal_to l (x :: index) =
  if decide (x = l) then S (equal_to l index) else equal_to l index.
Proof.
  unfold equal_to. rewrite filter_cons. by destruct (decide (x = l)).
Qed.

Lemma equal_to_app (l : Z) (index index' : list Z) :
  equal_to l (index ++ index') = (equal_to l index + equal_to l index')%nat.
Proof. unfold equal_to. by rewrite filter_app, length_app. Qed.

Lemma smaller_succ (l : Z) (index : list Z) :
  smaller (l + 1) index = (smaller l index + equal_to l index)%nat.
Proof.
  unfold smaller, equal_to.
  induction index as [|x index IH]; [done|].
  rewrite !filter_cons.
  destruct (decide (x < l)), (decide (x = l)), (decide (x < l + 1));
    cbn [length]; lia.
Qed.

Lemma smaller_mono (l l' : Z) (index : list Z) :
  l ≤ l' → (smaller l index ≤ smaller l' index)%nat.
Proof.
  intros Hl. unfold smaller.
  induction index as [|x index IH]; [done|].
  rewrite !filter_cons.
  destruct (decide (x < l)), (decide (x < l')); cbn [length]; lia.
Qed.

Lemma smaller_le_length (l : Z) (index : list Z) :
  (smaller l index ≤ length index)%nat.
Proof. unfold smaller. apply length_filter. Qed.

Lemma smaller_none (l : Z) (index : list Z) :
  Forall (λ x, l ≤ x) index → smaller l index = 0%nat.
Proof.
  unfold smaller. induction 1 as [|x index Hx _ IH]; [done|].
  rewrite filter_cons, decide_False by lia. done.
Qed.

(** The labels equal to [l] before position [i] include the one at an
    earlier position [j]. *)
Lemma equal_to_take_lt (index : list Z) (i j : nat) (l : Z) :
  index !! j = Some l → (j < i)%nat →
  (equal_to l (take j index) < equal_to l (take i index))%nat.
Proof.
  intros Hj Hji.
  rewrite <- (take_drop (S j) (take i index)), take_take, Nat.min_l by lia.
  rewrite (take_S_r _ _ _ Hj), !equal_to_app, equal_to_cons.
  rewrite decide_True by done. lia.
Qed.

Lemma equal_to_take_le (index : list Z) (i : nat) (l : Z) :
  (equal_to l (take i index) ≤ equal_to l index)%nat.
Proof.
  rewrite <- (take_drop i index) at 2. rewrite equal_to_app. lia.
Qed.

Lemma slot_eq (index : list Z) (j : nat) (l : Z) :
  index !! j = Some l →
  slot index j = (smaller l index + equal_to l (take j index))%nat.
Proof. intros Hj. unfold slot. by rewrite Hj. Qed.

Lemma slot_lt_length (index : list Z) (j : nat) :
  (j < length index)%nat → (slot index j < length index)%nat.
Proof.
  intros Hj. destruct (lookup_lt_is_Some_2 _ _ Hj) as [l Hl].
  rewrite (slot_eq _ _ _ Hl).
  pose proof (equal_to_take_lt index (length index) j l Hl Hj) as Hlt.
  rewrite (take_ge index (length index)) in Hlt by lia.
  pose proof (smaller_succ l index). pose proof (smaller_le_length (l + 1) index).
  lia.
Qed.

(** Positions with the same label keep their order. *)
Lemma slot_stable (index : list Z) (i j : nat) (l : Z) :
  (i < j)%nat → index !! i = Some l → index !! j = Some l →
  (slot index i < slot index j)%nat.
Proof.
  intros Hij Hi Hj. rewrite (slot_eq _ _ _ Hi), (slot_eq _ _ _ Hj).
  pose proof (equal_to_take_lt index j i l Hi Hij). lia.
Qed.

(** A position with a smaller label comes first. *)
Lemma slot_ordered (index : list Z) (i j : nat) (li lj : Z) :
  index !! i = Some li → index !! j = Some lj → li < lj →
  (slot index i < slot index j)%nat.
Proof.
  intros Hi Hj Hl. rewrite (slot_eq _ _ _ Hi), (slot_eq _ _ _ Hj).
  pose proof (lookup_lt_Some _ _ _ Hi) as Hil.
  pose proof (equal_to_take_lt index (length index) i li Hi Hil) as Hlt.
  rewrite (take_ge index (length index)) in Hlt by lia.
  pose proof (smaller_succ li index).
  pose proof (smaller_mono (li + 1) lj index ltac:(lia)). lia.
Qed.

Lemma slot_inj (index : list Z) (i j : nat) :
  (i < length index)%nat → (j < length index)%nat →
  slot index i = slot index j → i = j.
Proof.
  intros Hi Hj Heq.
  destruct (lookup_lt_is_Some_2 _ _ Hi) as [li Hli].
  destruct (lookup_lt_is_Some_2 _ _ Hj) as [lj Hlj].
  destruct (Z.lt_trichotomy li lj) as [Hlt|[->|Hgt]].
  - pose proof (slot_ordered index i j li lj Hli Hlj Hlt). lia.
  - destruct (Nat.lt_trichotomy i j) as [Hij|[->|Hji]]; [|done|].
    + pose proof (slot_stable index i j lj Hij Hli Hlj). lia.
    + pose proof (slot_stable index j i lj Hji Hlj Hli). lia.
  - pose proof (slot_ordered index j i lj li Hlj Hli Hgt). lia.
Qed.

(** The first loop counts, in cell [l + 1], the labels equal to [l]. *)
Lemma count_groups_spec (index counts : list Z) :
  Forall (λ l, -1 ≤ l ∧ l + 1 < Z.of_nat (length counts)) index →
  ∃ counts', count_groups index counts = Ok counts' ∧
    length counts' = length counts ∧
    ∀ (b : nat) c, counts !! b = Some c →
      counts' !! b = Some (incr_times (equal_to (Z.of_nat b - 1) index) c).
Proof.
  revert counts. induction index as [|l index IH]; intros counts Hin.
  - exists counts. repeat split; done.
  - apply Forall_cons in Hin as [[Hlo Hhi] Hin].
    destruct (lookup_lt_is_Some_2 counts (Z.to_nat (l + 1))) as [c0 Hc0]; [lia|].
    cbn [count_groups].
    rewrite (get_Ok_Z counts (l + 1) c0 ltac:(lia) Hc0). cbn [mbind res_bind].
    rewrite set_Ok_Z by lia. cbn [mbind res_bind].
    destruct (IH (<[Z.to_nat (l + 1) := wrap32 (c0 + 1)]> counts))
      as (counts' & -> & Hlen & Hcell).
    { by rewrite length_insert. }
    rewrite length_insert in Hlen.
    exists counts'. split; [done|]. split; [done|].
    intros b c Hc. rewrite equal_to_cons.
    specialize (Hcell b). rewrite (lookup_after_store _ _ b _ _ Hc0) in Hcell.
    destruct (decide (Z.to_nat (l + 1) = b)) as [<-|Hne].
    + rewrite decide_True by lia. rewrite incr_times_S.
      apply Hcell. congruence.
    + rewrite decide_False by lia. by apply Hcell.
Qed.

(** The second loop leaves, in cell [l + 1], the number of labels below
    [l]. *)
Lemma mark_starts_spec (index counts : list Z) (k i : nat) (where_ : list Z) :
  Z.of_nat (length index) < 2 ^ 31 →
  (1 ≤ i)%nat → (i + k ≤ length where_)%nat → (i + k ≤ length counts)%nat →
  (∀ b : nat, (b < length counts)%nat →
     counts !! b = Some (Z.of_nat (equal_to (Z.of_nat b - 1) index))) →
  (∀ b : nat, (b < i)%nat →
     where_ !! b = Some (Z.of_nat (smaller (Z.of_nat b - 1) index))) →
  ∃ where', mark_starts k (Z.of_nat i) counts where_ = Ok where' ∧
    length where' = length where_ ∧
    ∀ b : nat, (b < i + k)%nat →
      where' !! b = Some (Z.of_nat (smaller (Z.of_nat b - 1) index)).
Proof.
  intros Hbound. revert i where_.
  induction k as [|k IH]; intros i where_ Hi Hlw Hlc Hcounts Hwhere.
  - exists where_. split; [done|]. split; [done|].
    intros b Hb. apply Hwhere. lia.
  - cbn [mark_starts].
    replace (Z.of_nat i - 1) with (Z.of_nat (i - 1)) by lia.
    rewrite (get_Ok _ _ _ (Hwhere (i - 1)%nat ltac:(lia))). cbn [mbind res_bind].
    rewrite (get_Ok _ _ _ (Hcounts (i - 1)%nat ltac:(lia))). cbn [mbind res_bind].
    rewrite set_Ok by lia. cbn [mbind res_bind].
    replace (Z.of_nat i + 1) with (Z.of_nat (S i)) by lia.
    assert (Hsum : wrap32 (Z.of_nat (smaller (Z.of_nat (i - 1) - 1) index) +
                           Z.of_nat (equal_to (Z.of_nat (i - 1) - 1) index)) =
                   Z.of_nat (smaller (Z.of_nat i - 1) index)).
    { pose proof (smaller_succ (Z.of_nat (i - 1) - 1) index) as Hs.
      replace (Z.of_nat (i - 1) - 1 + 1) with (Z.of_nat i - 1) in Hs by lia.
      pose proof (smaller_le_length (Z.of_nat i - 1) index).
      rewrite wrap32_id by lia. lia. }
    rewrite Hsum.
    destruct (IH (S i) (<[i := Z.of_nat (smaller (Z.of_nat i - 1) index)]> where_))
      as (where' & -> & Hlen & Hcell); rewrite ?length_insert; try lia; try done.
    + intros b Hb. destruct (decide (b = i)) as [->|Hne].
      * apply list_lookup_insert_eq. lia.
      * rewrite list_lookup_insert_ne by lia. apply Hwhere. lia.
    + exists where'. split; [done|]. split; [by rewrite Hlen, length_insert|].
      intros b Hb. apply Hcell. lia.
Qed.

(** The third loop stores each position in its slot. *)
Lemma place_indices_spec (index pre rest : list Z) (where_ result : list Z) :
  index = pre ++ rest →
  Z.of_nat (length index) < 2 ^ 31 →
  Forall (λ l, -1 ≤ l ∧ l + 1 < Z.of_nat (length where_)) index →
  length result = length index →
  (∀ b : nat, (b < length where_)%nat →
     where_ !! b =
       Some (Z.of_nat (smaller (Z.of_nat b - 1) index +
                       equal_to (Z.of_nat b - 1) pre))) →
  (∀ j : nat, (j < length pre)%nat →
     result !! slot index j = Some (Z.of_nat j)) →
  ∃ result', place_indices rest (Z.of_nat (length pre)) where_ result = Ok result' ∧
    length result' = length index ∧
    ∀ j : nat, (j < length index)%nat →
      result' !! slot index j = Some (Z.of_nat j).
Proof.
  revert pre where_ result.
  induction rest as [|l rest IH]; intros pre where_ result Hidx Hbound Hin Hlr Hw Hres.
  - exists result. rewrite app_nil_r in Hidx. subst pre. repeat split; done.
  - assert (Hl : index !! length pre = Some l).
    { rewrite Hidx. by apply list_lookup_middle. }
    pose proof (lookup_lt_Some _ _ _ Hl) as Hlt.
    assert (Hlin : -1 ≤ l ∧ l + 1 < Z.of_nat (length where_)).
    { rewrite Forall_forall in Hin. apply Hin.
      by apply list_elem_of_lookup_2 in Hl. }
    assert (Hpre : take (length pre) index = pre).
    { rewrite Hidx. apply take_app_length. }
    assert (Hslot : slot index (length pre) =
                    (smaller l index + equal_to l pre)%nat).
    { by rewrite (slot_eq _ _ _ Hl), Hpre. }
    pose proof (slot_lt_length index (length pre) Hlt) as Hslt.
    pose proof (Hw (Z.to_nat (l + 1)) ltac:(lia)) as Hwl.
    replace (Z.of_nat (Z.to_nat (l + 1)) - 1) with l in Hwl by lia.
    rewrite <- Hslot in Hwl.
    cbn [place_indices]. cbv zeta.
    rewrite (get_Ok_Z where_ (l + 1) _ ltac:(lia) Hwl). cbn [mbind res_bind].
    rewrite set_Ok by lia. cbn [mbind res_bind].
    rewrite set_Ok_Z by lia. cbn [mbind res_bind].
    rewrite !wrap32_id by lia.
    replace (Z.of_nat (length pre) + 1) with (Z.of_nat (length (pre ++ [l])))
      by (rewrite length_app; simpl; lia).
    destruct (IH (pre ++ [l])
                (<[Z.to_nat (l + 1) := Z.of_nat (slot index (length pre)) + 1]> where_)
                (<[slot index (length pre) := Z.of_nat (length pre)]> result))
      as (result' & -> & Hlen & Hcell); rewrite ?length_insert; try done.
    + by rewrite <- app_assoc.
    + intros b Hb. rewrite equal_to_app, equal_to_cons.
      change (equal_to (Z.of_nat b - 1) []) with 0%nat.
      destruct (decide (b = Z.to_nat (l + 1))) as [->|Hne].
      * rewrite list_lookup_insert_eq by lia.
        rewrite decide_True by lia. rewrite Hslot.
        replace (Z.of_nat (Z.to_nat (l + 1)) - 1) with l by lia.
        f_equal. lia.
      * rewrite list_lookup_insert_ne by lia.
        rewrite decide_False by lia. rewrite (Hw b Hb). f_equal. lia.
    + intros j Hj. rewrite length_app in Hj. simpl in Hj.
      destruct (decide (j = length pre)) as [->|Hne].
      * apply list_lookup_insert_eq. lia.
      * rewrite list_lookup_insert_ne; [apply Hres; lia|].
        intros Heq. apply slot_inj in Heq; lia.
    + by exists result'.
Qed.

(** Every position below the length is the slot of some position. *)
Lemma slot_surj (index : list Z) (p : nat) :
  (p < length index)%nat →
  ∃ j, (j < length index)%nat ∧ slot index j = p.
Proof.
  intros Hp.
  assert (Hperm : slot index <$> seq 0 (length index) ≡ₚ seq 0 (length index)).
  { apply submseteq_length_Permutation.
    - apply NoDup_submseteq.
      + apply NoDup_fmap_2_strong; [|apply NoDup_seq].
        intros x y Hx%elem_of_seq Hy%elem_of_seq. apply slot_inj; lia.
      + intros x (j & -> & Hj%elem_of_seq)%list_elem_of_fmap.
        apply elem_of_seq. pose proof (slot_lt_length index j). lia.
    - by rewrite length_fmap. }
  assert (Hin : p ∈ slot index <$> seq 0 (length index)).
  { rewrite Hperm. apply elem_of_seq. lia. }
  apply list_elem_of_fmap in Hin as (j & -> & Hj%elem_of_seq).
  exists j. split; [lia|done].
Qed.

(** [groupsort_indexer] succeeds and stores every position in its slot. *)
Lemma groupsort_slots (index : list Z) (ngroups : Z) :
  0 ≤ ngroups → Forall (λ l, -1 ≤ l < ngroups) index →
  Z.of_nat (length index) < 2 ^ 31 →
  ∃ result, groupsort_indexer index ngroups = Ok result ∧
    length result = length index ∧
    ∀ j : nat, (j < length index)%nat →
      result !! slot index j = Some (Z.of_nat j).
Proof.
  intros Hng Hin Hbound. unfold groupsort_indexer, np_zeros.
  destruct (Z.ltb_spec (ngroups + 1) 0) as [?|_]; [lia|].
  destruct (Z.ltb_spec (Z.of_nat (length index)) 0) as [?|_]; [lia|].
  cbn [mbind res_bind].
  set (B := Z.to_nat (ngroups + 1)).
  assert (Hin' : Forall (λ l, -1 ≤ l ∧ l + 1 < Z.of_nat B) index).
  { eapply Forall_impl; [exact Hin|]. simpl. intros l Hl. lia. }
  destruct (count_groups_spec index (replicate B 0)) as (counts & -> & Hlc & Hcounts).
  { by rewrite length_replicate. }
  rewrite length_replicate in Hlc. cbn [mbind res_bind].
  assert (Hcounts' : ∀ b : nat, (b < length counts)%nat →
            counts !! b = Some (Z.of_nat (equal_to (Z.of_nat b - 1) index))).
  { intros b Hb. rewrite (Hcounts b 0) by (apply lookup_replicate_2; lia).
    f_equal. rewrite incr_times_no_wrap; [lia|lia|].
    pose proof (length_filter (λ x, x = Z.of_nat b - 1) index).
    unfold equal_to. lia. }
  destruct (mark_starts_spec index counts (Z.to_nat ngroups) 1 (replicate B 0))
    as (where_ & Hwhere & Hlw & Hcell); rewrite ?length_replicate; try lia; try done.
  { intros b Hb. replace b with 0%nat by lia.
    rewrite lookup_replicate_2 by lia. f_equal.
    rewrite smaller_none; [done|].
    eapply Forall_impl; [exact Hin|]. simpl. intros l Hl. lia. }
  change (Z.of_nat 1) with 1 in Hwhere. rewrite Hwhere. cbn [mbind res_bind].
  rewrite length_replicate in Hlw.
  destruct (place_indices_spec index [] index where_
              (replicate (Z.to_nat (Z.of_nat (length index))) 0))
    as (result & Hres & Hlr & Hslots); rewrite ?length_replicate; try lia; try done.
  - by rewrite Hlw.
  - intros b Hb. rewrite Hcell by lia. f_equal. unfold equal_to. simpl. lia.
  - simpl. intros j Hj. lia.
  - change (Z.of_nat (length [])) with 0 in Hres. by exists result.
Qed.

Lemma take_by_lookup (index result : list Z) (p j : nat) (l : Z) :
  result !! p = Some (Z.of_nat j) → index !! j = Some l →
  take_by index result !! p = Some l.
Proof.
  intros Hp Hj. unfold take_by.
  rewrite list_lookup_fmap, Hp. simpl. by rewrite Nat2Z.id, Hj.
Qed.

(** A list that holds every position [j < n] at a slot of its own is a
    permutation of the positions. *)
Lemma slots_permutation (index result : list Z) :
  length result = length index →
  (∀ j : nat, (j < length index)%nat →
     result !! slot index j = Some (Z.of_nat j)) →
  result ≡ₚ Z.of_nat <$> seq 0 (length index).
Proof.
  intros Hlen Hslots.
  symmetry. apply submseteq_length_Permutation.
  - apply NoDup_submseteq.
    + apply NoDup_fmap_2; [apply _|apply NoDup_seq].
    + intros x (j & -> & Hj%elem_of_seq)%list_elem_of_fmap.
      apply (list_elem_of_lookup_2 _ (slot index j)). apply Hslots. lia.
  - by rewrite length_fmap, length_seq, Hlen.
Qed.

(** C4: for labels in [[-1, ngroups)], fewer than 2^31 of them,
    [groupsort_indexer] returns a permutation of the positions [0 .. n-1];
    the labels read in that order are ascending, so equal labels form
    contiguous runs and the positions labelled [-1] come first. *)
Theorem groupsort_indexer_groups (index : list Z) (ngroups : Z) :
  0 ≤ ngroups → Forall (λ l, -1 ≤ l < ngroups) index →
  Z.of_nat (length index) < 2 ^ 31 →
  ∃ result, groupsort_indexer index ngroups = Ok result ∧
    result ≡ₚ Z.of_nat <$> seq 0 (length index) ∧
    (∀ (p q : nat) lp lq, (p < q)%nat →
       take_by index result !! p = Some lp →
       take_by index result !! q = Some lq → lp ≤ lq) ∧
    (∀ (p q r : nat) l, (p ≤ q ≤ r)%nat →
       take_by index result !! p = Some l →
       take_by index result !! r = Some l →
       take_by index result !! q = Some l) ∧
    (∀ (p q : nat), (p < q)%nat →
       take_by index result !! q = Some (-1) →
       take_by index result !! p = Some (-1)).
Proof.
  intros Hng Hin Hbound.
  destruct (groupsort_slots index ngroups Hng Hin Hbound)
    as (result & Hrun & Hlen & Hslots).
  exists result. split; [done|].
  assert (Hread : ∀ p : nat, (p < length index)%nat →
            ∃ j l, slot index j = p ∧ index !! j = Some l ∧
                   take_by index result !! p = Some l).
  { intros p Hp. destruct (slot_surj index p Hp) as (j & Hj & <-).
    destruct (lookup_lt_is_Some_2 _ _ Hj) as [l Hl].
    exists j, l. split; [done|]. split; [done|].
    by apply (take_by_lookup _ _ _ j); [apply Hslots|]. }
  assert (Hlt : ∀ (p : nat) l, take_by index result !! p = Some l →
            (p < length index)%nat).
  { intros p l Hp%lookup_lt_Some. unfold take_by in Hp.
    rewrite length_fmap in Hp. lia. }
  assert (Hsorted : ∀ (p q : nat) lp lq, (p < q)%nat →
            take_by index result !! p = Some lp →
            take_by index result !! q = Some lq → lp ≤ lq).
  { intros p q lp lq Hpq Hp Hq.
    destruct (Hread p (Hlt _ _ Hp)) as (jp & lp' & Hsp & Hjp & Hp').
    destruct (Hread q (Hlt _ _ Hq)) as (jq & lq' & Hsq & Hjq & Hq').
    rewrite Hp in Hp'. rewrite Hq in Hq'. simplify_eq.
    destruct (Z.le_gt_cases lp' lq') as [?|Hgt]; [done|].
    pose proof (slot_ordered index jq jp lq' lp' Hjq Hjp ltac:(lia)). lia. }
  assert (Hmin : ∀ (p : nat) l, take_by index result !! p = Some l → -1 ≤ l).
  { intros p l Hp. destruct (Hread p (Hlt _ _ Hp)) as (j & l' & _ & Hj & Hp').
    rewrite Hp in Hp'. simplify_eq.
    rewrite Forall_forall in Hin.
    apply list_elem_of_lookup_2, Hin in Hj. lia. }
  split; [|split; [done|split]].
  - by apply slots_permutation.
  - intros p q r l Hpqr Hp Hr.
    destruct (Hread q) as (j & lq & _ & _ & Hq).
    { apply Hlt in Hr. lia. }
    rewrite Hq. f_equal.
    destruct (decide (p = q)) as [->|Hpq]; [congruence|].
    destruct (decide (q = r)) as [->|Hqr]; [congruence|].
    pose proof (Hsorted p q l lq ltac:(lia) Hp Hq).
    pose proof (Hsorted q r lq l ltac:(lia) Hq Hr). lia.
  - intros p q Hpq Hq.
    destruct (Hread p) as (j & lp & _ & _ & Hp).
    { apply Hlt in Hq. lia. }
    rewrite Hp. f_equal.
    pose proof (Hsorted p q lp (-1) Hpq Hp Hq).
    pose proof (Hmin p lp Hp). lia.
Qed.

(** C9: [groupsort_indexer] is stable: two positions [i < j] with the same
    label, [-1] included, appear in the result in that order. *)
Theorem groupsort_indexer_stable (index : list Z) (ngroups : Z) :
  0 ≤ ngroups → Forall (λ l, -1 ≤ l < ngroups) index →
  Z.of_nat (length index) < 2 ^ 31 →
  ∃ result, groupsort_indexer index ngroups = Ok result ∧
    ∀ (i j : nat) l, (i < j)%nat →
      index !! i = Some l → index !! j = Some l →
      ∃ p q : nat, (p < q)%nat ∧
        result !! p = Some (Z.of_nat i) ∧ result !! q = Some (Z.of_nat j) ∧
        (∀ p' : nat, result !! p' = Some (Z.of_nat i) → p' = p) ∧
        (∀ q' : nat, result !! q' = Some (Z.of_nat j) → q' = q).
Proof.
  intros Hng Hin Hbound.
  destruct (groupsort_slots index ngroups Hng Hin Hbound)
    as (result & Hrun & Hlen & Hslots).
  exists result. split; [done|].
  assert (Hnd : NoDup result).
  { rewrite (slots_permutation index result Hlen Hslots).
    apply NoDup_fmap_2; [apply _|apply NoDup_seq]. }
  intros i j l Hij Hi Hj.
  pose proof (lookup_lt_Some _ _ _ Hi) as Hil.
  pose proof (lookup_lt_Some _ _ _ Hj) as Hjl.
  exists (slot index i), (slot index j).
  split; [by apply (slot_stable index i j l)|].
  split; [by apply Hslots|]. split; [by apply Hslots|].
  split; intros p' Hp'.
  - apply (NoDup_lookup _ _ _ _ Hnd Hp'). by apply Hslots.
  - apply (NoDup_lookup _ _ _ _ Hnd Hp'). by apply Hslots.
Qed.

Lemma groupsort_indexer_groups_witness :
  ∃ result, groupsort_indexer [1; -1; 0; 1; 0; -1; 2] 3 = Ok result ∧
            take_by [1; -1; 0; 1; 0; -1; 2] result = [-1; -1; 0; 0; 1; 1; 2].
Proof.
  destruct (groupsort_indexer_groups [1; -1; 0; 1; 0; -1; 2] 3)
    as (result & Hrun & _).
  - lia.
  - repeat constructor; lia.
  - simpl. lia.
  - exists result. split; [exact Hrun|].
    vm_compute in Hrun. injection Hrun as <-. reflexivity.
Defined.

Lemma groupsort_indexer_stable_witness :
  ∃ result, groupsort_indexer [1; -1; 0; 1; 0; -1; 2] 3 = Ok result ∧
    ∃ p q : nat, (p < q)%nat ∧ result !! p = Some 1 ∧ result !! q = Some 5.
Proof.
  destruct (groupsort_indexer_stable [1; -1; 0; 1; 0; -1; 2] 3)
    as (result & Hrun & Hstable).
  - lia.
  - repeat constructor; lia.
  - simpl. lia.
  - exists result. split; [exact Hrun|].
    destruct (Hstable 1%nat 5%nat (-1)) as (p & q & Hpq & Hp & Hq & _);
      [lia|reflexivity|reflexivity|].
    by exists p, q.
Defined.

(** ** is_lexsorted *)





(** ** group_labels2 *)

Section group_labels2_facts.
Context {K : Type} `{Countable K}.
Variable py_ne : K → K → bool.

Lemma group_labels2_body_sim (i : nat) (val : K) (st : gl_state) :
  group_labels2_body py_ne i val (gl_without_counts st) =
  gl_without_counts (group_labels_body py_ne i val st).
Proof.
  unfold group_labels2_body, group_labels_body, gl_without_counts.
  cbn [gl2_labels gl2_ids gl2_reverse gl2_count].
  destruct (py_ne val val); [done|].
  destruct (gl_ids st !! val); done.
Qed.

Lemma group_labels2_loop_sim (values : list K) (i : nat) (st : gl_state) :
  group_labels2_loop py_ne values i (gl_without_counts st) =
  gl_without_counts (group_labels_loop py_ne values i st).
Proof.
  revert i st. induction values as [|val rest IH]; intros i st; [done|].
  cbn [group_labels2_loop group_labels_loop].
  rewrite group_labels2_body_sim. apply IH.
Qed.

(** X2: [group_labels2] returns the reverse map and the labels of
    [group_labels], for every input (missing keys, repeated keys and the
    content of the fresh arrays included). *)
Theorem group_labels2_agrees (junk_l junk_c : nat → Z) (values : list K) :
  group_labels2 py_ne junk_l values =
  (fact_reverse (group_labels py_ne junk_l junk_c values),
   fact_labels (group_labels py_ne junk_l junk_c values)).
Proof.
  unfold group_labels2, group_labels, fact_reverse, fact_labels.
  cbn [fst snd].
  pose proof (group_labels2_loop_sim values 0
    (GlState (np_empty junk_l (length values)) (np_empty junk_c (length values))
             ∅ ∅ 0)) as Hsim.
  unfold gl_without_counts at 1 in Hsim.
  cbn [gl_labels gl_ids gl_reverse gl_count] in Hsim.
  rewrite Hsim. done.
Qed.

End group_labels2_facts.

(** ** group_labels: labels are assigned as the values come *)

Section group_labels_online.
Context {K : Type} `{Countable K}.
Variable py_ne : K → K → bool.

Local Abbreviation miss := (λ v : K, py_ne v v).

(** X3: the label of a position does not depend on the values after it:
    [group_labels] on [values ++ more] (fewer than 2^31 in all) gives, on
    the positions of [values], the labels it gives on [values] alone; the
    reverse map only grows, and no count goes down. *)
Theorem group_labels_online (junk_l junk_c junk_l' junk_c' : nat → Z)
    (values more : list K) :
  Z.of_nat (length (values ++ more)) < 2 ^ 31 →
  let r := group_labels py_ne junk_l junk_c values in
  let r' := group_labels py_ne junk_l' junk_c' (values ++ more) in
  take (length values) (fact_labels r') = fact_labels r ∧
  fact_reverse r ⊆ fact_reverse r' ∧
  ∀ (g : nat) c, fact_counts r !! g = Some c →
    ∃ c', fact_counts r' !! g = Some c' ∧ c ≤ c'.
Proof.
  intros Hn r r'.
  assert (Hn0 : Z.of_nat (length values) < 2 ^ 31).
  { rewrite length_app in Hn. lia. }
  pose proof (group_labels_inv py_ne junk_l junk_c values Hn0) as Hinv.
  pose proof (group_labels_inv py_ne junk_l' junk_c' (values ++ more) Hn) as Hinv'.
  unfold r, r'. rewrite !group_labels_unfold. cbn zeta.
  unfold fact_labels, fact_reverse, fact_counts. cbn [fst snd].
  set (st := group_labels_loop py_ne values 0 _) in *.
  set (st' := group_labels_loop py_ne (values ++ more) 0 _) in *.
  destruct Hinv as [Hl Hc Hcount Hids Hrev Hocc Hmiss Hlab Hnew].
  destruct Hinv' as [Hl' Hc' Hcount' Hids' Hrev' Hocc' Hmiss' Hlab' Hnew'].
  set (u := first_seen miss values) in *.
  set (u' := first_seen miss (values ++ more)) in *.
  assert (Hpre : u `prefix_of` u') by apply first_seen_app_prefix.
  assert (Hnd' : NoDup u') by apply first_seen_NoDup.
  split; [|split].
  - apply list_eq_same_length with (length values).
    + done.
    + rewrite length_take, Hl', length_app. lia.
    + intros i l l' Hi Hll Hll'.
      rewrite lookup_take_lt in Hll by done.
      destruct (lookup_lt_is_Some_2 values i Hi) as [k Hk].
      assert (Hk' : (values ++ more) !! i = Some k) by (by apply lookup_app_l_Some).
      destruct (py_ne k k) eqn:Hm.
      * rewrite (Hmiss i k Hk Hm) in Hll'. rewrite (Hmiss' i k Hk' Hm) in Hll.
        congruence.
      * destruct (Hlab i k Hk Hm) as (g & Hg & Hug).
        destruct (Hlab' i k Hk' Hm) as (g' & Hg' & Hug').
        assert (u' !! g = Some k) as Hug2 by (by eapply prefix_lookup_Some).
        assert (g' = g) as -> by (by eapply (NoDup_lookup u')).
        congruence.
  - apply map_subseteq_spec. intros g k Hg.
    apply Hrev in Hg as (g' & -> & Hug). apply Hrev'.
    exists g'. split; [done|]. by eapply prefix_lookup_Some.
  - intros g c Hg.
    apply lookup_take_Some in Hg as [Hg Hglt].
    rewrite Hcount, Nat2Z.id in Hglt.
    destruct (lookup_lt_is_Some_2 u g Hglt) as [k Hug].
    rewrite (Hocc g k Hug) in Hg. injection Hg as <-.
    assert (u' !! g = Some k) as Hug' by (by eapply prefix_lookup_Some).
    exists (Z.of_nat (occurrences k (values ++ more))). split.
    + rewrite lookup_take_lt.
      * by apply Hocc'.
      * rewrite Hcount', Nat2Z.id. by eapply lookup_lt_Some.
    + unfold occurrences. rewrite filter_app, length_app. lia.
Qed.

End group_labels_online.

Lemma group_labels_online_witness :
  take 2 (fact_labels (group_labels pyobj_ne (λ _, 0) (λ _, 0)
                         ([PyStr "b"; PyStr "a"] ++ [PyStr "a"; PyStr "c"])))
  = fact_labels (group_labels pyobj_ne (λ _, 5) (λ _, 5) [PyStr "b"; PyStr "a"]).
Proof.
  destruct (group_labels_online pyobj_ne (λ _, 5) (λ _, 5) (λ _, 0) (λ _, 0)
              [PyStr "b"; PyStr "a"] [PyStr "a"; PyStr "c"]) as (Hlab & _).
  - reflexivity.
  - exact Hlab.
Defined.

(** ** arrmap, groupby_func, groupby_indices_naive, groupby_indices *)

Lemma arrmap_loop_spec {A B} (func : A → B) (index : list A) (i : nat)
    (result : list B) :
  (i + length index ≤ length result)%nat →
  arrmap_loop func index i result =
  take i result ++ (func <$> index) ++ drop (i + length index) result.
Proof.
  revert i result. induction index as [|x rest IH]; intros i result Hlen.
  - simpl. rewrite Nat.add_0_r, take_drop. done.
  - cbn [arrmap_loop]. rewrite IH by (rewrite length_insert; simpl in *; lia).
    simpl in Hlen.
    rewrite take_insert_snoc by lia.
    rewrite drop_insert_lt by lia.
    rewrite <- app_assoc. simpl.
    repeat f_equal. lia.
Qed.

Lemma arrmap_fmap {A B} (junk : nat → B) (index : list A) (func : A → B) :
  arrmap junk index func = func <$> index.
Proof.
  unfold arrmap. rewrite arrmap_loop_spec by (rewrite np_empty_length; lia).
  rewrite take_0, drop_ge by (rewrite np_empty_length; lia).
  simpl. by rewrite app_nil_r.
Qed.

Lemma unless_empty_snoc {A} (l : list A) (x : A) :
  unless_empty (l ++ [x]) = Some (l ++ [x]).
Proof. destruct l; done. Qed.

Section groupby_facts.
Context {A K : Type} `{Countable K}.
Variable isnullobj : list K → list bool.

Lemma positions_of_S (values : list K) (mask : list bool) (key : K) (n : nat) :
  positions_of values mask key (S n) =
  positions_of values mask key n ++
  (if decide (values !! n = Some key ∧ mask !! n = Some false)
   then [Z.of_nat n] else []).
Proof.
  unfold positions_of. rewrite seq_S, filter_app, fmap_app. simpl.
  f_equal. rewrite filter_cons, filter_nil.
  destruct (decide _); done.
Qed.

Lemma groupby_indices_naive_loop_snoc (mask : list bool) (l : list K) (x : K)
    (i : nat) (result : gmap K (list Z)) :
  groupby_indices_naive_loop mask (l ++ [x]) i result =
  (r ← groupby_indices_naive_loop mask l i result;
   groupby_indices_naive_body mask (i + length l) x r).
Proof.
  revert i result. induction l as [|y l IH]; intros i result.
  - simpl. rewrite Nat.add_0_r.
    destruct (groupby_indices_naive_body mask i x result); done.
  - cbn [groupby_indices_naive_loop app].
    destruct (groupby_indices_naive_body mask i y result) as [r|e]; [|done].
    cbn [mbind res_bind]. rewrite IH. simpl.
    replace (S (i + length l))%nat with (i + S (length l))%nat by lia. done.
Qed.

Lemma groupby_indices_naive_prefix (values : list K) (mask : list bool)
    (pre : list K) :
  length mask = length values → pre `prefix_of` values →
  ∃ result, groupby_indices_naive_loop mask pre 0 ∅ = Ok result ∧
    ∀ key, result !! key =
           unless_empty (positions_of values mask key (length pre)).
Proof.
  intros Hmask. induction pre as [|x pre IH] using rev_ind; intros Hpre.
  - exists ∅. split; [done|]. intros key. by rewrite lookup_empty.
  - destruct IH as (result & Hres & Hkeys).
    { etrans; [|exact Hpre]. by apply prefix_app_r. }
    rewrite groupby_indices_naive_loop_snoc, Hres. cbn [mbind res_bind].
    rewrite Nat.add_0_l.
    destruct Hpre as [post ->].
    assert (Hx : ((pre ++ [x]) ++ post) !! length pre = Some x).
    { rewrite <- app_assoc. simpl. by rewrite list_lookup_middle. }
    destruct (lookup_lt_is_Some_2 mask (length pre)) as [m Hm].
    { rewrite Hmask, !length_app. simpl. lia. }
    unfold groupby_indices_naive_body.
    rewrite (get_Ok mask (length pre) m Hm). cbn [mbind res_bind].
    rewrite length_app. simpl. rewrite Nat.add_1_r.
    destruct m.
    + exists result. split; [done|]. intros key.
      rewrite positions_of_S, Hkeys.
      rewrite decide_False by (rewrite Hm; intros [_ ?]; done).
      by rewrite app_nil_r.
    + rewrite Hkeys.
      assert (Hupd : ∀ key,
        positions_of ((pre ++ [x]) ++ post) mask key (S (length pre)) =
        positions_of ((pre ++ [x]) ++ post) mask key (length pre) ++
        (if decide (x = key) then [Z.of_nat (length pre)] else [])).
      { intros key. rewrite positions_of_S. f_equal.
        rewrite Hx, Hm. destruct (decide (x = key)) as [->|Hne].
        - by rewrite decide_True.
        - rewrite decide_False; [done|]. intros [[= ?] _]. done. }
      destruct (unless_empty
                  (positions_of ((pre ++ [x]) ++ post) mask x (length pre)))
        as [members|] eqn:Hmem.
      * eexists. split; [done|]. intros key. rewrite Hupd.
        destruct (decide (x = key)) as [<-|Hne].
        -- rewrite lookup_insert_eq.
           destruct (positions_of _ mask x (length pre)); [done|].
           simpl in Hmem. injection Hmem as <-. done.
        -- rewrite lookup_insert_ne by done. by rewrite app_nil_r.
      * eexists. split; [done|]. intros key. rewrite Hupd.
        destruct (decide (x = key)) as [<-|Hne].
        -- rewrite lookup_insert_eq.
           destruct (positions_of _ mask x (length pre)); done.
        -- rewrite lookup_insert_ne by done. by rewrite app_nil_r.
Qed.

(** X4: [groupby_indices_naive] maps every key to the ascending list of
    the unmasked positions that hold it, and has no entry for a key
    without such a position. *)
Theorem groupby_indices_naive_positions (values : list K) :
  length (isnullobj values) = length values →
  ∃ result, groupby_indices_naive isnullobj values = Ok result ∧
    ∀ key, result !! key =
           unless_empty
             (positions_of values (isnullobj values) key (length values)).
Proof.
  intros Hmask. unfold groupby_indices_naive.
  by apply groupby_indices_naive_prefix.
Qed.

End groupby_facts.

Section groupby_func_facts.
Context {A K : Type} `{Countable K}.
Variable isnullobj : list K → list bool.

Lemma groupby_func_loop_snoc (mapped : list K) (mask : list bool)
    (l : list A) (x : A) (i : nat) (result : gmap K (list A)) :
  groupby_func_loop mapped mask (l ++ [x]) i result =
  (r ← groupby_func_loop mapped mask l i result;
   groupby_func_body mapped mask (i + length l) x r).
Proof.
  revert i result. induction l as [|y l IH]; intros i result.
  - simpl. rewrite Nat.add_0_r.
    destruct (groupby_func_body mapped mask i x result); done.
  - cbn [groupby_func_loop app].
    destruct (groupby_func_body mapped mask i y result) as [r|e]; [|done].
    cbn [mbind res_bind]. rewrite IH. simpl.
    replace (S (i + length l))%nat with (i + S (length l))%nat by lia. done.
Qed.

Lemma members_of_snoc (pre : list A) (x : A) (mask : list bool) (m : bool)
    (mapper : A → K) (key : K) :
  mask !! length pre = Some m →
  members_of (pre ++ [x]) mask mapper key =
  members_of pre mask mapper key ++
  (if decide (mapper x = key ∧ m = false) then [x] else []).
Proof.
  intros Hm. unfold members_of.
  assert (zip (pre ++ [x]) mask = zip pre mask ++ [(x, m)]) as ->.
  { rewrite <- (take_drop (length pre) mask) at 1.
    rewrite zip_with_app by (rewrite length_take; apply lookup_lt_Some in Hm; lia).
    rewrite (drop_S _ m _ Hm). simpl. f_equal.
    apply zip_with_take_r. }
  rewrite filter_app, fmap_app. f_equal.
  rewrite filter_cons, filter_nil. simpl.
  repeat case_decide; simpl in *; try done; tauto.
Qed.

Lemma groupby_func_prefix (index : list A) (mapper : A → K) (mask : list bool)
    (pre : list A) :
  length mask = length index → pre `prefix_of` index →
  ∃ result,
    groupby_func_loop (mapper <$> index) mask pre 0 ∅ = Ok result ∧
    ∀ key, result !! key = unless_empty (members_of pre mask mapper key).
Proof.
  intros Hmask. induction pre as [|x pre IH] using rev_ind; intros Hpre.
  - exists ∅. split; [done|]. intros key. by rewrite lookup_empty.
  - destruct IH as (result & Hres & Hkeys).
    { etrans; [|exact Hpre]. by apply prefix_app_r. }
    rewrite groupby_func_loop_snoc, Hres. cbn [mbind res_bind].
    rewrite Nat.add_0_l.
    destruct Hpre as [post ->].
    assert (Hx : (mapper <$> (pre ++ [x]) ++ post) !! length pre = Some (mapper x)).
    { rewrite list_lookup_fmap, <- app_assoc. simpl.
      by rewrite list_lookup_middle. }
    destruct (lookup_lt_is_Some_2 mask (length pre)) as [m Hm].
    { rewrite Hmask, !length_app. simpl. lia. }
    unfold groupby_func_body.
    rewrite (get_Ok mask (length pre) m Hm). cbn [mbind res_bind].
    destruct m.
    + exists result. split; [done|]. intros key.
      rewrite (members_of_snoc pre x mask true mapper key Hm), Hkeys.
      rewrite decide_False by (intros [_ ?]; done).
      by rewrite app_nil_r.
    + rewrite (get_Ok _ _ _ Hx). cbn [mbind res_bind]. rewrite Hkeys.
      assert (Hupd : ∀ key,
        members_of (pre ++ [x]) mask mapper key =
        members_of pre mask mapper key ++
        (if decide (mapper x = key) then [x] else [])).
      { intros key. rewrite (members_of_snoc pre x mask false mapper key Hm).
        f_equal. repeat case_decide; try done; tauto. }
      destruct (unless_empty (members_of pre mask mapper (mapper x)))
        as [members|] eqn:Hmem.
      * eexists. split; [done|]. intros key. rewrite Hupd.
        destruct (decide (mapper x = key)) as [<-|Hne].
        -- rewrite lookup_insert_eq.
           destruct (members_of pre mask mapper (mapper x)); [done|].
           simpl in Hmem. injection Hmem as <-. done.
        -- rewrite lookup_insert_ne by done. by rewrite app_nil_r.
      * eexists. split; [done|]. intros key. rewrite Hupd.
        destruct (decide (mapper x = key)) as [<-|Hne].
        -- rewrite lookup_insert_eq.
           destruct (members_of pre mask mapper (mapper x)); done.
        -- rewrite lookup_insert_ne by done. by rewrite app_nil_r.
Qed.

(** X5: [groupby_func] maps every key to the elements of [index], in their
    order, whose mapped key it is and that are not masked, and has no entry
    for a key without such an element; [func_groupby_indices] maps the same
    keys to the positions of those elements. *)
Theorem groupby_func_members (junk : nat → K) (index : list A)
    (mapper : A → K) :
  Z.of_nat (length index) < 2 ^ 31 →
  length (isnullobj (mapper <$> index)) = length index →
  let mask := isnullobj (mapper <$> index) in
  ∃ members positions,
    groupby_func isnullobj junk index mapper = Ok members ∧
    func_groupby_indices isnullobj junk index mapper = Ok positions ∧
    (∀ key, members !! key = unless_empty (members_of index mask mapper key)) ∧
    (∀ key, positions !! key =
            unless_empty (positions_of (mapper <$> index) mask key (length index))).
Proof.
  intros _ Hmask mask.
  unfold groupby_func, func_groupby_indices. rewrite arrmap_fmap.
  destruct (groupby_func_prefix index mapper mask index Hmask)
    as (members & Hmem & Hmembers); [done|].
  destruct (groupby_indices_naive_prefix (mapper <$> index) mask
              (mapper <$> index))
    as (positions & Hpos & Hpositions); [by rewrite length_fmap|done|].
  exists members, positions. repeat split; try done.
  intros key. rewrite Hpositions. by rewrite length_fmap.
Qed.

End groupby_func_facts.

Lemma groupby_func_members_witness :
  ∃ members,
    groupby_func (λ l, (λ k, bool_decide (k = PyNaN)) <$> l) (λ _, PyNaN)
      [1; 2; 3; 4]
      (λ n, if decide (n = 2) then PyNaN else if Z.even n then PyStr "even"
            else PyStr "odd") = Ok members ∧
    members !! PyStr "odd" = Some [1; 3] ∧ members !! PyStr "even" = Some [4] ∧
    members !! PyNaN = None.
Proof.
  destruct (groupby_func_members (λ l, (λ k, bool_decide (k = PyNaN)) <$> l)
              (λ _, PyNaN) [1; 2; 3; 4]
              (λ n, if decide (n = 2) then PyNaN else if Z.even n then PyStr "even"
                    else PyStr "odd"))
    as (members & positions & Hmem & _ & Hmembers & _).
  - reflexivity.
  - reflexivity.
  - exists members. split; [exact Hmem|].
    rewrite !Hmembers. repeat split; reflexivity.
Defined.

Lemma groupby_indices_naive_positions_witness :
  ∃ result,
    groupby_indices_naive (λ l, (λ k, bool_decide (k = PyNaN)) <$> l)
      [PyStr "a"; PyNaN; PyStr "b"; PyStr "a"] = Ok result ∧
    result !! PyStr "a" = Some [0; 3] ∧ result !! PyNaN = None.
Proof.
  destruct (groupby_indices_naive_positions
              (λ l, (λ k, bool_decide (k = PyNaN)) <$> l)
              [PyStr "a"; PyNaN; PyStr "b"; PyStr "a"])
    as (result & Hres & Hkeys).
  - reflexivity.
  - exists result. split; [exact Hres|].
    rewrite !Hkeys. split; reflexivity.
Defined.

Lemma filter_none {A} (P : A → Prop) `{∀ x, Decision (P x)} (l : list A) :
  Forall (λ x, ¬ P x) l → filter P l = [].
Proof.
  induction 1 as [|x l Hx _ IH]; [done|].
  rewrite filter_cons, decide_False by done. exact IH.
Qed.

Section groupby_indices_facts.
Context {K : Type} `{Countable K}.
Variable py_ne : K → K → bool.

Local Abbreviation miss := (λ v : K, py_ne v v).

(** The result of [group_labels] in terms of the first-seen keys. *)
Lemma group_labels_shape (junk_l junk_c : nat → Z) (values : list K) :
  Z.of_nat (length values) < 2 ^ 31 →
  let r := group_labels py_ne junk_l junk_c values in
  let u := first_seen miss values in
  fact_counts r = (λ k, Z.of_nat (occurrences k values)) <$> u ∧
  (∀ (g : nat) k, u !! g = Some k → fact_reverse r !! Z.of_nat g = Some k) ∧
  length (fact_labels r) = length values ∧
  (∀ (i : nat) k, values !! i = Some k → py_ne k k = true →
     fact_labels r !! i = Some (-1)) ∧
  (∀ (i : nat) k, values !! i = Some k → py_ne k k = false →
     ∃ g : nat, fact_labels r !! i = Some (Z.of_nat g) ∧ u !! g = Some k).
Proof.
  intros Hn r u.
  pose proof (group_labels_inv py_ne junk_l junk_c values Hn) as Hinv.
  unfold r. rewrite group_labels_unfold.
  cbn zeta. unfold fact_counts, fact_reverse, fact_labels. cbn [fst snd].
  set (st := group_labels_loop py_ne values 0 _) in *.
  destruct Hinv as [Hl Hc Hcount Hids Hrev Hocc Hmiss Hlab Hnew].
  repeat split.
  - apply list_eq. intros g. rewrite Hcount, Nat2Z.id.
    rewrite list_lookup_fmap.
    destruct (u !! g) as [k|] eqn:Hg.
    + rewrite lookup_take_lt by (apply lookup_lt_Some in Hg; done).
      simpl. by apply Hocc.
    + rewrite lookup_take_ge by (apply lookup_ge_None in Hg; done). done.
  - intros g k Hg. apply Hrev. eauto.
  - done.
  - intros i k Hi Hk. by eapply Hmiss.
  - intros i k Hi Hk. by eapply Hlab.
Qed.

Lemma groupby_indices_alloc_spec (junk : nat → nat → Z) (ids : gmap Z K)
    (u_rest : list K) (f : K → nat) (i : nat) (result : gmap K nat)
    (vecs : list (list Z)) :
  NoDup u_rest →
  (∀ (j : nat) k, u_rest !! j = Some k → ids !! Z.of_nat (i + j) = Some k) →
  ∃ result' vecs',
    groupby_indices_alloc junk ids ((λ k, Z.of_nat (f k)) <$> u_rest) i
      result vecs = Ok (result', vecs') ∧
    length vecs' = (length vecs + length u_rest)%nat ∧
    (∀ g, (g < length vecs)%nat → vecs' !! g = vecs !! g) ∧
    (∀ (j : nat) k, u_rest !! j = Some k →
       result' !! k = Some (i + j)%nat ∧
       ∃ arr, vecs' !! (length vecs + j)%nat = Some arr ∧ length arr = f k) ∧
    (∀ k, k ∉ u_rest → result' !! k = result !! k).
Proof.
  revert i result vecs.
  induction u_rest as [|k0 u_rest IH]; intros i result vecs Hnd Hids.
  - exists result, vecs. simpl. repeat split; try done; lia.
  - apply NoDup_cons in Hnd as [Hk0 Hnd].
    cbn [fmap list_fmap groupby_indices_alloc].
    destruct (Z.ltb_spec (Z.of_nat (f k0)) 0); [lia|].
    pose proof (Hids 0%nat k0 eq_refl) as Hid0.
    rewrite Nat.add_0_r in Hid0. rewrite Hid0.
    destruct (IH (S i) (<[k0 := i]> result)
                (vecs ++ [np_empty (junk i) (Z.to_nat (Z.of_nat (f k0)))]) Hnd)
      as (result' & vecs' & Hrun & Hlen & Hold & Hnew & Hother).
    { intros j k Hj. replace (S i + j)%nat with (i + S j)%nat by lia.
      by apply Hids. }
    exists result', vecs'. split; [exact Hrun|].
    rewrite length_app in Hlen. simpl in Hlen.
    split; [simpl; lia|]. split.
    { intros g Hg. rewrite Hold by (rewrite length_app; simpl; lia).
      by rewrite lookup_app_l. }
    split.
    + intros [|j] k Hj.
      * simpl in Hj. injection Hj as <-. split.
        -- rewrite Hother by done. rewrite lookup_insert_eq. f_equal. lia.
        -- rewrite Nat.add_0_r, Hold by (rewrite length_app; simpl; lia).
           rewrite list_lookup_middle by done. eexists. split; [done|].
           rewrite np_empty_length. lia.
      * simpl in Hj. destruct (Hnew j k Hj) as [Hr (arr & Harr & Hla)].
        split.
        -- rewrite Hr. f_equal. lia.
        -- exists arr. split; [|done]. rewrite <- Harr.
           rewrite length_app. simpl. f_equal. lia.
    + intros k Hk. apply not_elem_of_cons in Hk as [Hne Hk].
      rewrite Hother by done. by rewrite lookup_insert_ne.
Qed.

Lemma positions_filter_S (values : list K) (k : K) (i : nat) :
  filter (λ p, values !! p = Some k) (seq 0 (S i)) =
  filter (λ p, values !! p = Some k) (seq 0 i) ++
  (if decide (values !! i = Some k) then [i] else []).
Proof.
  rewrite seq_S, filter_app. simpl. f_equal.
Qed.

Lemma occurrences_take_S (values : list K) (k x : K) (i : nat) :
  values !! i = Some x →
  occurrences k (take (S i) values) =
  if decide (x = k) then S (occurrences k (take i values))
  else occurrences k (take i values).
Proof.
  intros Hx. rewrite (take_S_r _ _ _ Hx). apply occurrences_snoc.
Qed.

Lemma occurrences_take_lt (values : list K) (x : K) (i : nat) :
  values !! i = Some x →
  (occurrences x (take i values) < occurrences x values)%nat.
Proof.
  intros Hx.
  rewrite <- (take_drop (S i) values) at 2.
  unfold occurrences at 2. rewrite filter_app, length_app.
  fold (occurrences x (take (S i) values)).
  rewrite (occurrences_take_S _ _ _ _ Hx), decide_True by done. lia.
Qed.

Lemma groupby_indices_fill_step (values u : list K) (labels : list Z) (i : nat)
    (x : K) (st : list (list Z) * list Z) :
  Z.of_nat (length values) < 2 ^ 31 →
  NoDup u → (∀ k, k ∈ u → py_ne k k = false) →
  values !! i = Some x →
  (py_ne x x = true → labels !! i = Some (-1)) →
  (py_ne x x = false →
   ∃ g : nat, labels !! i = Some (Z.of_nat g) ∧ u !! g = Some x) →
  fill_inv values u i st →
  ∃ st', groupby_indices_fill labels (Z.of_nat i) st = Ok st' ∧
         fill_inv values u (S i) st'.
Proof.
  intros Hn Hnd Hu Hx Hlabm Hlabg (Hl1 & Hl2 & Hinv).
  unfold groupby_indices_fill.
  destruct (py_ne x x) eqn:Hmiss.
  - rewrite (get_Ok labels i _ (Hlabm eq_refl)). cbn [mbind res_bind].
    exists st. split; [done|]. split; [done|]. split; [done|].
    intros g k Hg. destruct (Hinv g k Hg) as (Hseen & arr & Harr & Hlen & Htake).
    assert (x ≠ k).
    { intros ->. rewrite Hu in Hmiss; [done|]. by eapply list_elem_of_lookup_2. }
    rewrite (occurrences_take_S _ _ _ _ Hx), decide_False by done.
    split; [done|]. exists arr. repeat split; try done.
    rewrite positions_filter_S, Htake, Hx.
    rewrite decide_False by congruence. by rewrite app_nil_r.
  - destruct (Hlabg eq_refl) as (g & Hlab & Hg).
    rewrite (get_Ok labels i _ Hlab). cbn [mbind res_bind].
    destruct (Z.eqb_spec (Z.of_nat g) (-1)); [lia|].
    destruct (Hinv g x Hg) as (Hseen & arr & Harr & Hlen & Htake).
    pose proof (occurrences_take_lt values x i Hx) as Hlt.
    pose proof (occurrences_le x values) as Hle.
    apply lookup_lt_Some in Hx as Hi.
    rewrite (get_Ok _ _ _ Hseen). cbn [mbind res_bind].
    rewrite (get_Ok _ _ _ Harr). cbn [mbind res_bind].
    rewrite (set_Ok arr) by lia. cbn [mbind res_bind].
    rewrite (set_Ok st.1) by (rewrite Hl1; by eapply lookup_lt_Some).
    cbn [mbind res_bind].
    rewrite (set_Ok st.2) by (rewrite Hl2; by eapply lookup_lt_Some).
    cbn [mbind res_bind].
    eexists. split; [done|]. unfold fill_inv. cbn [fst snd].
    split; [by rewrite length_insert|]. split; [by rewrite length_insert|].
    intros g' k Hg'.
    destruct (Hinv g' k Hg') as (Hseen' & arr' & Harr' & Hlen' & Htake').
    rewrite (occurrences_take_S _ _ _ _ Hx), positions_filter_S, Hx.
    destruct (decide (g = g')) as [<-|Hne].
    + assert (k = x) as -> by congruence.
      rewrite decide_True by done. rewrite decide_True by done.
      rewrite !list_lookup_insert_eq
        by (first [rewrite Hl1|rewrite Hl2]; by eapply lookup_lt_Some).
      split.
      { f_equal. rewrite wrap32_id by lia. lia. }
      eexists. split; [done|]. rewrite length_insert. split; [done|].
      rewrite take_insert_snoc by lia.
      rewrite Htake, fmap_app. simpl. rewrite wrap32_id by lia. done.
    + assert (x ≠ k).
      { intros ->. pose proof (NoDup_lookup _ _ _ _ Hnd Hg Hg'). done. }
      rewrite decide_False by done. rewrite decide_False by congruence.
      rewrite !list_lookup_insert_ne by done.
      split; [done|]. exists arr'. rewrite app_nil_r. done.
Qed.

Lemma groupby_indices_fill_loop (values u : list K) (labels : list Z)
    (st0 : list (list Z) * list Z) (i : nat) :
  Z.of_nat (length values) < 2 ^ 31 →
  NoDup u → (∀ k, k ∈ u → py_ne k k = false) →
  (∀ (j : nat) x, values !! j = Some x → py_ne x x = true →
     labels !! j = Some (-1)) →
  (∀ (j : nat) x, values !! j = Some x → py_ne x x = false →
     ∃ g : nat, labels !! j = Some (Z.of_nat g) ∧ u !! g = Some x) →
  fill_inv values u 0 st0 →
  (i ≤ length values)%nat →
  ∃ st, for_range (groupby_indices_fill labels) i 0 st0 = Ok st ∧
        fill_inv values u i st.
Proof.
  intros Hn Hnd Hu Hlabm Hlabg Hinit.
  induction i as [|i IH]; intros Hi.
  - exists st0. done.
  - destruct IH as (st & Hrun & Hinv); [lia|].
    destruct (lookup_lt_is_Some_2 values i ltac:(lia)) as [x Hx].
    destruct (groupby_indices_fill_step values u labels i x st Hn Hnd Hu Hx
                (Hlabm i x Hx) (Hlabg i x Hx) Hinv) as (st' & Hstep & Hinv').
    exists st'. split; [|done].
    replace (S i) with (i + 1)%nat by lia.
    rewrite for_range_app, Hrun. cbn [mbind res_bind for_range].
    rewrite Z.add_0_l, Hstep. done.
Qed.

(** X6: for fewer than 2^31 values [groupby_indices] returns, never
    writing outside the arrays it allocates; it maps every key that occurs
    and equals itself to the ascending list of its positions and has no
    entry for any other key.  This is the result of
    [groupby_indices_naive] when its mask is the test [val != val]. *)
Theorem groupby_indices_positions (isnullobj : list K → list bool)
    (junk : nat → nat → Z) (junk_l junk_c : nat → Z) (values : list K) :
  Z.of_nat (length values) < 2 ^ 31 →
  let mask := (λ v, py_ne v v) <$> values in
  ∃ result,
    groupby_indices py_ne junk junk_l junk_c values = Ok result ∧
    (∀ key, result !! key =
            unless_empty (positions_of values mask key (length values))) ∧
    (isnullobj values = mask →
     groupby_indices_naive isnullobj values = Ok result).
Proof.
  intros Hn mask.
  destruct (group_labels_shape junk_l junk_c values Hn)
    as (Hcounts & Hrev & Hllen & Hlabm & Hlabg).
  set (u := first_seen miss values) in *.
  assert (Hnd : NoDup u) by apply first_seen_NoDup.
  assert (Hu : ∀ k, k ∈ u → py_ne k k = false).
  { intros k Hk. by apply first_seen_elem in Hk as [_ ?]. }
  unfold groupby_indices. rewrite Hcounts.
  destruct (groupby_indices_alloc_spec junk
              (fact_reverse (group_labels py_ne junk_l junk_c values)) u
              (λ k, occurrences k values) 0 ∅ [] Hnd)
    as (res0 & vecs0 & Halloc & Hvlen & _ & Hnew & Hother).
  { intros j k Hj. rewrite Nat.add_0_l. by apply Hrev. }
  rewrite Halloc. cbn [mbind res_bind fst snd].
  destruct (groupby_indices_fill_loop values u
              (fact_labels (group_labels py_ne junk_l junk_c values))
              (vecs0, replicate (length ((λ k, Z.of_nat (occurrences k values)) <$> u)) 0)
              (length values) Hn Hnd Hu Hlabm Hlabg)
    as (st & Hrun & Hl1 & Hl2 & Hinv); [|lia|].
  { split; [simpl in *; lia|]. split.
    { cbn [snd]. by rewrite length_replicate, length_fmap. }
    intros g k Hg. cbn [fst snd]. rewrite take_0. simpl. split.
    - rewrite lookup_replicate_2; [done|].
      rewrite length_fmap. by eapply lookup_lt_Some.
    - destruct (Hnew g k Hg) as (_ & arr & Harr & Hlen).
      exists arr. split; [done|]. split; [done|]. done. }
  rewrite Hrun. cbn [mbind res_bind].
  assert (Hfilter : ∀ key, py_ne key key = false →
    positions_of values mask key (length values) =
    Z.of_nat <$> filter (λ p, values !! p = Some key) (seq 0 (length values))).
  { intros key Hkey. unfold positions_of. f_equal.
    apply list_filter_iff. intros p. split; [by intros [? _]|].
    intros Hp. split; [done|]. unfold mask.
    by rewrite list_lookup_fmap, Hp; simpl; rewrite Hkey. }
  assert (Hempty : ∀ key, key ∉ u →
    positions_of values mask key (length values) = []).
  { intros key Hkey. unfold positions_of.
    rewrite filter_none; [done|].
    apply Forall_forall. intros p _ [Hp Hm]. apply Hkey.
    apply first_seen_elem. split; [by eapply list_elem_of_lookup_2|].
    unfold mask in Hm. rewrite list_lookup_fmap, Hp in Hm. simpl in Hm.
    congruence. }
  assert (Hentries : ∀ key,
    ((λ r : nat, default [] (st.1 !! r)) <$> res0) !! key =
    unless_empty (positions_of values mask key (length values))).
  { intros key. rewrite lookup_fmap.
    destruct (decide (key ∈ u)) as [Hin|Hout].
    - apply list_elem_of_lookup_1 in Hin as [g Hg].
      destruct (Hnew g key Hg) as (Hres & _). rewrite Hres. simpl.
      destruct (Hinv g key Hg) as (_ & arr & Harr & Hlen & Htake).
      rewrite Harr. simpl.
      rewrite (take_ge values) in Htake by lia.
      rewrite take_ge in Htake by lia.
      rewrite Hfilter by (apply Hu; by eapply list_elem_of_lookup_2).
      rewrite <- Htake.
      destruct arr; [|done].
      assert (key ∈ values) as Hkv.
      { apply (first_seen_elem miss values key).
        by eapply list_elem_of_lookup_2. }
      pose proof (occurrences_take_lt values key) as Hlt.
      apply list_elem_of_lookup_1 in Hkv as [p Hp].
      specialize (Hlt p Hp). simpl in Hlen. lia.
    - rewrite Hother, lookup_empty by done. simpl.
      by rewrite Hempty. }
  eexists. split; [done|]. split; [exact Hentries|].
  intros Hmask.
  destruct (groupby_indices_naive_prefix values (isnullobj values) values) as (naive & Hnaive & Hkeys);
    [by rewrite Hmask; unfold mask; rewrite length_fmap|done|].
  unfold groupby_indices_naive. rewrite Hnaive. f_equal.
  apply map_eq. intros key. rewrite Hkeys, Hentries, Hmask. done.
Qed.

End groupby_indices_facts.

Lemma groupby_indices_positions_witness :
  ∃ result,
    groupby_indices pyobj_ne (λ _ _, 0) (λ _, 0) (λ _, 0)
      [PyStr "a"; PyNaN; PyStr "b"; PyStr "a"] = Ok result ∧
    result !! PyStr "a" = Some [0; 3] ∧ result !! PyNaN = None.
Proof.
  destruct (groupby_indices_positions pyobj_ne (λ _, []) (λ _ _, 0) (λ _, 0)
              (λ _, 0) [PyStr "a"; PyNaN; PyStr "b"; PyStr "a"])
    as (result & Hres & Hkeys & _).
  - reflexivity.
  - exists result. split; [exact Hres|].
    rewrite !Hkeys. split; reflexivity.
Defined.

(** ** groupsort_indexer: errors, sorted input, the runs of the result *)

Lemma count_groups_length (index counts counts' : list Z) :
  count_groups index counts = Ok counts' → length counts' = length counts.
Proof.
  revert counts. induction index as [|lab rest IH]; intros counts Hrun.
  - simpl in Hrun. by injection Hrun as <-.
  - cbn [count_groups] in Hrun.
    destruct (get counts (lab + 1)) as [c|e]; [|done].
    cbn [mbind res_bind] in Hrun.
    unfold set in Hrun. destruct (_ || _); [done|].
    cbn [mbind res_bind] in Hrun.
    apply IH in Hrun. by rewrite length_insert in Hrun.
Qed.

Lemma get_out_of_range {A} (arr : list A) (i : Z) :
  i < 0 ∨ Z.of_nat (length arr) ≤ i → get arr i = Err IndexError.
Proof.
  intros Hi. unfold get. destruct (Z.ltb_spec i 0); [done|].
  rewrite (proj2 (lookup_ge_None arr (Z.to_nat i))); [done|lia].
Qed.




Lemma smaller_app (l : Z) (index index' : list Z) :
  smaller l (index ++ index') = (smaller l index + smaller l index')%nat.
Proof. unfold smaller. by rewrite filter_app, length_app. Qed.

Lemma smaller_all (l : Z) (index : list Z) :
  Forall (λ x, x < l) index → smaller l index = length index.
Proof.
  unfold smaller. induction 1 as [|x index Hx _ IH]; [done|].
  rewrite filter_cons, decide_True by done. simpl. by rewrite IH.
Qed.

(** In a sequence in ascending order every position is its own slot. *)
Lemma slot_sorted (index : list Z) (j : nat) :
  (∀ (i i' : nat) li li', (i < i')%nat →
     index !! i = Some li → index !! i' = Some li' → li ≤ li') →
  (j < length index)%nat → slot index j = j.
Proof.
  intros Hsorted Hj.
  destruct (lookup_lt_is_Some_2 index j Hj) as [l Hl].
  rewrite (slot_eq index j l Hl).
  rewrite <- (take_drop j index) at 1.
  rewrite smaller_app.
  rewrite (smaller_none l (drop j index)).
  2:{ apply Forall_forall. intros x Hx.
      apply list_elem_of_lookup_1 in Hx as [i Hi]. rewrite lookup_drop in Hi.
      destruct (decide (i = 0%nat)) as [->|].
      - rewrite Nat.add_0_r in Hi. assert (x = l) by congruence. lia.
      - eapply (Hsorted j (j + i)%nat); [lia|done..]. }
  pose proof (smaller_succ l (take j index)) as Hsucc.
  rewrite smaller_all in Hsucc.
  2:{ apply Forall_forall. intros x Hx.
      apply list_elem_of_lookup_1 in Hx as [i Hi].
      apply lookup_take_Some in Hi as [Hi Hij].
      pose proof (Hsorted i j x l Hij Hi Hl). lia. }
  rewrite length_take in Hsucc. lia.
Qed.

(** X8: on labels already in ascending order [groupsort_indexer] returns
    the identity [0, 1, ..., n - 1]. *)
Theorem groupsort_indexer_sorted_identity (index : list Z) (ngroups : Z) :
  0 ≤ ngroups → Forall (λ l, -1 ≤ l < ngroups) index →
  Z.of_nat (length index) < 2 ^ 31 →
  (∀ (i i' : nat) li li', (i < i')%nat →
     index !! i = Some li → index !! i' = Some li' → li ≤ li') →
  groupsort_indexer index ngroups = Ok (Z.of_nat <$> seq 0 (length index)).
Proof.
  intros Hng Hin Hn Hsorted.
  destruct (groupsort_slots index ngroups Hng Hin Hn) as (result & -> & Hlen & Hslots).
  f_equal. apply list_eq. intros j.
  destruct (decide (j < length index)%nat) as [Hj|Hj].
  - rewrite <- (slot_sorted index j Hsorted Hj) at 1.
    rewrite Hslots by done.
    rewrite list_lookup_fmap, lookup_seq_lt by done. done.
  - rewrite !(proj2 (lookup_ge_None _ _)); [done|..].
    + rewrite length_fmap, length_seq. lia.
    + lia.
Qed.

Lemma groupsort_indexer_sorted_identity_witness :
  groupsort_indexer [-1; -1; 0; 0; 1; 2] 3 = Ok [0; 1; 2; 3; 4; 5].
Proof.
  apply (groupsort_indexer_sorted_identity [-1; -1; 0; 0; 1; 2] 3).
  - lia.
  - repeat (apply Forall_cons; split; [simpl; lia|]). constructor.
  - reflexivity.
  - intros i i' li li' Hlt Hi Hi'.
    do 6 (destruct i as [|i]; [do 6 (destruct i' as [|i']; [simpl in *; simplify_eq; lia|]); done|]).
    done.
Defined.

(** The slot of a position with label [l] lies in the block of [l]: after
    the smaller labels and before the larger ones. *)
Lemma slot_run (index : list Z) (j : nat) (l : Z) :
  index !! j = Some l →
  (smaller l index ≤ slot index j < smaller l index + equal_to l index)%nat.
Proof.
  intros Hl. rewrite (slot_eq index j l Hl).
  pose proof (lookup_lt_Some _ _ _ Hl) as Hj.
  pose proof (equal_to_take_lt index (length index) j l Hl Hj) as Hlt.
  rewrite (take_ge index (length index)) in Hlt by lia. lia.
Qed.

Lemma run_label (index result : list Z) (p : nat) (l : Z) :
  length result = length index →
  (∀ j : nat, (j < length index)%nat →
     result !! slot index j = Some (Z.of_nat j)) →
  (p < length index)%nat →
  ∃ j lj, result !! p = Some (Z.of_nat j) ∧ index !! j = Some lj ∧
    (lj = l ↔ (smaller l index ≤ p < smaller l index + equal_to l index)%nat).
Proof.
  intros Hlen Hslots Hp.
  destruct (slot_surj index p Hp) as (j & Hj & <-).
  destruct (lookup_lt_is_Some_2 index j Hj) as [lj Hlj].
  exists j, lj. split; [by apply Hslots|]. split; [done|].
  pose proof (slot_run index j lj Hlj) as Hrun.
  split; [by intros <-|].
  intros Hin.
  destruct (Z.lt_trichotomy lj l) as [Hlt|[?|Hgt]]; [|done|].
  - pose proof (smaller_mono (lj + 1) l index ltac:(lia)).
    rewrite smaller_succ in *. lia.
  - pose proof (smaller_mono (l + 1) lj index ltac:(lia)).
    rewrite smaller_succ in *. lia.
Qed.

(** X9: in the result of [groupsort_indexer] the positions with label [l]
    occupy exactly the places from the number of smaller labels up to, not
    including, that number plus the number of labels equal to [l]. *)
Theorem groupsort_indexer_runs (index : list Z) (ngroups : Z) :
  0 ≤ ngroups → Forall (λ l, -1 ≤ l < ngroups) index →
  Z.of_nat (length index) < 2 ^ 31 →
  ∃ result, groupsort_indexer index ngroups = Ok result ∧
    ∀ (p : nat) l, (p < length index)%nat →
      (take_by index result !! p = Some l ↔
       (smaller l index ≤ p < smaller l index + equal_to l index)%nat).
Proof.
  intros Hng Hin Hn.
  destruct (groupsort_slots index ngroups Hng Hin Hn)
    as (result & Hres & Hlen & Hslots).
  exists result. split; [exact Hres|]. intros p l Hp.
  destruct (run_label index result p l Hlen Hslots Hp)
    as (j & lj & Hrp & Hlj & Hiff).
  rewrite (take_by_lookup index result p j lj Hrp Hlj).
  rewrite <- Hiff. split; [by intros [= ->]|by intros ->].
Qed.

Lemma groupsort_indexer_runs_witness :
  ∃ result, groupsort_indexer [1; -1; 0; 1; 0; -1; 2] 3 = Ok result ∧
    take_by [1; -1; 0; 1; 0; -1; 2] result !! 4%nat = Some 1.
Proof.
  destruct (groupsort_indexer_runs [1; -1; 0; 1; 0; -1; 2] 3)
    as (result & Hres & Hruns).
  - lia.
  - repeat (apply Forall_cons; split; [simpl; lia|]). constructor.
  - reflexivity.
  - exists result. split; [exact Hres|].
    apply Hruns; [simpl; lia|]. vm_compute. lia.
Defined.

(** ** group_labels followed by groupsort_indexer *)

Lemma filter_length_Forall2 {A B} (P : A → Prop) (Q : B → Prop)
    `{∀ x, Decision (P x)} `{∀ y, Decision (Q y)} (la : list A) (lb : list B) :
  Forall2 (λ a b, P a ↔ Q b) la lb →
  length (filter P la) = length (filter Q lb).
Proof.
  induction 1 as [|a b la lb Hab _ IH]; [done|].
  rewrite !filter_cons.
  destruct (decide (P a)), (decide (Q b)); simpl; try lia; tauto.
Qed.

Section group_labels_groupsort.
Context {K : Type} `{Countable K}.
Variable py_ne : K → K → bool.

Local Abbreviation miss := (λ v : K, py_ne v v).

(** X10: for fewer than 2^31 values the labels of [group_labels] are valid
    input of [groupsort_indexer] with [ngroups = len(counts)]; the result
    is a permutation of the positions in which the occurrences of every
    key form one block of [counts[g]] consecutive places, [g] the label of
    the key. *)
Theorem group_labels_then_groupsort (junk_l junk_c : nat → Z) (values : list K) :
  Z.of_nat (length values) < 2 ^ 31 →
  let r := group_labels py_ne junk_l junk_c values in
  ∃ result,
    groupsort_indexer (fact_labels r) (Z.of_nat (length (fact_counts r)))
      = Ok result ∧
    result ≡ₚ Z.of_nat <$> seq 0 (length values) ∧
    ∀ (g : nat) k c,
      fact_reverse r !! Z.of_nat g = Some k → fact_counts r !! g = Some c →
      ∃ start : nat, ∀ p : nat, (p < length values)%nat →
        ((∃ i : nat, result !! p = Some (Z.of_nat i) ∧ values !! i = Some k) ↔
         Z.of_nat start ≤ Z.of_nat p < Z.of_nat start + c).
Proof.
  intros Hn r.
  destruct (group_labels_shape py_ne junk_l junk_c values Hn)
    as (Hcounts & Hrev & Hllen & Hlabm & Hlabg).
  fold r in Hcounts, Hrev, Hllen, Hlabm, Hlabg.
  set (u := first_seen miss values) in *.
  set (labels := fact_labels r) in *.
  assert (Hnd : NoDup u) by apply first_seen_NoDup.
  assert (Hu : ∀ k, k ∈ u → py_ne k k = false).
  { intros k Hk. by apply first_seen_elem in Hk as [_ ?]. }
  assert (Hclen : length (fact_counts r) = length u).
  { by rewrite Hcounts, length_fmap. }
  assert (Hrange : Forall (λ l, -1 ≤ l < Z.of_nat (length (fact_counts r))) labels).
  { apply Forall_forall. intros l Hl.
    apply list_elem_of_lookup_1 in Hl as [i Hi].
    destruct (lookup_lt_is_Some_2 values i) as [x Hx].
    { rewrite <- Hllen. by eapply lookup_lt_Some. }
    destruct (py_ne x x) eqn:Hmiss.
    - rewrite (Hlabm i x Hx Hmiss) in Hi. injection Hi as <-. lia.
    - destruct (Hlabg i x Hx Hmiss) as (g & Hg & Hug).
      rewrite Hg in Hi. injection Hi as <-.
      apply lookup_lt_Some in Hug. lia. }
  destruct (groupsort_slots labels (Z.of_nat (length (fact_counts r))))
    as (result & Hres & Hlen & Hslots); [lia|done|lia|].
  exists result. split; [exact Hres|]. split.
  { rewrite <- Hllen. by apply slots_permutation. }
  intros g k c Hgk Hc.
  assert (Hug : u !! g = Some k).
  { destruct (lookup_lt_is_Some_2 u g) as [k' Hk'].
    { rewrite <- Hclen. by eapply lookup_lt_Some. }
    rewrite (Hrev g k' Hk') in Hgk. congruence. }
  assert (Hlabel : ∀ (j : nat) x l, values !! j = Some x → labels !! j = Some l →
            (l = Z.of_nat g ↔ x = k)).
  { intros j x l Hx Hl. destruct (py_ne x x) eqn:Hmiss.
    - rewrite (Hlabm j x Hx Hmiss) in Hl. injection Hl as <-.
      split; [lia|]. intros ->.
      rewrite Hu in Hmiss; [done|]. by eapply list_elem_of_lookup_2.
    - destruct (Hlabg j x Hx Hmiss) as (g' & Hg' & Hug').
      rewrite Hg' in Hl. injection Hl as <-. split.
      + intros Heq. assert (g' = g) as -> by lia. congruence.
      + intros ->. f_equal. by eapply (NoDup_lookup u). }
  assert (Hc' : c = Z.of_nat (equal_to (Z.of_nat g) labels)).
  { rewrite Hcounts, list_lookup_fmap, Hug in Hc. injection Hc as <-.
    f_equal. unfold occurrences, equal_to. symmetry.
    apply filter_length_Forall2.
    apply Forall2_same_length_lookup_2; [done|].
    intros j l x Hl Hx. by eapply Hlabel. }
  exists (smaller (Z.of_nat g) labels). intros p Hp.
  destruct (run_label labels result p (Z.of_nat g) Hlen Hslots)
    as (j & lj & Hrp & Hlj & Hiff); [lia|].
  destruct (lookup_lt_is_Some_2 values j) as [x Hx].
  { rewrite <- Hllen. by eapply lookup_lt_Some. }
  pose proof (Hlabel j x lj Hx Hlj) as Hxk.
  split.
  - intros (i & Hi & Hik). rewrite Hrp in Hi.
    assert (i = j) as -> by (injection Hi; lia).
    assert (x = k) as Hk by congruence. apply Hxk in Hk. apply Hiff in Hk. lia.
  - intros Hin. exists j. split; [done|].
    assert (lj = Z.of_nat g) as Hg by (apply Hiff; lia).
    apply Hxk in Hg. congruence.
Qed.

End group_labels_groupsort.

Lemma group_labels_then_groupsort_witness :
  ∃ result,
    groupsort_indexer
      (fact_labels (group_labels pyobj_ne (λ _, 0) (λ _, 0)
                      [PyStr "b"; PyNaN; PyStr "a"; PyStr "b"]))
      2 = Ok result ∧
    result ≡ₚ [0; 1; 2; 3].
Proof.
  destruct (group_labels_then_groupsort pyobj_ne (λ _, 0) (λ _, 0)
              [PyStr "b"; PyNaN; PyStr "a"; PyStr "b"])
    as (result & Hres & Hperm & _).
  - reflexivity.
  - exists result. split; [exact Hres|exact Hperm].
Defined.

(** ** group_add: the output; labels past the groups *)

(** X11: [group_add] stores NaN for a group without a non-missing
    observation and the sum of its non-missing observations, added in
    input order, for any other group. *)
Theorem group_add_output (out : list float) (counts : list Z)
    (values : list float) (labels : list Z) :
  length labels = length values →
  Forall (λ l, l < Z.of_nat (length counts)) labels →
  (length counts ≤ length out)%nat →
  ∃ out' counts',
    group_add out counts values labels = Ok (out', counts') ∧
    length out' = length out ∧
    ∀ g : nat, (g < length counts)%nat →
      let obs := group_obs (Z.of_nat g) labels values in
      (obs = [] → out' !! g = Some nan) ∧
      (obs ≠ [] → out' !! g = Some (sum_obs obs)).
Proof.
  intros Hlen Hin Hout. unfold group_add.
  rewrite pass_group_add by done.
  destruct (sums_pass_spec out counts values labels Hlen Hin Hout)
    as (st & -> & Hl1 & Hl2 & Hg). cbn [mbind res_bind].
  destruct (finalize_spec (group_add_fin st)
              (λ g, let obs := group_obs (Z.of_nat g) labels values in
                    if PrimFloat.eqb (count_obs obs) 0 then nan
                    else sum_obs obs)
              (length (s_counts st)) 0 out) as (out' & Hfin & Hlo & Hcell & _).
  - intros j Hj.
    destruct (lookup_lt_is_Some_2 counts j) as [c Hc]; [lia|].
    destruct (Hg j c Hc) as (_ & Hn & Hx).
    unfold group_add_fin.
    rewrite (get_Ok _ _ _ Hn). cbn [mbind res_bind].
    destruct (PrimFloat.eqb _ 0); [done|].
    by rewrite (get_Ok _ _ _ Hx).
  - lia.
  - change (Z.of_nat 0) with 0 in Hfin. rewrite Hfin. cbn [mbind res_bind].
    eexists _, _. split; [done|]. split; [done|].
    intros g Hglt. rewrite Hcell by lia. cbv zeta. split.
    + intros ->. reflexivity.
    + intros Hne. destruct (count_obs_at_least _ Hne) as [Hone _].
      by rewrite (at_least_not_zero _ Hone).
Qed.

Lemma group_add_output_witness :
  ∃ out' counts',
    group_add [0; 0]%float [0; 0] [1; nan; 2; nan]%float [0; 0; 0; 1]
      = Ok (out', counts') ∧
    out' !! 0%nat = Some 3%float ∧ out' !! 1%nat = Some nan.
Proof.
  destruct (group_add_output [0; 0]%float [0; 0] [1; nan; 2; nan]%float
              [0; 0; 0; 1]) as (out' & counts' & Hrun & _ & Hcell).
  - reflexivity.
  - repeat (apply Forall_cons; split; [simpl; lia|]). constructor.
  - simpl. lia.
  - exists out', counts'. split; [exact Hrun|]. split.
    + destruct (Hcell 0%nat) as [_ Hsum]; [simpl; lia|].
      rewrite Hsum; [reflexivity|]. vm_compute. discriminate.
    + destruct (Hcell 1%nat) as [Hnone _]; [simpl; lia|].
      apply Hnone. reflexivity.
Defined.

Lemma sums_fold_rejects (labels : list Z) (values : list float) (st : sums) :
  length labels = length values →
  Exists (λ l, Z.of_nat (length (s_counts st)) ≤ l) labels →
  (length (s_counts st) ≤ length (s_nobs st))%nat →
  length (s_sumx st) = length (s_nobs st) →
  fold_pairs sums_step (zip labels values) st = Err IndexError.
Proof.
  revert values st.
  induction labels as [|lab labels IH]; intros [|val values] st Hlen Hbad Hc Hx;
    try done.
  { by apply Exists_nil in Hbad. }
  simpl in Hlen.
  cbn [zip zip_with fold_pairs]. rewrite sums_step_eq.
  destruct (Z.ltb_spec lab 0) as [Hneg|Hpos]; cbn [mbind res_bind].
  - apply IH; try (done || lia).
    apply Exists_cons in Hbad as [?|?]; [lia|done].
  - destruct (decide (Z.of_nat (length (s_counts st)) ≤ lab)) as [Hout|Hinr].
    + unfold incr_at. rewrite get_out_of_range by lia. done.
    + apply Exists_cons in Hbad as [?|Hbad]; [done|].
      destruct (lookup_lt_is_Some_2 (s_counts st) (Z.to_nat lab)) as [c0 Hc0]; [lia|].
      destruct (lookup_lt_is_Some_2 (s_nobs st) (Z.to_nat lab)) as [n0 Hn0]; [lia|].
      destruct (lookup_lt_is_Some_2 (s_sumx st) (Z.to_nat lab)) as [x0 Hx0]; [lia|].
      rewrite (incr_at_Ok _ _ _ Hpos Hc0). cbn [mbind res_bind].
      destruct (not_nan val).
      * rewrite (add_at_Ok _ _ _ _ Hpos Hn0), (add_at_Ok _ _ _ _ Hpos Hx0).
        cbn [mbind res_bind].
        apply IH; cbn [s_counts s_nobs s_sumx]; rewrite ?length_insert;
          try (done || lia).
      * apply IH; cbn [s_counts s_nobs s_sumx]; rewrite ?length_insert;
          try (done || lia).
Qed.

Lemma moments_fold_rejects (labels : list Z) (values : list float) (st : moments) :
  length labels = length values →
  Exists (λ l, Z.of_nat (length (m_counts st)) ≤ l) labels →
  (length (m_counts st) ≤ length (m_nobs st))%nat →
  length (m_sumx st) = length (m_nobs st) →
  length (m_sumxx st) = length (m_nobs st) →
  fold_pairs moments_step (zip labels values) st = Err IndexError.
Proof.
  revert values st.
  induction labels as [|lab labels IH]; intros [|val values] st Hlen Hbad Hc Hx Hxx;
    try done.
  { by apply Exists_nil in Hbad. }
  simpl in Hlen.
  cbn [zip zip_with fold_pairs]. rewrite moments_step_eq.
  destruct (Z.ltb_spec lab 0) as [Hneg|Hpos]; cbn [mbind res_bind].
  - apply IH; try (done || lia).
    apply Exists_cons in Hbad as [?|?]; [lia|done].
  - destruct (decide (Z.of_nat (length (m_counts st)) ≤ lab)) as [Hout|Hinr].
    + unfold incr_at. rewrite get_out_of_range by lia. done.
    + apply Exists_cons in Hbad as [?|Hbad]; [done|].
      destruct (lookup_lt_is_Some_2 (m_counts st) (Z.to_nat lab)) as [c0 Hc0]; [lia|].
      destruct (lookup_lt_is_Some_2 (m_nobs st) (Z.to_nat lab)) as [n0 Hn0]; [lia|].
      destruct (lookup_lt_is_Some_2 (m_sumx st) (Z.to_nat lab)) as [x0 Hx0]; [lia|].
      destruct (lookup_lt_is_Some_2 (m_sumxx st) (Z.to_nat lab)) as [y0 Hy0]; [lia|].
      rewrite (incr_at_Ok _ _ _ Hpos Hc0). cbn [mbind res_bind].
      destruct (not_nan val).
      * rewrite (add_at_Ok _ _ _ _ Hpos Hn0), (add_at_Ok _ _ _ _ Hpos Hx0),
          (add_at_Ok _ _ _ _ Hpos Hy0).
        cbn [mbind res_bind].
        apply IH; cbn [m_counts m_nobs m_sumx m_sumxx]; rewrite ?length_insert;
          try (done || lia).
      * apply IH; cbn [m_counts m_nobs m_sumx m_sumxx]; rewrite ?length_insert;
          try (done || lia).
Qed.

(** X12: [group_add], [group_mean] and [group_var] raise [IndexError]
    when a label is [len(counts)] or more, the group arrays being as long
    as [counts] at least. *)
Theorem group_aggregates_reject_labels (out : list float) (counts : list Z)
    (values : list float) (labels : list Z) :
  length labels = length values →
  Exists (λ l, Z.of_nat (length counts) ≤ l) labels →
  (length counts ≤ length out)%nat →
  group_add out counts values labels = Err IndexError ∧
  group_mean out counts values labels = Err IndexError ∧
  group_var out counts values labels = Err IndexError.
Proof.
  intros Hlen Hbad Hout. unfold group_add, group_mean, group_var.
  rewrite pass_group_add, pass_group_mean, pass_group_var by done.
  rewrite sums_fold_rejects, moments_fold_rejects;
    cbn [s_counts s_nobs s_sumx m_counts m_nobs m_sumx m_sumxx];
    rewrite ?zeros_like_length; done.
Qed.

Lemma group_aggregates_reject_labels_witness :
  group_add [0; 0]%float [0; 0] [1; 2; 3]%float [0; 2; 1] = Err IndexError.
Proof.
  apply (group_aggregates_reject_labels [0; 0]%float [0; 0] [1; 2; 3]%float
           [0; 2; 1]).
  - reflexivity.
  - apply Exists_cons_tl, Exists_cons_hd. simpl. lia.
  - simpl. lia.
Defined.

(** ** PyObjectHashTable: set_item, map_locations, unique *)

Section hash_table_more_facts.
Context {K : Type} `{Countable K}.


Lemma map_locations_loop_snoc (l : list K) (x : K) (i : nat) (table : gmap K Z) :
  map_locations_loop (l ++ [x]) i table =
  kh_put (map_locations_loop l i table) x (Z.of_nat (i + length l)).
Proof.
  revert i table. induction l as [|y l IH]; intros i table.
  - simpl. by rewrite Nat.add_0_r.
  - cbn [map_locations_loop app]. rewrite IH. simpl.
    by replace (S (i + length l))%nat with (i + S (length l))%nat by lia.
Qed.

Lemma map_locations_last (values : list K) (table : gmap K Z) (key : K) :
  (∀ i : nat, values !! i = Some key →
     (∀ j, (i < j)%nat → values !! j ≠ Some key) →
     map_locations values table !! key = Some (Z.of_nat i)) ∧
  (key ∉ values → map_locations values table !! key = table !! key).
Proof.
  unfold map_locations.
  induction values as [|x values IH] using rev_ind.
  - split; [intros i Hi; done|done].
  - rewrite map_locations_loop_snoc, Nat.add_0_l. unfold kh_put.
    destruct IH as [IHin IHout]. split.
    + intros i Hi Hlast.
      destruct (decide (i = length values)) as [->|Hne].
      * rewrite list_lookup_middle in Hi by done. injection Hi as ->.
        by rewrite lookup_insert_eq.
      * assert (Hi' : (i < length values)%nat).
        { apply lookup_lt_Some in Hi. rewrite length_app in Hi. simpl in Hi. lia. }
        rewrite lookup_app_l in Hi by done.
        assert (x ≠ key).
        { intros ->. apply (Hlast (length values) Hi').
          by rewrite list_lookup_middle. }
        rewrite lookup_insert_ne by done. apply IHin; [done|].
        intros j Hj Hjk. apply (Hlast j Hj).
        rewrite lookup_app_l; [done|]. by eapply lookup_lt_Some.
    + intros Hnot. apply not_elem_of_app in Hnot as [Hnot Hx].
      rewrite lookup_insert_ne by (intros ->; apply Hx; by apply list_elem_of_singleton).
      by apply IHout.
Qed.

(** X14: after [map_locations(values)], [lookup_locations(values)] gives
    for every position the position of the last occurrence of its key
    (fewer than 2^31 values); [lookup_locations] of a key that is neither
    among the values nor in the table before gives [-1]. *)
Theorem map_then_lookup_locations (junk : nat → Z) (values : list K)
    (table : gmap K Z) :
  Z.of_nat (length values) < 2 ^ 31 →
  let table' := map_locations values table in
  (∀ (i : nat) key, values !! i = Some key →
     ∃ j : nat,
       (lookup_locations junk values table').1 !! i = Some (Z.of_nat j) ∧
       values !! j = Some key ∧ (i ≤ j)%nat ∧
       ∀ j', (j < j')%nat → values !! j' ≠ Some key) ∧
  (NoDup values →
   (lookup_locations junk values table').1 = Z.of_nat <$> seq 0 (length values)) ∧
  (∀ key, key ∉ values → table !! key = None →
     (lookup_locations junk [key] table').1 = [-1]).
Proof.
  intros Hn table'.
  assert (Hloc : ∀ (i : nat) key, values !! i = Some key →
     ∃ j : nat,
       (lookup_locations junk values table').1 !! i = Some (Z.of_nat j) ∧
       values !! j = Some key ∧ (i ≤ j)%nat ∧
       ∀ j', (j < j')%nat → values !! j' ≠ Some key).
  { intros i key Hi.
    destruct (last_occurrence values key) as (j & Hj & Hlast).
    { by eapply list_elem_of_lookup_2. }
    exists j.
    destruct (lookup_locations_loop_spec table' values 0
                (np_empty junk (length values))) as (_ & Hin & _).
    { rewrite np_empty_length. lia. }
    unfold lookup_locations. cbn [fst].
    specialize (Hin i key Hi). rewrite Nat.add_0_l in Hin. rewrite Hin.
    unfold location_of, table'.
    destruct (map_locations_last values table key) as [Hlook _].
    rewrite (Hlook j Hj Hlast).
    apply lookup_lt_Some in Hj as Hjlt.
    rewrite wrap32_id by lia.
    repeat split; try done.
    destruct (decide (i ≤ j)%nat); [done|].
    exfalso. apply (Hlast i); [lia|done]. }
  split; [exact Hloc|]. split.
  - intros Hnd. apply list_eq. intros i.
    destruct (lookup_locations_loop_spec table' values 0
                (np_empty junk (length values))) as (Hlen & _ & _).
    { rewrite np_empty_length. lia. }
    rewrite np_empty_length in Hlen.
    unfold lookup_locations in *. cbn [fst] in *.
    destruct (decide (i < length values)%nat) as [Hi|Hi].
    + destruct (lookup_lt_is_Some_2 values i Hi) as [key Hkey].
      destruct (Hloc i key Hkey) as (j & Hj & Hjk & _).
      rewrite Hj, list_lookup_fmap, lookup_seq_lt by done. simpl.
      by rewrite (NoDup_lookup values i j key Hnd Hkey Hjk).
    + rewrite !(proj2 (lookup_ge_None _ _)); [done|..].
      * rewrite length_fmap, length_seq. lia.
      * lia.
  - intros key Hnot Hnone. unfold lookup_locations. cbn [fst length].
    unfold np_empty. cbn [seq fmap list_fmap lookup_locations_loop].
    unfold lookup_locations_body, kh_get, table'.
    destruct (map_locations_last values table key) as [_ Hout].
    by rewrite (Hout Hnot), Hnone.
Qed.

Lemma unique_loop_snoc (junk : nat → Z) (l : list K) (x : K) (i : nat)
    (st : gmap K Z * list K) :
  unique_loop junk (l ++ [x]) i st =
  unique_body junk (i + length l) x (unique_loop junk l i st).
Proof.
  revert i st. induction l as [|y l IH]; intros i st.
  - simpl. by rewrite Nat.add_0_r.
  - cbn [unique_loop app]. rewrite IH. simpl.
    by replace (S (i + length l))%nat with (i + S (length l))%nat by lia.
Qed.

(** The state of [unique] after the values [l], from the table [table]:
    the keys found new so far, in the order of their first occurrence, and
    a table that holds them besides the keys it held. *)
Lemma unique_loop_spec (junk : nat → Z) (l : list K) (table : gmap K Z) :
  let st := unique_loop junk l 0 (table, []) in
  st.2 = first_seen (λ k, bool_decide (is_Some (table !! k))) l ∧
  (∀ k, is_Some (st.1 !! k) ↔ is_Some (table !! k) ∨ k ∈ l) ∧
  (∀ k v, table !! k = Some v → st.1 !! k = Some v).
Proof.
  induction l as [|x l IH] using rev_ind.
  - simpl. split; [done|]. split; [|done].
    intros k. split; [by left|]. intros [?|Hin]; [done|]. by apply elem_of_nil in Hin.
  - rewrite unique_loop_snoc, Nat.add_0_l. cbv zeta in IH.
    destruct IH as (Hu & Hdom & Hold).
    set (st := unique_loop junk l 0 (table, [])) in *.
    cbv zeta. rewrite first_seen_snoc. unfold unique_body, kh_get, first_seen_step.
    destruct (st.1 !! x) as [v|] eqn:Hx.
    + split.
      * rewrite Hu.
        assert (is_Some (table !! x) ∨ x ∈ l) as [Ht|Hl] by (apply Hdom; eauto).
        -- by rewrite bool_decide_true.
        -- destruct (bool_decide _) eqn:Hb; [done|].
           rewrite decide_True; [done|].
           apply first_seen_elem. split; [done|]. done.
      * split; [|done]. intros k. rewrite Hdom, elem_of_app, list_elem_of_singleton.
        split; [tauto|]. intros [?|[?| ->]]; [tauto..|].
        apply Hdom. eauto.
    + assert (Hnt : table !! x = None).
      { destruct (table !! x) eqn:Ht; [|done].
        assert (is_Some (st.1 !! x)) as [? ?] by (apply Hdom; left; eauto).
        congruence. }
      assert (Hnl : x ∉ l).
      { intros Hl. assert (is_Some (st.1 !! x)) as [? ?] by (apply Hdom; by right).
        congruence. }
      cbn [fst snd]. unfold kh_put_key. rewrite Hx. split.
      * rewrite Hu, Hnt, bool_decide_false by (by intros [? ?]).
        rewrite decide_False; [done|].
        intros Hin. apply first_seen_elem in Hin as [? _]. done.
      * split.
        -- intros k. rewrite elem_of_app, list_elem_of_singleton.
           destruct (decide (k = x)) as [->|Hne].
           ++ rewrite lookup_insert_eq. split; [by right; right|eauto].
           ++ rewrite lookup_insert_ne by done. rewrite Hdom. tauto.
        -- intros k v Hk. rewrite lookup_insert_ne by congruence. by apply Hold.
Qed.

(** X15: [unique] returns the keys of [values] that the table does not
    hold, each once, in the order of their first occurrence; it leaves them
    in the table, so a second call on any of these values returns
    nothing. *)
Theorem unique_first_occurrences (junk junk' : nat → Z) (values : list K)
    (table : gmap K Z) :
  let r := unique junk values table in
  r.1 = first_seen (λ k, bool_decide (is_Some (table !! k))) values ∧
  NoDup r.1 ∧
  (∀ k, k ∈ r.1 ↔ k ∈ values ∧ table !! k = None) ∧
  (∀ k, is_Some (r.2 !! k) ↔ is_Some (table !! k) ∨ k ∈ values) ∧
  (∀ values', values' ⊆ values → (unique junk' values' r.2).1 = []).
Proof.
  intros r.
  destruct (unique_loop_spec junk values table) as (Hu & Hdom & _).
  unfold r, unique. cbn [fst snd]. split; [exact Hu|]. split.
  { rewrite Hu. apply first_seen_NoDup. }
  split.
  { intros k. rewrite Hu, first_seen_elem.
    rewrite bool_decide_eq_false, <- eq_None_not_Some. done. }
  split; [exact Hdom|].
  intros values' Hsub.
  destruct (unique_loop_spec junk' values'
              (unique_loop junk values 0 (table, [])).1) as (Hu' & _ & _).
  rewrite Hu'. apply elem_of_nil_inv. intros k Hk.
  apply first_seen_elem in Hk as [Hk Hb].
  apply bool_decide_eq_false in Hb. apply Hb, Hdom. right. by apply Hsub.
Qed.

End hash_table_more_facts.


Lemma map_then_lookup_locations_witness :
  ∃ j : nat,
    (lookup_locations (λ _, 0) [PyStr "a"; PyStr "b"; PyStr "a"]
       (map_locations [PyStr "a"; PyStr "b"; PyStr "a"] ∅)).1 !! 0%nat
      = Some (Z.of_nat j) ∧ j = 2%nat.
Proof.
  destruct (map_then_lookup_locations (λ _, 0)
              [PyStr "a"; PyStr "b"; PyStr "a"] ∅) as (Hloc & _).
  - reflexivity.
  - destruct (Hloc 0%nat (PyStr "a") eq_refl) as (j & Hj & Hjk & _ & Hlast).
    exists j. split; [exact Hj|].
    destruct j as [|[|[|j]]]; done.
Defined.

(** ** duplicated: the two directions, and the unmarked values *)

Section duplicates_more.
Context {K : Type} `{Countable K}.

Lemma duplicated_length (values : list K) (take_last : bool) :
  length (duplicated values take_last) = length values.
Proof.
  unfold duplicated.
  set (order := if take_last then reverse (seq 0 (length values))
                else seq 0 (length values)).
  assert (Hperm : order ≡ₚ seq 0 (length values)).
  { subst order. destruct take_last; [apply reverse_Permutation|done]. }
  destruct (duplicated_fold_spec values order ∅
              (replicate (length values) false)) as (Hl & _).
  - rewrite Hperm. apply NoDup_seq.
  - rewrite Hperm. apply Forall_seq. intros; lia.
  - apply length_replicate.
  - done.
Qed.

(** X16: marking the last occurrences to keep is marking the first
    occurrences of the reversed sequence: [duplicated] with [take_last] on
    the reversed values is the reverse of [duplicated] without it. *)
Theorem duplicated_reverse (values : list K) :
  duplicated (reverse values) true = reverse (duplicated values false).
Proof.
  apply list_eq_same_length with (length values).
  { by rewrite length_reverse, duplicated_length. }
  { by rewrite duplicated_length, length_reverse. }
  intros i b b' Hi Hb Hb'.
  rewrite reverse_lookup in Hb' by (by rewrite duplicated_length).
  rewrite duplicated_length in Hb'.
  destruct (lookup_lt_is_Some_2 (reverse values) i) as [row Hrow].
  { by rewrite length_reverse. }
  destruct (duplicated_marks (reverse values) true i row Hrow) as (c & Hc & Hciff).
  rewrite reverse_lookup in Hrow by done.
  destruct (duplicated_marks values false _ row Hrow) as (c' & Hc' & Hciff').
  assert (b = c) as -> by congruence. assert (b' = c') as -> by congruence.
  apply eq_true_iff_eq. rewrite Hciff, Hciff'. split.
  - intros (j & Hj & Hjr).
    apply lookup_lt_Some in Hjr as Hjlt. rewrite length_reverse in Hjlt.
    rewrite reverse_lookup in Hjr by done.
    eexists. split; [|exact Hjr]. lia.
  - intros (j & Hj & Hjr).
    exists (length values - S j)%nat. split; [lia|].
    rewrite reverse_lookup by lia.
    rewrite <- Hjr. f_equal. lia.
Qed.

Lemma duplicated_snoc (l : list K) (x : K) :
  duplicated (l ++ [x]) false = duplicated l false ++ [bool_decide (x ∈ l)].
Proof.
  apply list_eq_same_length with (S (length l)).
  { rewrite length_app, duplicated_length. simpl. lia. }
  { rewrite duplicated_length, length_app. simpl. lia. }
  intros i b b' Hi Hb Hb'.
  destruct (lookup_lt_is_Some_2 (l ++ [x]) i) as [row Hrow].
  { rewrite length_app. simpl. lia. }
  destruct (duplicated_marks (l ++ [x]) false i row Hrow) as (c & Hc & Hciff).
  assert (b = c) as -> by congruence.
  destruct (decide (i < length l)%nat) as [Hlt|Hge].
  - rewrite lookup_app_l in Hb' by (by rewrite duplicated_length).
    rewrite lookup_app_l in Hrow by done.
    destruct (duplicated_marks l false i row Hrow) as (c' & Hc' & Hciff').
    assert (b' = c') as -> by congruence.
    apply eq_true_iff_eq. rewrite Hciff, Hciff'. split.
    + intros (j & Hj & Hjr). exists j. split; [done|].
      by rewrite lookup_app_l in Hjr by lia.
    + intros (j & Hj & Hjr). exists j. split; [done|].
      by rewrite lookup_app_l by lia.
  - assert (i = length l) as -> by lia.
    rewrite list_lookup_middle in Hrow by done. injection Hrow as <-.
    rewrite <- (duplicated_length l false) in Hb'.
    rewrite list_lookup_middle in Hb' by done. injection Hb' as <-.
    apply eq_true_iff_eq. rewrite Hciff, bool_decide_eq_true. split.
    + intros (j & Hj & Hjr). rewrite lookup_app_l in Hjr by done.
      by eapply list_elem_of_lookup_2.
    + intros (j & Hj)%list_elem_of_lookup_1. exists j.
      apply lookup_lt_Some in Hj as Hjlt.
      split; [done|]. by rewrite lookup_app_l.
Qed.

(** X17: the values that [duplicated] leaves unmarked are, in order, the
    list that [PyObjectHashTable.unique] returns on an empty table. *)
Theorem duplicated_unmarked_unique (junk : nat → Z) (values : list K) :
  unmarked values (duplicated values false) = (unique junk values ∅).1.
Proof.
  pose proof (unique_loop_spec junk values ∅) as Hspec.
  cbv zeta in Hspec. destruct Hspec as [Hu _].
  unfold unique. cbn [fst]. rewrite Hu. clear Hu.
  induction values as [|x l IH] using rev_ind; [done|].
  rewrite duplicated_snoc, first_seen_snoc. unfold unmarked in *.
  rewrite zip_with_app by (by rewrite duplicated_length).
  rewrite filter_app, fmap_app, IH. simpl.
  unfold first_seen_step. rewrite lookup_empty.
  rewrite (bool_decide_false (is_Some None)) by (by intros [? ?]).
  rewrite filter_cons, filter_nil. simpl.
  destruct (decide (x ∈ first_seen _ l)) as [Hin|Hout].
  - apply first_seen_elem in Hin as [Hin _].
    rewrite bool_decide_true by done.
    rewrite decide_False by done. simpl. by rewrite app_nil_r.
  - assert (x ∉ l).
    { intros Hin. apply Hout, first_seen_elem. split; [done|].
      rewrite lookup_empty. apply bool_decide_false. by intros [? ?]. }
    rewrite bool_decide_false by done.
    rewrite decide_True by done. done.
Qed.

(** The table [factorize] leaves, on an empty table: every key with its
    label. *)
Lemma factorize_table (junk_l junk_c : nat → Z) (values : list K) :
  Z.of_nat (length values) < 2 ^ 31 →
  let r := factorize junk_l junk_c values ∅ in
  (∀ key, key ∈ values →
     ∃ g : nat, r.2 !! key = Some (Z.of_nat g) ∧
                fact_reverse r.1 !! Z.of_nat g = Some key ∧
                (g < length values)%nat) ∧
  (∀ key, key ∉ values → r.2 !! key = None) ∧
  (∀ (i : nat) key, values !! i = Some key →
     ∃ g : nat, r.2 !! key = Some (Z.of_nat g) ∧
                fact_labels r.1 !! i = Some (Z.of_nat g)) ∧
  length (fact_labels r.1) = length values.
Proof.
  intros Hn r.
  pose proof (factorize_inv junk_l junk_c values Hn) as Hinv.
  unfold r, factorize, fact_labels, fact_reverse. cbn [fst snd].
  set (st := factorize_loop values 0 _) in *.
  destruct Hinv as [Hl Hc Hcount Hids Hrev Hocc Hmiss Hlab Hnew].
  cbn [ht_as_gl gl_labels gl_counts gl_ids gl_reverse gl_count] in *.
  set (u := first_seen (λ _ : K, false) values) in *.
  pose proof (first_seen_length (λ _ : K, false) values) as Hul. fold u in Hul.
  assert (Htable : ∀ key, key ∈ values →
            ∃ g : nat, ht_table st !! key = Some (Z.of_nat g) ∧
                       u !! g = Some key).
  { intros key Hin.
    assert (key ∈ u) as Hu by (by apply first_seen_elem).
    apply list_elem_of_lookup_1 in Hu as [g Hg].
    exists g. split; [|done]. apply Hids. eauto. }
  split; [|split; [|split]].
  - intros key Hin. destruct (Htable key Hin) as (g & Hg & Hug).
    exists g. split; [done|]. split; [apply Hrev; eauto|].
    apply lookup_lt_Some in Hug. lia.
  - intros key Hout.
    destruct (ht_table st !! key) as [g|] eqn:Hg; [|done].
    apply Hids in Hg as (g' & _ & Hug).
    exfalso. apply Hout.
    apply (first_seen_elem (λ _ : K, false) values key).
    by eapply list_elem_of_lookup_2.
  - intros i key Hkey.
    destruct (Hlab i key Hkey eq_refl) as (g & Hg & Hug).
    destruct (Htable key) as (g' & Hg' & Hug').
    { by eapply list_elem_of_lookup_2. }
    assert (g' = g) as ->.
    { by eapply (NoDup_lookup u); [apply first_seen_NoDup|..]. }
    exists g. done.
  - done.
Qed.

Lemma lookup_after_factorize (junk junk_l junk_c : nat → Z) (values : list K) :
  Z.of_nat (length values) < 2 ^ 31 →
  let r := factorize junk_l junk_c values ∅ in
  (lookup_locations junk values r.2).1 = fact_labels r.1.
Proof.
  intros Hn r.
  destruct (factorize_table junk_l junk_c values Hn) as (Hin & _ & Hlab & Hlen).
  fold r in Hin, Hlab, Hlen.
  destruct (lookup_locations_loop_spec r.2 values 0
              (np_empty junk (length values))) as (Hl & Hloc & _).
  { rewrite np_empty_length. lia. }
  rewrite np_empty_length in Hl.
  unfold lookup_locations. cbn [fst].
  apply list_eq_same_length with (length values); [done..|].
  intros i l l' Hi Hll Hl'.
  destruct (lookup_lt_is_Some_2 values i Hi) as [key Hkey].
  specialize (Hloc i key Hkey). rewrite Nat.add_0_l in Hloc.
  destruct (Hlab i key Hkey) as (g & Hg & Hlg).
  destruct (Hin key) as (g' & Hg' & _ & Hglt).
  { by eapply list_elem_of_lookup_2. }
  unfold location_of in Hloc. rewrite Hg in Hloc.
  assert (g' = g) as -> by (rewrite Hg in Hg'; injection Hg'; lia).
  rewrite wrap32_id in Hloc by lia. congruence.
Qed.

(** X18: after [factorize] on an empty table (fewer than 2^31 values) the
    table holds every key with its label: [lookup_locations] of the same
    values returns the labels, and [get_item] of a key returns the label
    whose reverse entry the key is. *)
Theorem factorize_then_lookup (junk junk_l junk_c : nat → Z) (values : list K) :
  Z.of_nat (length values) < 2 ^ 31 →
  let r := factorize junk_l junk_c values ∅ in
  (lookup_locations junk values r.2).1 = fact_labels r.1 ∧
  (∀ key, key ∈ values →
     ∃ g, get_item key r.2 = (Ok g, r.2) ∧ fact_reverse r.1 !! g = Some key) ∧
  (∀ key, key ∉ values → get_item key r.2 = (Err KeyError, r.2)).
Proof.
  intros Hn r.
  destruct (factorize_table junk_l junk_c values Hn) as (Hin & Hout & _).
  fold r in Hin, Hout.
  split; [by apply lookup_after_factorize|]. split.
  - intros key Hkey. destruct (Hin key Hkey) as (g & Hg & Hrev & _).
    exists (Z.of_nat g). unfold get_item, kh_get. by rewrite Hg.
  - intros key Hkey. unfold get_item, kh_get. by rewrite (Hout key Hkey).
Qed.

Lemma factorize_loop_known (values : list K) (i : nat) (st : ht_state) :
  (∀ k, k ∈ values → is_Some (ht_table st !! k)) →
  let st' := factorize_loop values i st in
  ht_table st' = ht_table st ∧ ht_reverse st' = ht_reverse st ∧
  ht_count st' = ht_count st ∧
  ht_labels st' = lookup_locations_loop (ht_table st) values i (ht_labels st).
Proof.
  revert i st. induction values as [|val values IH]; intros i st Hknown; [done|].
  cbn [factorize_loop lookup_locations_loop].
  destruct (Hknown val) as [idx Hidx]; [by left|].
  assert (Hbody : factorize_body i val st =
            HtState (ht_table st) (<[i := wrap32 idx]> (ht_labels st))
              (<[Z.to_nat idx := wrap32 (ht_counts st !!! Z.to_nat idx + 1)]>
                 (ht_counts st))
              (ht_reverse st) (ht_count st)).
  { unfold factorize_body, kh_get. by rewrite Hidx. }
  rewrite Hbody. unfold lookup_locations_body, kh_get. rewrite Hidx.
  match goal with |- context [factorize_loop values (S i) ?s] =>
    destruct (IH (S i) s) as (Ht & Hr & Hc & Hl) end.
  { intros k Hk. cbn [ht_table]. apply Hknown. by right. }
  cbn [ht_table ht_labels ht_reverse ht_count] in *.
  cbv zeta. split; [exact Ht|]. split; [exact Hr|]. split; [exact Hc|exact Hl].
Qed.

(** X19: the table outlives the call: a second [factorize] of the same
    values on the table the first one left finds every key, so it returns
    the same labels (fewer than 2^31 values), an empty reverse map and no
    counts, and leaves the table as it was. *)
Theorem factorize_twice (junk_l junk_c junk_l' junk_c' : nat → Z)
    (values : list K) :
  Z.of_nat (length values) < 2 ^ 31 →
  let r := factorize junk_l junk_c values ∅ in
  let r' := factorize junk_l' junk_c' values r.2 in
  fact_labels r'.1 = fact_labels r.1 ∧
  fact_reverse r'.1 = ∅ ∧ fact_counts r'.1 = [] ∧ r'.2 = r.2.
Proof.
  intros Hn r r'.
  destruct (factorize_table junk_l junk_c values Hn) as (Hin & _).
  fold r in Hin.
  pose proof (lookup_after_factorize junk_l' junk_l junk_c values Hn) as Hlook.
  cbv zeta in Hlook. fold r in Hlook.
  unfold r', factorize at 1 2 3 4.
  set (st0 := HtState r.2 _ _ ∅ 0).
  destruct (factorize_loop_known values 0 st0) as (Ht & Hr & Hc & Hl).
  { intros k Hk. destruct (Hin k Hk) as (g & Hg & _). cbn [st0 ht_table]. eauto. }
  unfold fact_labels, fact_reverse, fact_counts in *. cbn [fst snd] in *.
  rewrite Ht, Hr, Hc, Hl. cbn [st0 ht_table ht_labels ht_reverse ht_count].
  split; [|done]. exact Hlook.
Qed.

End duplicates_more.

Lemma factorize_then_lookup_witness :
  (lookup_locations (λ _, 0) [PyStr "b"; PyStr "a"; PyStr "b"]
     (factorize (λ _, 0) (λ _, 0) [PyStr "b"; PyStr "a"; PyStr "b"] ∅).2).1
  = [0; 1; 0].
Proof.
  destruct (factorize_then_lookup (λ _, 0) (λ _, 0) (λ _, 0)
              [PyStr "b"; PyStr "a"; PyStr "b"]) as (Hloc & _).
  - reflexivity.
  - rewrite Hloc. reflexivity.
Defined.

Lemma factorize_twice_witness :
  let r := factorize (λ _, 0) (λ _, 0) [PyStr "b"; PyStr "a"; PyStr "b"] ∅ in
  fact_labels (factorize (λ _, 7) (λ _, 7) [PyStr "b"; PyStr "a"; PyStr "b"] r.2).1
  = [0; 1; 0].
Proof.
  destruct (factorize_twice (λ _, 0) (λ _, 0) (λ _, 7) (λ _, 7)
              [PyStr "b"; PyStr "a"; PyStr "b"]) as (Hlab & _).
  - reflexivity.
  - cbv zeta. rewrite Hlab. reflexivity.
Defined.

(** ** count_level_1d *)

Lemma sum_counts_insert (l : list Z) (i : nat) (c x : Z) :
  l !! i = Some c → sum_counts (<[i := x]> l) = sum_counts l - c + x.
Proof.
  revert i. induction l as [|y l IH]; intros [|i] Hi; try done.
  - simpl in Hi. injection Hi as ->. unfold sum_counts. simpl. lia.
  - simpl in Hi. unfold sum_counts in *. simpl. rewrite (IH i Hi). lia.
Qed.

Lemma sum_counts_bound (l : list Z) (i : nat) (c : Z) :
  Forall (λ c, 0 ≤ c) l → l !! i = Some c → 0 ≤ c ≤ sum_counts l.
Proof.
  intros Hpos. revert i. induction Hpos as [|y l Hy Hl IH]; intros [|i] Hi; try done.
  - simpl in Hi. injection Hi as ->. unfold sum_counts. simpl.
    assert (0 ≤ foldr Z.add 0 l).
    { clear -Hl. induction Hl; simpl; lia. }
    lia.
  - simpl in Hi. specialize (IH i Hi). unfold sum_counts in *. simpl. lia.
Qed.

Lemma sum_counts_zeros (n : nat) : sum_counts (replicate n 0) = 0.
Proof. unfold sum_counts. induction n as [|n IH]; simpl; lia. Qed.

Lemma wrap64_id (z : Z) : - 2 ^ 63 ≤ z < 2 ^ 63 → wrap64 z = z.
Proof. intros Hz. unfold wrap64. rewrite Z.mod_small; lia. Qed.

Lemma bin_hits_cons (max_bin g : Z) (m : bool) (lab : Z) (mask : list bool)
    (labels : list Z) :
  bin_hits max_bin g (m :: mask) (lab :: labels) =
  if decide (m = true ∧ bin_of max_bin lab = g)
  then S (bin_hits max_bin g mask labels) else bin_hits max_bin g mask labels.
Proof.
  unfold bin_hits. cbn [zip zip_with]. rewrite filter_cons. simpl.
  destruct (decide _); done.
Qed.

Lemma count_level_1d_loop_spec (labels : list Z) (mask : list bool) (i : nat)
    (counts : list Z) :
  (i + length mask ≤ length labels)%nat →
  Forall (λ p, p.1 = true → 0 ≤ bin_of (Z.of_nat (length counts)) p.2
                             < Z.of_nat (length counts))
    (zip mask (drop i labels)) →
  Forall (λ c, 0 ≤ c) counts →
  sum_counts counts + Z.of_nat (length mask) < 2 ^ 63 →
  ∃ counts', count_level_1d_loop labels mask (Z.of_nat i) counts = Ok counts' ∧
    length counts' = length counts ∧
    Forall (λ c, 0 ≤ c) counts' ∧
    sum_counts counts' =
      sum_counts counts + Z.of_nat (length (filter (λ m, m = true) mask)) ∧
    ∀ (g : nat) c, counts !! g = Some c →
      counts' !! g =
        Some (c + Z.of_nat (bin_hits (Z.of_nat (length counts)) (Z.of_nat g)
                              mask (drop i labels))).
Proof.
  revert i counts. induction mask as [|m mask IH]; intros i counts Hlen Hin Hpos Hsum.
  - exists counts. simpl. repeat split; try done; try lia.
    intros g c Hg. unfold bin_hits. simpl. rewrite Hg. f_equal. lia.
  - simpl in Hlen.
    destruct (lookup_lt_is_Some_2 labels i) as [lab Hlab]; [lia|].
    rewrite (drop_S _ _ _ Hlab) in *. cbn [zip zip_with] in Hin.
    apply Forall_cons in Hin as [Hm Hin]. cbn [fst snd] in Hm.
    cbn [count_level_1d_loop]. unfold count_level_1d_body.
    replace (Z.of_nat i + 1) with (Z.of_nat (S i)) by lia.
    cbn [length] in Hsum.
    destruct m.
    + specialize (Hm eq_refl).
      assert (Hwi : wrap_index labels (Z.of_nat i) = Z.of_nat i).
      { unfold wrap_index. destruct (Z.ltb_spec (Z.of_nat i) 0); [lia|done]. }
      rewrite Hwi, (get_Ok _ _ _ Hlab). cbn [mbind res_bind].
      assert (Hwc : wrap_index counts lab = bin_of (Z.of_nat (length counts)) lab).
      { done. }
      rewrite Hwc.
      set (b := bin_of (Z.of_nat (length counts)) lab) in *.
      destruct (lookup_lt_is_Some_2 counts (Z.to_nat b)) as [c0 Hc0]; [lia|].
      rewrite (get_Ok_Z counts b c0 ltac:(lia) Hc0). cbn [mbind res_bind].
      rewrite set_Ok_Z by lia. cbn [mbind res_bind].
      pose proof (sum_counts_bound counts _ c0 Hpos Hc0) as Hc0b.
      rewrite wrap64_id by lia.
      destruct (IH (S i) (<[Z.to_nat b := c0 + 1]> counts))
        as (counts' & Hrun & Hl & Hpos' & Hsum' & Hcells).
      * lia.
      * by rewrite length_insert.
      * apply Forall_insert; [done|lia].
      * rewrite (sum_counts_insert _ _ c0) by done. lia.
      * rewrite length_insert in *.
        exists counts'. split; [exact Hrun|]. split; [done|]. split; [done|].
        split.
        { rewrite Hsum', (sum_counts_insert _ _ c0) by done.
          rewrite filter_cons, decide_True by done. simpl. lia. }
        intros g c Hg. rewrite bin_hits_cons.
        destruct (decide (Z.to_nat b = g)) as [<-|Hne].
        -- rewrite (Hcells (Z.to_nat b) (c0 + 1))
             by (apply list_lookup_insert_eq; by eapply lookup_lt_Some).
           assert (c = c0) as -> by congruence.
           rewrite decide_True by (split; [done|fold b; lia]).
           f_equal. lia.
        -- rewrite (Hcells g c) by (by rewrite list_lookup_insert_ne).
           rewrite decide_False; [done|]. intros [_ Hb]. fold b in Hb. lia.
    + cbn [mbind res_bind].
      destruct (IH (S i) counts) as (counts' & Hrun & Hl & Hpos' & Hsum' & Hcells);
        try (done || lia).
      exists counts'. split; [exact Hrun|]. split; [done|]. split; [done|].
      split.
      { rewrite Hsum', filter_cons, decide_False by done. done. }
      intros g c Hg. rewrite bin_hits_cons, decide_False by (by intros [? _]).
      by apply Hcells.
Qed.

(** X20: [count_level_1d] returns [max_bin] counts that add up to the
    number of set mask positions; bin [g] counts the set positions whose
    label is [g] or, negative labels wrapping around, [g - max_bin]: a
    label [-1] is counted in the last bin.  This holds when the labels are
    as many as the mask at least and lie in [-max_bin, max_bin) at the set
    positions (fewer than 2^63 of them). *)
Theorem count_level_1d_bins (mask : list bool) (labels : list Z) (max_bin : Z) :
  0 ≤ max_bin →
  (length mask ≤ length labels)%nat →
  Forall (λ p, p.1 = true → - max_bin ≤ p.2 < max_bin) (zip mask labels) →
  Z.of_nat (length mask) < 2 ^ 63 →
  ∃ counts, count_level_1d mask labels max_bin = Ok counts ∧
    Z.of_nat (length counts) = max_bin ∧
    sum_counts counts = Z.of_nat (length (filter (λ m, m = true) mask)) ∧
    ∀ g : nat, Z.of_nat g < max_bin →
      counts !! g =
        Some (Z.of_nat
                (length (filter (λ p, p.1 = true ∧
                                      (p.2 = Z.of_nat g ∨
                                       p.2 = Z.of_nat g - max_bin))
                           (zip mask labels)))).
Proof.
  intros Hmax Hlen Hin Hn. unfold count_level_1d, np_zeros.
  destruct (Z.ltb_spec max_bin 0); [lia|]. cbn [mbind res_bind].
  set (counts0 := replicate (Z.to_nat max_bin) 0).
  assert (Hl0 : Z.of_nat (length counts0) = max_bin).
  { unfold counts0. rewrite length_replicate. lia. }
  assert (Hs0 : sum_counts counts0 = 0).
  { apply sum_counts_zeros. }
  destruct (count_level_1d_loop_spec labels mask 0 counts0)
    as (counts & Hrun & Hl & _ & Hsum & Hcells).
  - lia.
  - rewrite drop_0, Hl0. eapply Forall_impl; [exact Hin|].
    intros [m lab] Hp Hm. specialize (Hp Hm). cbn [fst snd] in *.
    unfold bin_of. destruct (Z.ltb_spec lab 0); lia.
  - unfold counts0. apply Forall_replicate. lia.
  - lia.
  - change (Z.of_nat 0) with 0 in Hrun.
    exists counts. split; [exact Hrun|]. split; [lia|]. split; [lia|].
    intros g Hg.
    rewrite (Hcells g 0) by (apply lookup_replicate_2; lia).
    rewrite drop_0, Hl0, Z.add_0_l. unfold bin_hits. do 3 f_equal.
    apply list_filter_iff. intros [m lab]. cbn [fst snd].
    unfold bin_of. destruct (Z.ltb_spec lab 0); split; intros [? ?]; (split; [done|lia]).
Qed.

Lemma count_level_1d_bins_witness :
  count_level_1d [true; false; true; true] [1; 0; -1; 1] 2 = Ok [0; 3].
Proof.
  destruct (count_level_1d_bins [true; false; true; true] [1; 0; -1; 1] 2)
    as (counts & Hrun & Hlen & _ & Hcells).
  - lia.
  - simpl. lia.
  - repeat (apply Forall_cons; split; [cbn [fst snd]; lia|]). constructor.
  - reflexivity.
  - rewrite Hrun. f_equal.
    pose proof (Hcells 0%nat ltac:(lia)) as H0.
    pose proof (Hcells 1%nat ltac:(lia)) as H1.
    destruct counts as [|c0 [|c1 counts]]; simpl in Hlen; try lia.
    vm_compute in H0, H1. destruct counts; [congruence|]. simpl in Hlen. lia.
Defined.

(** ** count_level_2d *)

Lemma wrap_index_nonneg {A} (arr : list A) (i : Z) :
  0 ≤ i → wrap_index arr i = i.
Proof. intros Hi. unfold wrap_index. destruct (Z.ltb_spec i 0); [lia|done]. Qed.

Lemma column_insert_row {A} (d : A) (j j' : nat) (b : nat) (x : A)
    (row : list A) (rows : list (list A)) :
  rows !! b = Some row → (j < length row)%nat →
  column d j' (<[b := <[j := x]> row]> rows) =
  if decide (j' = j) then <[b := x]> (column d j' rows) else column d j' rows.
Proof.
  intros Hb Hj. unfold column.
  rewrite list_fmap_insert.
  destruct (decide (j' = j)) as [->|Hne].
  - by rewrite list_lookup_insert_eq.
  - rewrite list_lookup_insert_ne by done.
    apply list_eq. intros g. rewrite list_lookup_fmap.
    destruct (decide (g = b)) as [->|].
    + rewrite list_lookup_insert_eq by (rewrite length_fmap; by eapply lookup_lt_Some).
      by rewrite Hb.
    + by rewrite list_lookup_insert_ne, list_lookup_fmap.
Qed.

(** One cell of [count_level_2d] acts on its column as the body of
    [count_level_1d] and leaves the other columns alone. *)
Lemma count_level_2d_cell_sim (labels : list Z) (mask : list (list bool))
    (k i j : nat) (mrow : list bool) (m : bool) (counts : list (list Z)) :
  Forall (λ row, length row = k) counts →
  mask !! i = Some mrow → mrow !! j = Some m → (j < k)%nat →
  (m = true → ∃ lab, labels !! i = Some lab ∧
     0 ≤ bin_of (Z.of_nat (length counts)) lab < Z.of_nat (length counts)) →
  ∃ counts',
    count_level_2d_cell labels mask (Z.of_nat i) (Z.of_nat j) counts = Ok counts' ∧
    Forall (λ row, length row = k) counts' ∧
    length counts' = length counts ∧
    count_level_1d_body labels (Z.of_nat i) m (column 0 j counts)
      = Ok (column 0 j counts') ∧
    ∀ j', j' ≠ j → column 0 j' counts' = column 0 j' counts.
Proof.
  intros Hwf Hmrow Hm Hj Hlab.
  unfold count_level_2d_cell, count_level_1d_body.
  rewrite !(wrap_index_nonneg mask), !(wrap_index_nonneg labels) by lia.
  rewrite (get_Ok _ _ _ Hmrow). cbn [mbind res_bind].
  rewrite (wrap_index_nonneg mrow) by lia.
  rewrite (get_Ok _ _ _ Hm). cbn [mbind res_bind].
  destruct m.
  - destruct (Hlab eq_refl) as (lab & Hl & Hbin).
    rewrite (get_Ok _ _ _ Hl). cbn [mbind res_bind].
    assert (Hwc : wrap_index counts lab = bin_of (Z.of_nat (length counts)) lab)
      by done.
    assert (Hwc' : wrap_index (column 0 j counts) lab =
                   bin_of (Z.of_nat (length counts)) lab).
    { unfold wrap_index, bin_of, column. by rewrite length_fmap. }
    rewrite Hwc, Hwc'.
    set (b := bin_of (Z.of_nat (length counts)) lab) in *.
    destruct (lookup_lt_is_Some_2 counts (Z.to_nat b)) as [row Hrow]; [lia|].
    assert (Hrl : length row = k).
    { rewrite Forall_forall in Hwf. apply Hwf. by eapply list_elem_of_lookup_2. }
    destruct (lookup_lt_is_Some_2 row j) as [c Hc]; [lia|].
    rewrite (get_Ok_Z counts b row ltac:(lia) Hrow). cbn [mbind res_bind].
    rewrite !(wrap_index_nonneg row) by lia.
    rewrite (get_Ok _ _ _ Hc). cbn [mbind res_bind].
    rewrite set_Ok by lia. cbn [mbind res_bind].
    rewrite set_Ok_Z by lia.
    assert (Hcol : column 0 j counts !! Z.to_nat b = Some c).
    { unfold column. by rewrite list_lookup_fmap, Hrow; simpl; rewrite Hc. }
    rewrite (get_Ok_Z _ b c ltac:(lia) Hcol). cbn [mbind res_bind].
    rewrite set_Ok_Z by (unfold column; rewrite length_fmap; lia).
    eexists. split; [done|]. split; [|split; [|split]].
    + apply Forall_insert; [done|]. by rewrite length_insert.
    + by rewrite length_insert.
    + f_equal. rewrite (column_insert_row 0 j j _ _ row) by (done || lia).
      by rewrite decide_True.
    + intros j' Hne. rewrite (column_insert_row 0 j j' _ _ row) by (done || lia).
      by rewrite decide_False.
  - exists counts. repeat split; done.
Qed.

(** A row of [count_level_2d] acts on every column as the body of
    [count_level_1d] with the mask of that column. *)
Lemma count_level_2d_row_sim (labels : list Z) (mask : list (list bool))
    (k i : nat) (mrow : list bool) (n j0 : nat) (counts : list (list Z)) :
  Forall (λ row, length row = k) counts →
  mask !! i = Some mrow → length mrow = k → (j0 + n ≤ k)%nat →
  (true ∈ mrow → ∃ lab, labels !! i = Some lab ∧
     0 ≤ bin_of (Z.of_nat (length counts)) lab < Z.of_nat (length counts)) →
  ∃ counts',
    for_range (λ j counts, count_level_2d_cell labels mask (Z.of_nat i) j counts)
      n (Z.of_nat j0) counts = Ok counts' ∧
    Forall (λ row, length row = k) counts' ∧
    length counts' = length counts ∧
    (∀ j m, (j0 ≤ j < j0 + n)%nat → mrow !! j = Some m →
       count_level_1d_body labels (Z.of_nat i) m (column 0 j counts)
         = Ok (column 0 j counts')) ∧
    ∀ j, ¬ (j0 ≤ j < j0 + n)%nat → column 0 j counts' = column 0 j counts.
Proof.
  intros Hwf Hmrow Hml. revert j0 counts Hwf.
  induction n as [|n IH]; intros j0 counts Hwf Hn Hlab.
  - exists counts. repeat split; try done. intros j m ?. lia.
  - cbn [for_range].
    destruct (lookup_lt_is_Some_2 mrow j0 ltac:(lia)) as [m Hm].
    destruct (count_level_2d_cell_sim labels mask k i j0 mrow m counts Hwf
                Hmrow Hm ltac:(lia))
      as (counts1 & Hcell & Hwf1 & Hl1 & Hcol1 & Hoth1).
    { intros ->. apply Hlab. by eapply list_elem_of_lookup_2. }
    rewrite Hcell. cbn [mbind res_bind].
    replace (Z.of_nat j0 + 1) with (Z.of_nat (S j0)) by lia.
    destruct (IH (S j0) counts1 Hwf1 ltac:(lia))
      as (counts' & Hrun & Hwf' & Hl' & Hcol' & Hoth').
    { by rewrite Hl1. }
    exists counts'. split; [exact Hrun|]. split; [done|]. split; [lia|]. split.
    + intros j m' Hj Hm'. destruct (decide (j = j0)) as [->|Hne].
      * assert (m' = m) as -> by congruence.
        rewrite Hcol1. f_equal. symmetry. apply Hoth'. lia.
      * rewrite <- (Hoth1 j Hne). apply Hcol'; [lia|done].
    + intros j Hj. rewrite Hoth' by lia. apply Hoth1. lia.
Qed.

Lemma count_level_2d_rows_sim (labels : list Z) (mask : list (list bool))
    (k n i0 : nat) (counts : list (list Z)) :
  Forall (λ row, length row = k) counts →
  Forall (λ mrow, length mrow = k) mask →
  (i0 + n = length mask)%nat →
  (∀ i mrow, mask !! i = Some mrow → true ∈ mrow →
     ∃ lab, labels !! i = Some lab ∧
       0 ≤ bin_of (Z.of_nat (length counts)) lab < Z.of_nat (length counts)) →
  ∃ counts',
    for_range
      (λ i counts,
         for_range (λ j counts, count_level_2d_cell labels mask i j counts)
           k 0 counts)
      n (Z.of_nat i0) counts = Ok counts' ∧
    length counts' = length counts ∧
    ∀ j, (j < k)%nat →
      count_level_1d_loop labels (column false j (drop i0 mask)) (Z.of_nat i0)
        (column 0 j counts) = Ok (column 0 j counts').
Proof.
  intros Hwf Hmwf. revert i0 counts Hwf.
  induction n as [|n IH]; intros i0 counts Hwf Hn Hlab.
  - exists counts. split; [done|]. split; [done|]. intros j Hj.
    by rewrite drop_ge by lia.
  - cbn [for_range].
    destruct (lookup_lt_is_Some_2 mask i0 ltac:(lia)) as [mrow Hmrow].
    assert (Hml : length mrow = k).
    { rewrite Forall_forall in Hmwf. apply Hmwf. by eapply list_elem_of_lookup_2. }
    destruct (count_level_2d_row_sim labels mask k i0 mrow k 0 counts Hwf
                Hmrow Hml ltac:(lia) (Hlab i0 mrow Hmrow))
      as (counts1 & Hrow & Hwf1 & Hl1 & Hcol1 & _).
    change (Z.of_nat 0) with 0 in Hrow. rewrite Hrow. cbn [mbind res_bind].
    replace (Z.of_nat i0 + 1) with (Z.of_nat (S i0)) by lia.
    destruct (IH (S i0) counts1 Hwf1 ltac:(lia))
      as (counts' & Hrun & Hl' & Hcols).
    { by rewrite Hl1. }
    exists counts'. split; [exact Hrun|]. split; [lia|].
    intros j Hj.
    rewrite (drop_S _ _ _ Hmrow). unfold column at 1.
    cbn [fmap list_fmap count_level_1d_loop].
    destruct (lookup_lt_is_Some_2 mrow j ltac:(lia)) as [m Hm].
    rewrite Hm. cbn [default from_option id].
    rewrite (Hcol1 j m ltac:(lia) Hm). cbn [mbind res_bind].
    replace (Z.of_nat i0 + 1) with (Z.of_nat (S i0)) by lia.
    by apply Hcols.
Qed.

(** X21: [count_level_2d] counts every column as [count_level_1d]
    counts it: for a mask whose rows have [k] cells, and labels that exist
    and lie in [-max_bin, max_bin) for every row with a set cell, column [j]
    of its result is the result of [count_level_1d] on column [j] of the
    mask. *)
Theorem count_level_2d_columns (mask : list (list bool)) (k : nat)
    (labels : list Z) (max_bin : Z) :
  0 ≤ max_bin →
  Forall (λ mrow, length mrow = k) mask →
  (∀ i mrow, mask !! i = Some mrow → true ∈ mrow →
     ∃ lab, labels !! i = Some lab ∧ - max_bin ≤ lab < max_bin) →
  ∃ counts,
    count_level_2d mask k labels max_bin = Ok counts ∧
    Z.of_nat (length counts) = max_bin ∧
    ∀ j, (j < k)%nat →
      count_level_1d (column false j mask) labels max_bin
        = Ok (column 0 j counts).
Proof.
  intros Hmax Hmwf Hlab. unfold count_level_2d, count_level_1d, np_zeros.
  destruct (Z.ltb_spec max_bin 0); [lia|]. cbn [mbind res_bind].
  set (counts0 := replicate (Z.to_nat max_bin) (replicate k 0)).
  assert (Hl0 : Z.of_nat (length counts0) = max_bin).
  { unfold counts0. rewrite length_replicate. lia. }
  destruct (count_level_2d_rows_sim labels mask k (length mask) 0 counts0)
    as (counts & Hrun & Hl & Hcols).
  - unfold counts0. apply Forall_replicate. apply length_replicate.
  - done.
  - lia.
  - intros i mrow Hi Hset. destruct (Hlab i mrow Hi Hset) as (lab & Hl & Hr).
    exists lab. split; [done|]. rewrite Hl0. unfold bin_of.
    destruct (Z.ltb_spec lab 0); lia.
  - change (Z.of_nat 0) with 0 in Hrun.
    exists counts. split; [exact Hrun|]. split; [lia|].
    intros j Hj. specialize (Hcols j Hj). rewrite drop_0 in Hcols.
    change (Z.of_nat 0) with 0 in Hcols. rewrite <- Hcols. f_equal.
    unfold counts0, column. rewrite fmap_replicate.
    by rewrite lookup_replicate_2 by lia.
Qed.

Lemma count_level_2d_columns_witness :
  ∃ counts,
    count_level_2d [[true; false]; [true; true]; [false; false]] 2 [1; -1; 9] 2
      = Ok counts ∧
    count_level_1d [true; true; false] [1; -1; 9] 2 = Ok (column 0 0 counts).
Proof.
  destruct (count_level_2d_columns [[true; false]; [true; true]; [false; false]]
              2 [1; -1; 9] 2) as (counts & Hrun & _ & Hcols).
  - lia.
  - repeat (apply Forall_cons; split; [done|]). constructor.
  - intros [|[|[|i]]] mrow Hi Hset; simpl in Hi; simplify_eq.
    + exists 1. split; [done|lia].
    + exists (-1). split; [done|lia].
    + exfalso. repeat (apply elem_of_cons in Hset as [?|Hset]; [done|]).
      by apply elem_of_nil in Hset.
  - exists counts. split; [exact Hrun|]. apply (Hcols 0%nat). lia.
Defined.

(** ** reduce_mean, ts_upsample_generic *)

Lemma at_least_positive (x : float) :
  at_least (-52) (Prim2SF x) → PrimFloat.ltb 0 x = true.
Proof.
  intros Hx. rewrite FloatAxioms.ltb_spec.
  destruct Hx as [->|(m & e & -> & _)]; reflexivity.
Qed.

Section buckets_facts.
Context {K : Type}.
Variables py_le py_lt : K → K → bool.

Lemma reduce_mean_scan_spec (inclusive : bool) (b : K) (indices : list K)
    (values : list float) (j : nat) (s c : float) :
  length values = length indices → (j ≤ length indices)%nat →
  let chunk := leading py_le py_lt inclusive b (drop j (zip indices values)) in
  let obs := filter (λ v, not_nan v = true) chunk.*2 in
  reduce_mean_scan py_le py_lt inclusive b indices values
    (Z.to_nat (Z.of_nat (length indices) - Z.of_nat j)) (Z.of_nat j) s c =
  Ok (Z.of_nat (j + length chunk),
      foldl (λ a v, (a + v)%float) s obs,
      foldl (λ a _, (a + 1)%float) c obs).
Proof.
  intros Hlen Hj.
  remember (Z.to_nat (Z.of_nat (length indices) - Z.of_nat j)) as k eqn:Hk.
  revert j s c Hj Hk. induction k as [|k IH]; intros j s c Hj Hk.
  - assert (j = length indices) as -> by lia.
    rewrite drop_ge by (rewrite length_zip_with_l_eq; lia).
    simpl. rewrite Nat.add_0_r. done.
  - assert (Hjlt : (j < length indices)%nat) by lia.
    destruct (lookup_lt_is_Some_2 indices j Hjlt) as [ix Hix].
    destruct (lookup_lt_is_Some_2 values j) as [val Hval]; [lia|].
    assert (Hp : zip indices values !! j = Some (ix, val)).
    { rewrite lookup_zip_with, Hix. simpl. by rewrite Hval. }
    rewrite (drop_S _ _ _ Hp). cbn [reduce_mean_scan leading fst].
    rewrite (get_Ok _ _ _ Hix). cbn [mbind res_bind].
    destruct (within py_le py_lt inclusive b ix).
    + rewrite (get_Ok _ _ _ Hval). cbn [mbind res_bind].
      replace (Z.of_nat j + 1) with (Z.of_nat (S j)) by lia.
      cbn [fmap list_fmap snd length]. rewrite filter_cons.
      destruct (not_nan val) eqn:Hnan.
      * rewrite decide_True by done. rewrite (IH (S j)) by lia.
        cbn [foldl]. by rewrite Nat.add_succ_comm.
      * rewrite decide_False by done. rewrite (IH (S j)) by lia.
        by rewrite Nat.add_succ_comm.
    + simpl. rewrite Nat.add_0_r. done.
Qed.

Lemma bucket_means_nil (inclusive : bool) (buckets : list K) :
  bucket_means py_le py_lt inclusive buckets [] = replicate (length buckets) nan.
Proof. induction buckets as [|b rest IH]; [done|]. simpl. by rewrite IH. Qed.

Lemma mean_of_spec (vs : list float) :
  let obs := filter (λ v, not_nan v = true) vs in
  (if PrimFloat.ltb 0 (count_obs obs) then (sum_obs obs / count_obs obs)%float
   else nan) = mean_of vs ∧
  (PrimFloat.ltb 0 (count_obs obs) = false → obs = []).
Proof.
  intros obs. unfold mean_of. fold obs.
  destruct obs as [|v obs'] eqn:Hobs; [done|].
  destruct (count_obs_at_least (v :: obs') ltac:(done)) as [Hone _].
  rewrite (at_least_positive _ Hone). done.
Qed.

Lemma reduce_mean_loop_spec (inclusive : bool) (indices : list K)
    (values : list float) (buckets : list K) (i j : nat) (output : list float) :
  length values = length indices → (j ≤ length indices)%nat →
  drop i output = replicate (length buckets) nan →
  reduce_mean_loop py_le py_lt inclusive indices values buckets
    (Z.of_nat i) (Z.of_nat j) output =
  Ok (take i output ++
      bucket_means py_le py_lt inclusive buckets (drop j (zip indices values))).
Proof.
  intros Hlen. revert i j output.
  induction buckets as [|b rest IH]; intros i j output Hj Hout.
  - simpl in *. rewrite app_nil_r.
    rewrite <- (take_drop i output) at 1. by rewrite Hout, app_nil_r.
  - cbn [reduce_mean_loop bucket_means].
    pose proof (reduce_mean_scan_spec inclusive b indices values j 0 0 Hlen Hj)
      as Hscan. cbv zeta in Hscan. rewrite Hscan. clear Hscan.
    cbn [mbind res_bind].
    set (chunk := leading py_le py_lt inclusive b (drop j (zip indices values))).
    destruct (mean_of_spec chunk.*2) as [Hmean Hnone]. cbv zeta in Hmean, Hnone.
    fold (sum_obs (filter (λ v, not_nan v = true) chunk.*2)).
    fold (count_obs (filter (λ v, not_nan v = true) chunk.*2)).
    assert (Hi : (i < length output)%nat).
    { destruct (decide (i < length output)%nat); [done|].
      rewrite drop_ge in Hout by lia. done. }
    assert (Hchunk : (j + length chunk ≤ length indices)%nat).
    { assert (length chunk ≤ length (drop j (zip indices values)))%nat.
      { unfold chunk. generalize (drop j (zip indices values)).
        intros l. induction l as [|p l IHl]; simpl; [lia|].
        destruct (within _ _ _ _ _); simpl; lia. }
      rewrite length_drop, length_zip_with_l_eq in * by lia. lia. }
    assert (Hout1 : drop (S i) output = replicate (length rest) nan).
    { replace (S i) with (i + 1)%nat by lia. rewrite <- drop_drop, Hout. done. }
    assert (Hout' : ∃ output',
      (if PrimFloat.ltb 0 (count_obs (filter (λ v, not_nan v = true) chunk.*2))
       then set output (Z.of_nat i)
              (sum_obs (filter (λ v, not_nan v = true) chunk.*2) /
               count_obs (filter (λ v, not_nan v = true) chunk.*2))%float
       else Ok output) = Ok output' ∧
      output' = take i output ++ mean_of chunk.*2 ::
                replicate (length rest) nan).
    { destruct (PrimFloat.ltb 0 _) eqn:Hpos.
      - rewrite set_Ok by done. eexists. split; [done|].
        rewrite insert_take_drop by done. rewrite Hout1, <- Hmean. done.
      - exists output. split; [done|].
        rewrite <- (take_drop i output) at 1. rewrite Hout. simpl.
        rewrite <- Hmean. done. }
    destruct Hout' as (output' & -> & Houtput'). cbn [mbind res_bind].
    destruct (Z.leb_spec (Z.of_nat (length indices)) (Z.of_nat (j + length chunk))).
    + f_equal. rewrite Houtput'. do 2 f_equal.
      rewrite drop_drop, drop_ge by (rewrite length_zip_with_l_eq; lia).
      by rewrite bucket_means_nil.
    + replace (Z.of_nat i + 1) with (Z.of_nat (S i)) by lia.
      rewrite IH.
      * rewrite Houtput'. rewrite drop_drop.
        rewrite (take_S_r _ _ (mean_of chunk.*2)).
        2:{ rewrite lookup_app_r by (rewrite length_take; lia).
            rewrite length_take. replace (i - i `min` length output)%nat with 0%nat by lia.
            done. }
        rewrite take_app_le by (rewrite length_take; lia).
        rewrite take_take. replace (i `min` i)%nat with i by lia.
        rewrite <- app_assoc. done.
      * lia.
      * rewrite Houtput'.
        rewrite drop_app_ge by (rewrite length_take; lia).
        rewrite length_take. replace (S i - i `min` length output)%nat with 1%nat by lia.
        done.
Qed.

Lemma bucket_means_length (inclusive : bool) (buckets : list K)
    (pairs : list (K * float)) :
  length (bucket_means py_le py_lt inclusive buckets pairs) = length buckets.
Proof.
  revert pairs. induction buckets as [|b rest IH]; intros pairs; [done|].
  simpl. by rewrite IH.
Qed.

Lemma reduce_mean_passes (indices buckets : list K) (values : list float)
    (inclusive : bool) :
  length values = length indices →
  reduce_mean py_le py_lt indices buckets values inclusive =
    Passed (Ok (bucket_means py_le py_lt inclusive buckets (zip indices values))).
Proof.
  intros Hlen. unfold reduce_mean. rewrite decide_True by done. f_equal.
  exact (reduce_mean_loop_spec inclusive indices values buckets 0 0
           (replicate (length buckets) nan) Hlen ltac:(lia) eq_refl).
Qed.

(** X22: [reduce_mean] raises [AssertionError] unless [values] and
    [indices] are equally long.  Otherwise it returns one output per
    bucket: each bucket takes the values that follow those of the buckets
    before it for as long as their index is within its bound, and its
    output is the mean of the non-NaN values among them, NaN when there is
    none; once the values are used up the remaining outputs are NaN. *)
Theorem reduce_mean_bucket_means (indices buckets : list K)
    (values : list float) (inclusive : bool) :
  (length values ≠ length indices →
   reduce_mean py_le py_lt indices buckets values inclusive = AssertionError) ∧
  (length values = length indices →
   reduce_mean py_le py_lt indices buckets values inclusive =
     Passed (Ok (bucket_means py_le py_lt inclusive buckets (zip indices values))) ∧
   length (bucket_means py_le py_lt inclusive buckets (zip indices values)) =
     length buckets ∧
   bucket_means py_le py_lt inclusive buckets [] =
     replicate (length buckets) nan).
Proof.
  split.
  - intros Hne. unfold reduce_mean. by rewrite decide_False.
  - intros Hlen. split; [by apply reduce_mean_passes|]. split.
    + apply bucket_means_length.
    + apply bucket_means_nil.
Qed.

Lemma ts_upsample_scan_spec (inclusive : bool) (b : K) (indices : list K)
    (j : nat) :
  (j ≤ length indices)%nat →
  ∃ j' : nat,
    ts_upsample_scan py_le py_lt inclusive b indices
      (Z.to_nat (Z.of_nat (length indices) - Z.of_nat j)) (Z.of_nat j)
      = Ok (Z.of_nat j') ∧
    (j ≤ j' ≤ length indices)%nat.
Proof.
  intros Hj.
  remember (Z.to_nat (Z.of_nat (length indices) - Z.of_nat j)) as k eqn:Hk.
  revert j Hj Hk. induction k as [|k IH]; intros j Hj Hk.
  - exists j. split; [done|lia].
  - destruct (lookup_lt_is_Some_2 indices j ltac:(lia)) as [ix Hix].
    cbn [ts_upsample_scan]. rewrite (get_Ok _ _ _ Hix). cbn [mbind res_bind].
    destruct (within py_le py_lt inclusive b ix).
    + replace (Z.of_nat j + 1) with (Z.of_nat (S j)) by lia.
      destruct (IH (S j)) as (j' & Hrun & Hj'); [lia..|].
      exists j'. split; [done|lia].
    + exists j. split; [done|lia].
Qed.

(** X23: [ts_upsample_generic] never calls [aggfunc]: the count [nobs] it
    tests stays 0, so every output is NaN, whatever the values and the
    buckets. *)
Theorem ts_upsample_generic_all_nan (indices buckets : list K)
    (values : list float) (aggfunc : list float → res float) (inclusive : bool) :
  length values = length indices →
  ts_upsample_generic py_le py_lt indices buckets values aggfunc inclusive =
    Passed (Ok (replicate (length buckets) nan)).
Proof.
  intros Hlen. unfold ts_upsample_generic. rewrite decide_True by done.
  f_equal.
  assert (Hloop : ∀ (bs : list K) (i : Z) (j : nat) (output : list float),
            (j ≤ length indices)%nat →
            ts_upsample_generic_loop py_le py_lt aggfunc inclusive indices
              values bs i (Z.of_nat j) output = Ok output).
  { induction bs as [|b rest IH]; intros i j output Hj; [done|].
    cbn [ts_upsample_generic_loop].
    destruct (ts_upsample_scan_spec inclusive b indices j Hj)
      as (j' & -> & Hj').
    cbn [mbind res_bind].
    change (PrimFloat.ltb 0 0) with false. cbn [mbind res_bind].
    destruct (_ <=? _); [done|]. apply IH. lia. }
  apply (Hloop buckets 0 0%nat). lia.
Qed.

End buckets_facts.

Lemma ts_upsample_generic_all_nan_witness :
  ts_upsample_generic Z.leb Z.ltb [1; 2; 4] [3; 5] [1; 2; 3]%float
    (λ vs, Ok (sum_obs vs)) false = Passed (Ok [nan; nan]).
Proof.
  apply (ts_upsample_generic_all_nan Z.leb Z.ltb [1; 2; 4] [3; 5] [1; 2; 3]%float
           (λ vs, Ok (sum_obs vs)) false).
  reflexivity.
Defined.

(** *** reduce_mean on sorted integer indices *)

Lemma sorted_filter {A} (R : A → A → Prop) (P : A → Prop)
    `{∀ x, Decision (P x)} (l : list A) :
  StronglySorted R l → StronglySorted R (filter P l).
Proof.
  induction 1 as [|x l Hl IH Hx]; [constructor|].
  rewrite filter_cons. destruct (decide (P x)); [|done].
  constructor; [done|].
  apply Forall_forall. intros y Hy%list_elem_of_filter.
  rewrite Forall_forall in Hx. apply Hx. tauto.
Qed.

Lemma sorted_zip (indices : list Z) (values : list float) :
  StronglySorted Z.le indices →
  StronglySorted (λ p q : Z * float, p.1 ≤ q.1) (zip indices values).
Proof.
  intros Hs. revert values. induction Hs as [|ix indices Hs IH Hix];
    intros [|v values]; try constructor.
  - apply IH.
  - apply Forall_forall. intros [ix' v'] Hin. simpl.
    apply elem_of_zip_l in Hin. rewrite Forall_forall in Hix. by apply Hix.
Qed.

Lemma leading_sorted (inclusive : bool) (b : Z) (pairs : list (Z * float)) :
  StronglySorted (λ p q : Z * float, p.1 ≤ q.1) pairs →
  leading Z.leb Z.ltb inclusive b pairs =
    filter (λ p, within Z.leb Z.ltb inclusive b p.1 = true) pairs ∧
  drop (length (leading Z.leb Z.ltb inclusive b pairs)) pairs =
    filter (λ p, within Z.leb Z.ltb inclusive b p.1 = false) pairs.
Proof.
  induction 1 as [|p pairs Hs IH Hp]; [done|].
  cbn [leading]. rewrite !filter_cons.
  destruct (within Z.leb Z.ltb inclusive b p.1) eqn:Hw.
  - rewrite decide_True by done. rewrite decide_False by done.
    destruct IH as [IH1 IH2]. split; [by rewrite IH1|]. cbn [length drop]. exact IH2.
  - rewrite decide_False by done. rewrite decide_True by done. simpl.
    assert (Hall : Forall (λ q : Z * float,
              within Z.leb Z.ltb inclusive b q.1 = false) pairs).
    { eapply Forall_impl; [exact Hp|]. intros q Hq. simpl in Hq.
      unfold within in *. destruct inclusive; lia. }
    split.
    + symmetry. clear -Hall. induction Hall as [|q l Hq _ IHl]; [done|].
      rewrite filter_cons, decide_False by (rewrite Hq; done). done.
    + f_equal. clear -Hall. induction Hall as [|q l Hq _ IHl]; [done|].
      rewrite filter_cons, decide_True by done. by rewrite <- IHl.
Qed.

Lemma bucket_means_sorted (inclusive : bool) (buckets : list Z) (lo : option Z)
    (pairs : list (Z * float)) :
  StronglySorted (λ p q : Z * float, p.1 ≤ q.1) pairs →
  StronglySorted Z.le buckets →
  (∀ l b, lo = Some l → b ∈ buckets → l ≤ b) →
  ∀ (i : nat) b, buckets !! i = Some b →
    bucket_means Z.leb Z.ltb inclusive buckets
      (filter (λ p, in_bucket inclusive lo
                      (if inclusive then p.1 else p.1 + 1) p.1 = true) pairs)
      !! i =
    Some (mean_of
            (filter (λ p, in_bucket inclusive
                            (match i with O => lo | S i' => buckets !! i' end)
                            b p.1 = true) pairs).*2).
Proof.
  intros Hpairs Hbs. revert lo.
  induction Hbs as [|b0 rest Hrest IH Hb0]; intros lo Hlo i b Hi; [done|].
  cbn [bucket_means]. cbv zeta.
  set (ps := filter _ pairs).
  assert (Hps : StronglySorted (λ p q : Z * float, p.1 ≤ q.1) ps).
  { by apply sorted_filter. }
  destruct (leading_sorted inclusive b0 ps Hps) as [Hlead Hdrop].
  rewrite Hdrop, Hlead. unfold ps. rewrite !list_filter_filter.
  destruct i as [|i].
  - simpl in Hi. injection Hi as <-. simpl. do 3 f_equal.
    apply list_filter_iff. intros [ix v]. cbn [fst].
    unfold in_bucket, within. destruct lo as [l|], inclusive; lia.
  - simpl in Hi.
    change ((?x :: ?l) !! S i) with (l !! i).
    assert (Hprev : (b0 :: rest) !! i =
                    match i with O => Some b0 | S i' => rest !! i' end)
      by (by destruct i).
    rewrite Hprev.
    rewrite <- (IH (Some b0)); [|..|exact Hi].
    + do 2 f_equal. apply list_filter_iff. intros [ix v]. cbn [fst].
      unfold in_bucket, within.
      destruct lo as [l|].
      * specialize (Hlo l b0 eq_refl ltac:(by left)).
        destruct inclusive; lia.
      * destruct inclusive; lia.
    + intros l b' [= <-] Hb'. rewrite Forall_forall in Hb0. by apply Hb0.
Qed.

(** X24: with integer indices in ascending order and bucket bounds in
    ascending order, [reduce_mean] gives for every bucket the mean of the
    non-NaN values whose index lies between the previous bound and the
    bucket's own, NaN when there is none: in [[lo, hi)] without
    [inclusive], in [(lo, hi]] with it, unbounded below for the first
    bucket. *)
Theorem reduce_mean_sorted (indices buckets : list Z) (values : list float)
    (inclusive : bool) :
  length values = length indices →
  StronglySorted Z.le indices → StronglySorted Z.le buckets →
  ∃ output,
    reduce_mean Z.leb Z.ltb indices buckets values inclusive
      = Passed (Ok output) ∧
    length output = length buckets ∧
    ∀ (i : nat) b, buckets !! i = Some b →
      output !! i =
        Some (mean_of
                (bucket_values inclusive
                   (match i with O => None | S i' => buckets !! i' end) b
                   indices values)).
Proof.
  intros Hlen Hix Hbs.
  eexists. split; [by apply reduce_mean_passes|].
  split; [apply bucket_means_length|].
  intros i b Hi.
  pose proof (bucket_means_sorted inclusive buckets None (zip indices values)
                (sorted_zip indices values Hix) Hbs ltac:(done) i b Hi) as Hm.
  unfold bucket_values. rewrite <- Hm. f_equal. f_equal.
  symmetry. clear. induction (zip indices values) as [|p l IHl]; [done|].
  rewrite filter_cons, decide_True; [by rewrite IHl|].
  unfold in_bucket. destruct inclusive; lia.
Qed.

Lemma reduce_mean_sorted_witness :
  reduce_mean Z.leb Z.ltb [1; 2; 4; 7] [3; 5; 6; 9] [1; nan; 5; 6]%float false
    = Passed (Ok [1; 5; nan; 6]%float).
Proof.
  destruct (reduce_mean_sorted [1; 2; 4; 7] [3; 5; 6; 9] [1; nan; 5; 6]%float
              false) as (output & Hrun & Hlen & Hcells).
  - reflexivity.
  - repeat (apply SSorted_cons; [|repeat constructor; lia]). constructor.
  - repeat (apply SSorted_cons; [|repeat constructor; lia]). constructor.
  - rewrite Hrun. do 2 f_equal.
    pose proof (Hcells 0%nat 3 eq_refl) as H0.
    pose proof (Hcells 1%nat 5 eq_refl) as H1.
    pose proof (Hcells 2%nat 6 eq_refl) as H2.
    pose proof (Hcells 3%nat 9 eq_refl) as H3.
    destruct output as [|o0 [|o1 [|o2 [|o3 [|o4 output]]]]]; simpl in Hlen; try lia.
    injection H0 as ->. injection H1 as ->. injection H2 as ->.
    injection H3 as ->. reflexivity.
Defined.

(** ** roll_median with a window of one *)

(** A float that differs from itself is the NaN. *)
Lemma not_nan_false (v : float) : not_nan v = false → v = nan.
Proof.
  unfold not_nan. rewrite FloatAxioms.eqb_spec. intros Heq.
  rewrite <- (FloatAxioms.SF2Prim_Prim2SF v).
  destruct (Prim2SF v) as [s| s| |s m e]; try done.
  - by destruct s.
  - exfalso. unfold SFeqb, SFcompare in Heq.
    rewrite Z.compare_refl, Pos.compare_cont_refl in Heq.
    by destruct s.
Qed.

Lemma skiplist_remove_singleton (v : float) :
  not_nan v = true → skiplist_remove [v] v = [].
Proof. intros Hv. unfold not_nan in Hv. simpl. by rewrite Hv. Qed.

(** The state of the second loop after [i] positions, for a window of
    one: the skip list holds the previous value if it is not NaN, and the
    outputs so far are the inputs. *)
Lemma roll_median_window_one_steps (arg : list float) (output : list float)
    (i : nat) :
  length output = length arg → (i ≤ length arg)%nat →
  ∃ st, for_range (roll_median_tail arg 1 1) i 0 (RmState [] 0 output) = Ok st ∧
    rm_sl st = match i with
               | O => []
               | S i' => filter (λ v, not_nan v = true)
                           (option_list (arg !! i'))
               end ∧
    rm_nobs st = Z.of_nat (length (rm_sl st)) ∧
    length (rm_output st) = length arg ∧
    take i (rm_output st) = take i arg.
Proof.
  intros Hlen. induction i as [|i IH]; intros Hi.
  - eexists. split; [done|]. repeat split; done.
  - destruct IH as (st & Hrun & Hsl & Hnobs & Hol & Hout); [lia|].
    replace (S i) with (i + 1)%nat by lia.
    rewrite for_range_app, Hrun. cbn [mbind res_bind for_range].
    rewrite Z.add_0_l.
    destruct (lookup_lt_is_Some_2 arg i ltac:(lia)) as [val Hval].
    rewrite roll_median_tail_eq.
    rewrite (get_Ok _ _ _ Hval). cbn [mbind res_bind].
    (* the value leaving the window *)
    assert (Hleave :
      (if 1 - 1 <? Z.of_nat i then
         prev ← get arg (Z.of_nat i - 1);
         if not_nan prev then Ok (skiplist_remove (rm_sl st) prev, rm_nobs st - 1)
         else Ok (rm_sl st, rm_nobs st)
       else Ok (rm_sl st, rm_nobs st)) = Ok (([] : skiplist), 0)).
    { destruct i as [|i'].
      - simpl. rewrite Hnobs, Hsl. done.
      - destruct (Z.ltb_spec (1 - 1) (Z.of_nat (S i'))); [|lia].
        destruct (lookup_lt_is_Some_2 arg i' ltac:(lia)) as [prev Hprev].
        replace (Z.of_nat (S i') - 1) with (Z.of_nat i') by lia.
        rewrite (get_Ok _ _ _ Hprev). cbn [mbind res_bind].
        rewrite Hprev in Hsl. change (option_list (Some prev)) with [prev] in Hsl.
        rewrite filter_cons, filter_nil in Hsl.
        rewrite Hnobs, Hsl.
        destruct (not_nan prev) eqn:Hp.
        + rewrite decide_True by done.
          rewrite skiplist_remove_singleton by done. done.
        + rewrite decide_False by done. done. }
    rewrite Hleave. cbn [mbind res_bind].
    assert (Hi' : (i < length (rm_output st))%nat) by lia.
    replace (i + 1)%nat with (S i) by lia.
    rewrite Hval. change (option_list (Some val)) with [val].
    rewrite filter_cons, filter_nil.
    destruct (not_nan val) eqn:Hv.
    + rewrite decide_True by done.
      cbn [skiplist_insert]. change (0 + 1) with 1.
      change (1 <=? 1) with true. cbv zeta.
      change (negb (1 `mod` 2 =? 0)) with true.
      change (1 `div` 2) with 0.
      change (skiplist_get [val] 0) with (Ok val). cbn [mbind res_bind].
      rewrite set_Ok by done. cbn [mbind res_bind].
      eexists. split; [done|]. cbn [rm_sl rm_nobs rm_output].
      rewrite length_insert. repeat split; try done.
      rewrite take_insert_snoc by done.
      by rewrite Hout, (take_S_r _ _ _ Hval).
    + rewrite decide_False by done.
      change (1 <=? 0) with false. cbn [mbind res_bind].
      rewrite set_Ok by done. cbn [mbind res_bind].
      eexists. split; [done|]. cbn [rm_sl rm_nobs rm_output].
      rewrite length_insert. repeat split; try done.
      rewrite take_insert_snoc by done.
      rewrite Hout, (take_S_r _ _ _ Hval).
      by rewrite (not_nan_false val Hv).
Qed.

(** X25: with a window of one and [minp] 0 or 1, [roll_median] returns
    its input: every value is the median of the window it is alone in,
    and a NaN stays NaN. *)
Theorem roll_median_window_one (junk : nat → float) (arg : list float)
    (minp : Z) :
  minp = 0 ∨ minp = 1 →
  roll_median junk arg 1 minp = Ok arg.
Proof.
  intros Hminp.
  assert (Hcheck : _check_minp minp (Z.of_nat (length arg)) = Ok 1).
  { unfold _check_minp. destruct Hminp as [-> | ->].
    - destruct (Z.ltb_spec (Z.of_nat (length arg)) 0); [lia|done].
    - destruct (Z.ltb_spec (Z.of_nat (length arg)) 1); [|done].
      f_equal. lia. }
  rewrite (roll_median_as_tail junk arg 1 minp 1) by (done || lia).
  destruct (roll_median_window_one_steps arg (np_empty junk (length arg))
              (length arg)) as (st & -> & _ & _ & Hlen & Htake);
    [apply np_empty_length|lia|].
  cbn [mbind res_bind]. f_equal.
  rewrite <- Hlen in Htake at 1. rewrite take_ge in Htake by lia.
  by rewrite take_ge in Htake by lia.
Qed.

Lemma roll_median_window_one_witness :
  roll_median (λ _, 0%float) [3; nan; 1; 2]%float 1 1 = Ok [3; nan; 1; 2]%float.
Proof. apply (roll_median_window_one (λ _, 0%float) [3; nan; 1; 2]%float 1). by right. Defined.
